(** * block-sync: calendar block reconciliation

    A shallow embedding of [src/block-sync.js] (a Google Apps Script that
    mirrors the busy time of two source calendars onto a blocker calendar)
    and the properties of its reconciliation engine.

    The script talks to two external collaborators: the Calendar advanced
    service ([Calendar.Events.list/insert/update/remove]) and the clock
    ([new Date()], read in the time zone of the script). Both are kept
    abstract in the class [Host], the rules of the time zone included; every
    theorem of the section [Properties] holds for every host, so it holds for
    every behaviour of the calendar service (stale search index, failing
    writes, arbitrary pages). The user properties, which hold the sync
    tokens, are part of the modelled world.  [console.log] lines are
    diagnostics and are left out. *)

From stdpp Require Import gmap strings list fin_maps.
From Stdlib Require Import ZArith Ascii.

Open Scope string_scope.
Open Scope list_scope.
Open Scope Z_scope.

(* ===================================================================== *)
(** ** JavaScript values *)
(* ===================================================================== *)

Module JS.

(** Truthiness of an optional string: [undefined] and the empty string
    are falsy. *)
Definition truthy (o : option string) : option string :=
  match o with
  | Some s => if String.eqb s "" then None else Some s
  | None => None
  end.

(** [a || b] on optional strings. *)
Definition or_else (a b : option string) : option string :=
  match truthy a with
  | Some s => Some s
  | None => b
  end.

(** [a === b] on optional strings ([undefined === undefined] holds). *)
Definition strict_eq (a b : option string) : bool :=
  match a, b with
  | Some x, Some y => String.eqb x y
  | None, None => true
  | _, _ => false
  end.

(** [s.includes(t)] *)
Fixpoint includes (s t : string) : bool :=
  String.prefix t s
  || match s with
     | EmptyString => false
     | String _ s' => includes s' t
     end.

(** The names every object inherits from [Object.prototype]: a property
    read [obj[k]] of a plain object finds them although [obj] has no own
    property [k]. *)
Definition prototype_keys : list string :=
  [ "constructor"; "toString"; "toLocaleString"; "valueOf";
    "hasOwnProperty"; "isPrototypeOf"; "propertyIsEnumerable";
    "__proto__"; "__defineGetter__"; "__defineSetter__";
    "__lookupGetter__"; "__lookupSetter__" ].

Definition inherited (k : string) : bool :=
  existsb (String.eqb k) prototype_keys.

(** [\d] *)
Definition is_digit (c : ascii) : bool :=
  let n := nat_of_ascii c in (48 <=? n)%nat && (n <=? 57)%nat.

(** The characters [.] does not match: LF, CR, and (in UTF-8) U+2028 and
    U+2029. *)
Fixpoint has_line_terminator (s : string) : bool :=
  match s with
  | EmptyString => false
  | String c s' =>
      let n := nat_of_ascii c in
      (n =? 10)%nat || (n =? 13)%nat
      || match s' with
         | String c1 (String c2 _) =>
             (n =? 226)%nat && (nat_of_ascii c1 =? 128)%nat
             && ((nat_of_ascii c2 =? 168)%nat || (nat_of_ascii c2 =? 169)%nat)
         | _ => false
         end
      || has_line_terminator s'
  end.

Fixpoint all_digits (s : string) : bool :=
  match s with
  | EmptyString => true
  | String c s' => is_digit c && all_digits s'
  end.

(** The whole of [s] matches [_\d{8}T\d{6}Z]. *)
Definition is_stamp (s : string) : bool :=
  (String.length s =? 17)%nat
  && String.eqb (String.substring 0 1 s) "_"
  && all_digits (String.substring 1 8 s)
  && String.eqb (String.substring 9 1 s) "T"
  && all_digits (String.substring 10 6 s)
  && String.eqb (String.substring 16 1 s) "Z".

(** The part of [s] before its last 17 characters, when these are a
    stamp: what [s.replace(/_\d{8}T\d{6}Z$/, '')] keeps. *)
Definition strip_stamp (s : string) : option string :=
  let n := String.length s in
  if (17 <=? n)%nat && is_stamp (String.substring (n - 17) 17 s)
  then Some (String.substring 0 (n - 17) s)
  else None.

End JS.

(* ===================================================================== *)
(** ** Data model: the Calendar API resources the script reads and writes *)
(* ===================================================================== *)

(** [event.start] / [event.end]: a date-time value carries [dateTime] (and
    [timeZone]), an all-day value carries [date]. *)
Record EventDateTime := mkEventDateTime {
  dateTime : option string;
  date : option string;
  timeZone : option string
}.

(** An event resource as the service returns it. Attendees are kept as
    their [email]s, the only field the script reads. *)
Record Event := mkEvent {
  id : string;
  status : string;
  description : option string;
  start : option EventDateTime;
  end_ : option EventDateTime;
  recurrence : option (list string);
  attendees : option (list string)
}.

(** The request body of [Calendar.Events.insert] built at lines 213-222. *)
Record NewBlock := mkNewBlock {
  nb_summary : string;
  nb_description : string;
  nb_start : option EventDateTime;
  nb_end : option EventDateTime;
  nb_attendees : list string;
  nb_recurrence : option (list string)
}.

(** The options object of [Calendar.Events.list]. Instants are
    milliseconds since the epoch ([toISOString] is a bijection on them). *)
Record ListOptions := mkListOptions {
  q : option string;
  syncToken : option string;
  timeMin : option Z;
  timeMax : option Z;
  maxResults : option Z;
  pageToken : option string
}.

Record ListResult := mkListResult {
  items : list Event;
  nextPageToken : option string;
  nextSyncToken : option string
}.

(** A JavaScript exception: [e.name] and [e.message]. *)
Record exn := mkExn { exn_name : string; message : string }.

(** The script properties read by both entry points. *)
Record Config := mkConfig {
  schedulerCal : string;
  homeCal : string;
  blockerCal : string;
  homeEmail : string;
  workEmail : string
}.

(** A value of the user property store. The script only ever writes
    [JSON.stringify] of a token map there, so a stored value is either such
    a map or a text [JSON.parse] rejects. *)
Inductive PropValue :=
| PText (s : string)
| PTokens (m : gmap string string).

(** The calls that leave the script, in the order they are issued. *)
Inductive Call :=
| CList (calendarId : string) (options : ListOptions)
| CInsert (calendarId : string) (block : NewBlock)
| CUpdate (calendarId : string) (eventId : string) (event : Event)
| CRemove (calendarId : string) (eventId : string)
| CSetProperty (key : string) (value : PropValue).

(* ===================================================================== *)
(** ** The host: calendar service and clock *)
(* ===================================================================== *)

(** The Apps Script host. [St] is the state of everything outside the
    script (the calendars, the search index, the wall clock); each
    operation answers and moves that state. An answer [inl e] is the
    call throwing [e]. [Date_parse] is [new Date(string).getTime()], with
    [None] for an invalid date ([NaN]). [LocalTZA] is the time zone of the
    script as ECMAScript's [Date] uses it: [LocalTZA t true] is the offset
    of local time from UTC, in milliseconds, at the instant [t];
    [LocalTZA t false] is the offset by which the local time value [t] is
    read back as an instant (the zone's choice for a local time that a
    clock change skips or repeats included). *)
Class Host (St : Type) := {
  Events_list : string -> ListOptions -> St -> (exn + ListResult) * St;
  Events_insert : NewBlock -> string -> St -> (exn + Event) * St;
  Events_update : Event -> string -> string -> St -> (exn + Event) * St;
  Events_remove : string -> string -> St -> (exn + unit) * St;
  Date_now : St -> Z * St;
  Date_parse : string -> option Z;
  LocalTZA : Z -> bool -> Z
}.

(** What a run can see and change. *)
Record World (St : Type) := mkWorld {
  host : St;
  userProps : gmap string PropValue;
  trace : list Call
}.
Arguments mkWorld {St}.
Arguments host {St}.
Arguments userProps {St}.
Arguments trace {St}.

(** How a piece of script ends: with a value, with an exception, or not at
    all (the fuel of a [do ... while] or of a recursion ran out). *)
Inductive outcome (A : Type) :=
| Ok (a : A)
| Throw (e : exn)
| Diverge.
Arguments Ok {A}.
Arguments Throw {A}.
Arguments Diverge {A}.

Definition M (St A : Type) : Type := World St -> outcome A * World St.

Definition ret {St A} (a : A) : M St A := fun w => (Ok a, w).

Definition bind {St A B} (m : M St A) (f : A -> M St B) : M St B :=
  fun w =>
    match m w with
    | (Ok a, w') => f a w'
    | (Throw e, w') => (Throw e, w')
    | (Diverge, w') => (Diverge, w')
    end.

Definition throw {St A} (e : exn) : M St A := fun w => (Throw e, w).

Definition diverge {St A} : M St A := fun w => (Diverge, w).

(** [try { m } catch (e) { h e }] *)
Definition try_catch {St A} (m : M St A) (h : exn -> M St A) : M St A :=
  fun w =>
    match m w with
    | (Throw e, w') => h e w'
    | r => r
    end.

Declare Scope script_scope.
Delimit Scope script_scope with script.
Notation "x <- m ;; k" := (bind m (fun x => k))
  (at level 100, m at next level, right associativity) : script_scope.
Notation "m ;;; k" := (bind m (fun _ => k))
  (at level 100, right associativity) : script_scope.
Open Scope script_scope.

Definition record_call {St} (c : Call) (w : World St) : World St :=
  mkWorld (host w) (userProps w) (trace w ++ [c]).

Definition with_host {St} (s : St) (w : World St) : World St :=
  mkWorld s (userProps w) (trace w).

(** A call of the calendar service: it is recorded when it is issued, then
    the host answers. *)
Definition host_call {St A} (c : Call) (op : St -> (exn + A) * St) : M St A :=
  fun w =>
    let w1 := record_call c w in
    match op (host w1) with
    | (inl e, s) => (Throw e, with_host s w1)
    | (inr a, s) => (Ok a, with_host s w1)
    end.

(** [new Date()] *)
Definition new_Date {St} `{Host St} : M St Z :=
  fun w => let '(t, s) := Date_now (host w) in (Ok t, with_host s w).

(** [properties.getProperty(key)] *)
Definition getProperty {St} (key : string) : M St (option PropValue) :=
  fun w => (Ok (userProps w !! key), w).

(** [properties.setProperty(key, value)] *)
Definition setProperty {St} (key : string) (value : PropValue) : M St unit :=
  fun w =>
    (Ok tt, mkWorld (host w) (<[key := value]> (userProps w))
                    (trace w ++ [CSetProperty key value])).

Definition ms_per_day : Z := 1000 * 60 * 60 * 24.
Definition ms_per_hour : Z := 1000 * 60 * 60.
Definition ms_per_minute : Z := 1000 * 60.
Definition ms_per_second : Z := 1000.

(** *** Local time

    A [Date] holds an instant, in milliseconds since the epoch; its
    setters work on local time. Every setter of ECMAScript reads
    [t = LocalTime(thisTimeValue)], builds a local time value from the
    fields of [t] with the given field replaced, and stores [UTC] of it.
    The instants of a run are far inside the range [TimeClip] lets
    through. *)
Section LocalTime.
Context {St : Type} `{HostSt : Host St}.

(** [LocalTime(t)] and [UTC(t)] of ECMAScript. *)
Definition LocalTime (t : Z) : Z := t + LocalTZA t true.

Definition UTC (t : Z) : Z := t - LocalTZA t false.

(** [date.setDate(date.getDate() + n)] (lines 42 and 392). [setDate(dt)]
    stores [UTC(MakeDate(MakeDay(YearFromTime(t), MonthFromTime(t), dt),
    TimeWithinDay(t)))]; [MakeDay(y, m, dt)] is the day number of the first
    of the month plus [dt - 1], so for [dt = DateFromTime(t) + n] it is
    [Day(t) + n]: the local time moves by [n] whole days, the local time
    of day is kept. *)
Definition addLocalDays (date n : Z) : Z :=
  UTC (LocalTime date + n * ms_per_day).

(** [date.setHours(hour)]: [MakeDate(Day(t), MakeTime(hour, MinFromTime(t),
    SecFromTime(t), msFromTime(t)))]. *)
Definition setHours (date hour : Z) : Z :=
  let t := LocalTime date in
  UTC (t / ms_per_day * ms_per_day + hour * ms_per_hour + t mod ms_per_hour).

(** [date.setMinutes(min)] *)
Definition setMinutes (date min : Z) : Z :=
  let t := LocalTime date in
  UTC (t - t mod ms_per_hour + min * ms_per_minute + t mod ms_per_minute).

(** [date.setSeconds(sec)] *)
Definition setSeconds (date sec : Z) : Z :=
  let t := LocalTime date in
  UTC (t - t mod ms_per_minute + sec * ms_per_second + t mod ms_per_second).

(** [date.setMilliseconds(ms)] *)
Definition setMilliseconds (date ms : Z) : Z :=
  let t := LocalTime date in
  UTC (t - t mod ms_per_second + ms).

End LocalTime.

(* ===================================================================== *)
(** ** The script *)
(* ===================================================================== *)

(** The two side tables of a reconciliation pass: [blockLookupCache]
    (line 76; [Some None] is a cached [null]; it is read through
    [hasOwnProperty], so only own keys count) and the
    [crossCalendarBlockTracker] of the run (lines 11 and 37), whose only
    stored value is [true]. *)
Record LoopState := mkLoopState {
  blockLookupCache : gmap string (option Event);
  crossCalendarBlockTracker : gset string
}.

(** [crossCalendarBlockTracker[eventId]] as a condition (line 206): an own
    key, or a name found on the prototype. *)
Definition tracked (tracker : gset string) (eventId : string) : bool :=
  bool_decide (eventId ∈ tracker) || JS.inherited eventId.

Definition is_cancelled (event : Event) : bool :=
  String.eqb (status event) "cancelled".

(** Lines 152-156. *)
Definition areDatesEqual (date1 date2 : option EventDateTime) : bool :=
  match date1, date2 with
  | None, None => true
  | None, Some _ | Some _, None => false
  | Some d1, Some d2 =>
      JS.strict_eq (dateTime d1) (dateTime d2)
      && JS.strict_eq (timeZone d1) (timeZone d2)
  end.

(** Lines 159-172. Both values are arrays of rule strings when present, so
    the [String(rec1) === String(rec2)] fallback is never reached. *)
Definition areRecurrencesEqual (rec1 rec2 : option (list string)) : bool :=
  match rec1, rec2 with
  | None, None => true
  | None, Some _ | Some _, None => false
  | Some l1, Some l2 =>
      if negb (length l1 =? length l2)%nat then false
      else forallb (fun b : bool => b)
             (imap (fun i rule => JS.strict_eq (Some rule) (l2 !! i)) l1)
  end.

(** The event id matches [/^.*_\d{8}T\d{6}Z$/] (line 90). *)
Definition isRecurringInstance (eventId : string) : bool :=
  match JS.strip_stamp eventId with
  | Some prefix => negb (JS.has_line_terminator prefix)
  | None => false
  end.

(** [event.id.replace(/_\d{8}T\d{6}Z$/, '')] (line 94). *)
Definition parentEventId (eventId : string) : string :=
  default eventId (JS.strip_stamp eventId).

(** [Math.floor((eventStartDate - today) / (1000 * 60 * 60 * 24))] (lines
    107-108), [None] being [NaN]. The quotient is taken on integers. *)
Definition daysDifference `{Host St} (eventStart : EventDateTime) (today : Z)
  : option Z :=
  match JS.or_else (dateTime eventStart) (date eventStart) with
  | Some text =>
      match Date_parse text with
      | Some eventStartDate => Some ((eventStartDate - today) / ms_per_day)
      | None => None
      end
  | None => None
  end.

(** [daysDifference > 90] (line 110); a comparison with [NaN] is false. *)
Definition beyondHorizon (d : option Z) : bool :=
  match d with
  | Some n => (90 <? n)%Z
  | None => false
  end.

Definition startTypeError : exn :=
  mkExn "TypeError" "Cannot read properties of undefined (reading 'dateTime')".

(** The summary of every block: a green circle (U+1F7E2) and [BLOCK]. *)
Definition blockSummary : string :=
  String (ascii_of_nat 240) (String (ascii_of_nat 159)
    (String (ascii_of_nat 159) (String (ascii_of_nat 162) " BLOCK"))).

(** Lines 213-222. *)
Definition newBlock (workEmail : string) (event : Event) : NewBlock :=
  mkNewBlock blockSummary (id event) (start event) (end_ event)
             [workEmail] (recurrence event).

(** Lines 190-195: the block with the event's start, end and recurrence. *)
Definition overwriteBlock (matchingBlock event : Event) : Event :=
  mkEvent (id matchingBlock) (status matchingBlock)
          (description matchingBlock) (start event) (end_ event)
          (recurrence event) (attendees matchingBlock).

Definition withAttendees (event : Event) (l : list string) : Event :=
  mkEvent (id event) (status event) (description event) (start event)
          (end_ event) (recurrence event) (Some l).

(** [{ q: eventId }] (lines 255-257). *)
Definition searchOptions (eventId : string) : ListOptions :=
  mkListOptions (Some eventId) None None None None None.

(** What the recurring-instance prologue (lines 89-118) decides. *)
Inductive Resolution :=
| Suppress
| Forward.

Section Engine.
Context {St : Type} `{HostSt : Host St}.

Definition Calendar_Events_list (calendarId : string) (options : ListOptions)
  : M St ListResult :=
  host_call (CList calendarId options) (Events_list calendarId options).

Definition Calendar_Events_insert (event : NewBlock) (calendarId : string)
  : M St Event :=
  host_call (CInsert calendarId event) (Events_insert event calendarId).

Definition Calendar_Events_update (event : Event) (calendarId eventId : string)
  : M St Event :=
  host_call (CUpdate calendarId eventId event)
            (Events_update event calendarId eventId).

Definition Calendar_Events_remove (calendarId eventId : string) : M St unit :=
  host_call (CRemove calendarId eventId) (Events_remove calendarId eventId).

(** Lines 246-286. The result is the block or [null], with the cache as
    the call leaves it. *)
Definition checkForBlockOnCalendar (blockerCalId eventId : string)
    (cache : gmap string (option Event))
  : M St (option Event * gmap string (option Event)) :=
  match cache !! eventId with
  | Some cached => ret (cached, cache)
  | None =>
      blocks <- Calendar_Events_list blockerCalId (searchOptions eventId) ;;
      match List.find (fun block =>
                    JS.strict_eq (description block) (Some eventId))
                 (items blocks) with
      | Some matchingBlock =>
          ret (Some matchingBlock, <[eventId := Some matchingBlock]> cache)
      | None => ret (None, <[eventId := None]> cache)
      end
  end.

(** Lines 295-304. Whatever the call throws (also the [deletedEvent.id] of
    the log line) is caught. *)
Definition deleteEvent (calendarId eventId : string) : M St unit :=
  try_catch (Calendar_Events_remove calendarId eventId)
            (fun _ => ret tt).

(** Lines 314-323. *)
Definition updateEvent (calendarId eventId : string) (event : Event)
  : M St unit :=
  try_catch (Calendar_Events_update event calendarId eventId ;;; ret tt)
            (fun _ => ret tt).

(** Lines 332-342: the created event, or [undefined] after a failure. *)
Definition createEvent (calendarId : string) (event : NewBlock)
  : M St (option Event) :=
  try_catch (createdEvent <- Calendar_Events_insert event calendarId ;;
             ret (Some createdEvent))
            (fun _ => ret None).

(** *** [processCalendar] (lines 73-235) *)

(** Lines 89-118, the prologue of the loop body: is the event handed to
    the rest of the body or skipped ([continue])? *)
Definition resolveRecurrence (blockerCalId : string) (event : Event)
    (cache : gmap string (option Event))
  : M St (Resolution * gmap string (option Event)) :=
  if isRecurringInstance (id event) then
    r <- checkForBlockOnCalendar blockerCalId (parentEventId (id event)) cache ;;
    match r with
    | (Some _, cache1) => ret (Suppress, cache1)
    | (None, cache1) =>
        today <- new_Date ;;
        match start event with
        | None => throw startTypeError
        | Some eventStart =>
            if beyondHorizon (daysDifference eventStart today)
            then ret (Suppress, cache1)
            else ret (Forward, cache1)
        end
    end
  else ret (Forward, cache).

(** Lines 120-133: the home address is added to the attendees of the
    source event, which is written back to the source calendar. The event
    object is changed in place, so the rest of the body sees the result. *)
Definition addAttendee (sourceCalId homeEmail : string) (addAttendees : bool)
    (event : Event) : M St Event :=
  if addAttendees && negb (is_cancelled event) then
    match attendees event with
    | Some (a :: l) =>
        if negb (existsb (String.eqb homeEmail) (a :: l)) then
          let event' := withAttendees event ((a :: l) ++ [homeEmail]) in
          updateEvent sourceCalId (id event') event' ;;; ret event'
        else ret event
    | _ =>
        let event' := withAttendees event [homeEmail] in
        updateEvent sourceCalId (id event') event' ;;; ret event'
    end
  else ret event.

(** Lines 135-231: the decision on one event. *)
Definition reconcileEvent (blockerCalId workEmail : string) (event : Event)
    (st : LoopState) : M St LoopState :=
  r <- checkForBlockOnCalendar blockerCalId (id event) (blockLookupCache st) ;;
  let '(found, cache) := r in
  let tracker := crossCalendarBlockTracker st in
  match found with
  | Some matchingBlock =>
      if is_cancelled event then
        deleteEvent blockerCalId (id matchingBlock) ;;;
        ret (mkLoopState (<[id event := None]> cache) tracker)
      else
        let startChanged :=
          negb (areDatesEqual (start matchingBlock) (start event)) in
        let endChanged :=
          negb (areDatesEqual (end_ matchingBlock) (end_ event)) in
        let recurrenceChanged :=
          negb (areRecurrencesEqual (recurrence matchingBlock)
                                    (recurrence event)) in
        if startChanged || endChanged || recurrenceChanged then
          let block' := overwriteBlock matchingBlock event in
          updateEvent blockerCalId (id block') block' ;;;
          ret (mkLoopState (<[id event := Some block']> cache) tracker)
        else ret (mkLoopState cache tracker)
  | None =>
      if negb (is_cancelled event) then
        if tracked tracker (id event) then ret (mkLoopState cache tracker)
        else
          let tracker' := {[id event]} ∪ tracker in
          createdBlock <- createEvent blockerCalId (newBlock workEmail event) ;;
          match createdBlock with
          | Some block =>
              ret (mkLoopState (<[id event := Some block]> cache) tracker')
          | None => ret (mkLoopState cache tracker')
          end
      else ret (mkLoopState cache tracker)
  end.

(** Lines 120-231: what the loop body does with an event that is not
    skipped, be it a standalone event, a series, or an instance let
    through. *)
Definition forwardEvent
    (sourceCalId blockerCalId homeEmail workEmail : string)
    (addAttendees : bool) (event : Event) (st : LoopState) : M St LoopState :=
  event' <- addAttendee sourceCalId homeEmail addAttendees event ;;
  reconcileEvent blockerCalId workEmail event' st.

(** The body of the [for] loop (lines 85-232). *)
Definition processEvent
    (sourceCalId blockerCalId homeEmail workEmail : string)
    (addAttendees : bool) (event : Event) (st : LoopState) : M St LoopState :=
  r <- resolveRecurrence blockerCalId event (blockLookupCache st) ;;
  match r with
  | (Suppress, cache) => ret (mkLoopState cache (crossCalendarBlockTracker st))
  | (Forward, cache) =>
      forwardEvent sourceCalId blockerCalId homeEmail workEmail addAttendees
        event (mkLoopState cache (crossCalendarBlockTracker st))
  end.

Fixpoint processEvents
    (sourceCalId blockerCalId homeEmail workEmail : string)
    (addAttendees : bool) (events : list Event) (st : LoopState)
  : M St LoopState :=
  match events with
  | [] => ret st
  | event :: rest =>
      st' <- processEvent sourceCalId blockerCalId homeEmail workEmail
               addAttendees event st ;;
      processEvents sourceCalId blockerCalId homeEmail workEmail
        addAttendees rest st'
  end.

(** The tracker object is changed in place by the script; here the
    function hands back its final content. *)
Definition processCalendar
    (sourceCalId blockerCalId homeEmail workEmail : string)
    (addAttendees dryRun : bool) (crossCalendarBlockTracker0 : gset string)
    (events : list Event) : M St (gset string) :=
  if dryRun then ret crossCalendarBlockTracker0
  else
    st <- processEvents sourceCalId blockerCalId homeEmail workEmail
            addAttendees events (mkLoopState ∅ crossCalendarBlockTracker0) ;;
    ret (crossCalendarBlockTracker st).

(** *** The fetchers *)

Definition withPageToken (options : ListOptions) (pt : option string)
  : ListOptions :=
  mkListOptions (q options) (syncToken options) (timeMin options)
                (timeMax options) (maxResults options) pt.

(** [evts.concat(events.items)] under its guard (lines 373, 453). *)
Definition concatItems (evts : list Event) (events : ListResult) : list Event :=
  match items events with
  | [] => evts
  | _ => evts ++ items events
  end.

(** The [do ... while (pageToken)] of [fetchEventsByTimeWindow] (lines
    364-378); [fuel] bounds the number of pages. *)
Fixpoint windowPages (fuel : nat) (calendarId : string) (options : ListOptions)
    (pageToken0 : option string) (evts : list Event) : M St (list Event) :=
  match fuel with
  | O => diverge
  | S fuel' =>
      events <- try_catch
                  (Calendar_Events_list calendarId
                     (withPageToken options pageToken0))
                  (fun e => throw (mkExn "Error" (message e))) ;;
      let evts' := concatItems evts events in
      match JS.truthy (nextPageToken events) with
      | Some next => windowPages fuel' calendarId options (Some next) evts'
      | None => ret evts'
      end
  end.

(** Lines 352-381. *)
Definition fetchEventsByTimeWindow (fuel : nat) (calendarId : string)
    (startDate endDate : Z) : M St (list Event) :=
  windowPages fuel calendarId
    (mkListOptions None None (Some startDate) (Some endDate) None None)
    None [].

(** Lines 392-396 on the instant [now] that line 391 read. *)
Definition relativeDate (now daysOffset hour : Z) : Z :=
  let date := addLocalDays now daysOffset in
  let date := setHours date hour in
  let date := setMinutes date 0 in
  let date := setSeconds date 0 in
  setMilliseconds date 0.

Definition getRelativeDate (daysOffset hour : Z) : M St Z :=
  now <- new_Date ;; ret (relativeDate now daysOffset hour).

Definition tokenInvalidText : string := "Sync token is no longer valid".

(** The [do ... while (pageToken)] of [fetchEventsByToken] (lines
    438-458) up to the point where it is left: [inl e] when a page request
    threw [e] (the [catch] of line 442 is entered), [inr] with the events
    and the last page when the pages ran out. *)
Fixpoint tokenPages (fuel : nat) (calendarId : string) (options : ListOptions)
    (pageToken0 : option string) (evts : list Event)
  : M St (exn + list Event * ListResult) :=
  match fuel with
  | O => diverge
  | S fuel' =>
      r <- try_catch
             (events <- Calendar_Events_list calendarId
                          (withPageToken options pageToken0) ;;
              ret (inr events))
             (fun e => ret (inl e)) ;;
      match r with
      | inl e => ret (inl e)
      | inr events =>
          let evts' := concatItems evts events in
          match JS.truthy (nextPageToken events) with
          | Some next => tokenPages fuel' calendarId options (Some next) evts'
          | None => ret (inr (evts', events))
          end
      end
  end.

(** Lines 410-420: the stored token map, [{}] when nothing usable is
    stored. Calendar ids are addresses, never the name of a member of
    [Object.prototype], so [syncTokens[calendarId]] is a plain lookup. *)
Definition loadSyncTokens : M St (gmap string string) :=
  syncTokensStr <- getProperty "syncTokens" ;;
  ret match syncTokensStr with
      | Some (PTokens m) => m
      | Some (PText _) | None => ∅
      end.

(** The request of an incremental fetch (lines 422-428) and of a full
    synchronisation from [since] on (lines 422-424 and 431): neither sets
    [timeMax]. *)
Definition incrementalOptions (token : string) : ListOptions :=
  mkListOptions None (Some token) None None (Some 100) None.

Definition fullSyncOptions (since : Z) : ListOptions :=
  mkListOptions None None (Some since) None (Some 100) None.

(** Lines 422-432. *)
Definition tokenOptions (calendarId : string) (fullSync : bool)
    (syncTokens : gmap string string) : M St ListOptions :=
  match (if fullSync then None else JS.truthy (syncTokens !! calendarId)) with
  | Some token => ret (incrementalOptions token)
  | None =>
      since <- getRelativeDate (-30) 0 ;;
      ret (fullSyncOptions since)
  end.

(** Lines 460-466: the token of the last page is stored. *)
Definition storeNextToken (calendarId : string)
    (syncTokens : gmap string string) (evts : list Event)
    (events : ListResult) : M St (list Event) :=
  match JS.truthy (nextSyncToken events) with
  | Some token =>
      setProperty "syncTokens"
        (PTokens (<[calendarId := token]> syncTokens)) ;;;
      ret evts
  | None => ret evts
  end.

(** Lines 407-467. [fuel] bounds the pages of one attempt and the number
    of attempts. *)
Fixpoint fetchEventsByToken (fuel : nat) (calendarId : string)
    (fullSync : bool) : M St (list Event) :=
  match fuel with
  | O => diverge
  | S fuel' =>
      syncTokens <- loadSyncTokens ;;
      options <- tokenOptions calendarId fullSync syncTokens ;;
      r <- tokenPages fuel' calendarId options None [] ;;
      match r with
      | inl e =>
          if JS.includes (message e) tokenInvalidText then
            setProperty "syncTokens" (PTokens (delete calendarId syncTokens)) ;;;
            fetchEventsByToken fuel' calendarId true
          else throw (mkExn "Error" (message e))
      | inr (evts, events) => storeNextToken calendarId syncTokens evts events
      end
  end.

(** *** Maintenance *)

(** Lines 475-499. [calendarId] is [None] for [null]; the map is read as
    in [fetchEventsByToken] (lines 477-486 are lines 411-420 again). *)
Definition resetSyncToken (calendarId : option string) : M St unit :=
  syncTokens <- loadSyncTokens ;;
  setProperty "syncTokens"
    (PTokens match JS.truthy calendarId with
             | Some cal => delete cal syncTokens
             | None => ∅
             end).

(** *** The entry points *)

(** Lines 5-26. *)
Definition reactiveEntryPoint (fuel : nat) (props : Config) : M St unit :=
  let crossCalendarBlockTracker0 : gset string := ∅ in
  schedulerEvents <- fetchEventsByToken fuel (schedulerCal props) false ;;
  homeEvents <- fetchEventsByToken fuel (homeCal props) false ;;
  tracker1 <- processCalendar (schedulerCal props) (blockerCal props)
                (homeEmail props) (workEmail props) true false
                crossCalendarBlockTracker0 schedulerEvents ;;
  processCalendar (homeCal props) (blockerCal props)
    (homeEmail props) (workEmail props) false false
    tracker1 homeEvents ;;;
  ret tt.

(** Lines 33-57. [futureDate] is a copy of [today] moved 90 days ahead on
    the local calendar (lines 41-42). *)
Definition proactiveEntryPoint (fuel : nat) (props : Config) : M St unit :=
  let crossCalendarBlockTracker0 : gset string := ∅ in
  today <- new_Date ;;
  let futureDate := addLocalDays today 90 in
  schedulerEvents <- fetchEventsByTimeWindow fuel (schedulerCal props)
                       today futureDate ;;
  homeEvents <- fetchEventsByTimeWindow fuel (homeCal props)
                  today futureDate ;;
  tracker1 <- processCalendar (schedulerCal props) (blockerCal props)
                (homeEmail props) (workEmail props) true false
                crossCalendarBlockTracker0 schedulerEvents ;;
  processCalendar (homeCal props) (blockerCal props)
    (homeEmail props) (workEmail props) false false
    tracker1 homeEvents ;;;
  ret tt.

End Engine.

(* ===================================================================== *)
(** ** Reading a trace *)
(* ===================================================================== *)

(** The write operations of the calendar service. *)
Definition is_write (c : Call) : bool :=
  match c with
  | CInsert _ _ | CUpdate _ _ _ | CRemove _ _ => true
  | CList _ _ | CSetProperty _ _ => false
  end.

Definition writes (t : list Call) : list Call := List.filter is_write t.

(** A create operation for the source event [eventId]: the description of
    the inserted block is the correlation key. *)
Definition is_creation (eventId : string) (c : Call) : bool :=
  match c with
  | CInsert _ block => String.eqb (nb_description block) eventId
  | _ => false
  end.

Definition creations (eventId : string) (t : list Call) : nat :=
  length (List.filter (is_creation eventId) t).

(** A call made while the change feed of [calendarId] is fetched: a page
    request (no search text) on that calendar, or the token map being
    stored. *)
Definition fetch_call (calendarId : string) (c : Call) : Prop :=
  match c with
  | CList cal options => cal = calendarId /\ q options = None
  | CSetProperty key _ => key = "syncTokens"
  | _ => False
  end.

(** A call made while the events of [sourceCalId] are reconciled: a search
    of the blocker calendar, a write to it, or the attendee update of the
    source event. *)
Definition reconcile_call (blockerCalId sourceCalId : string) (c : Call)
  : Prop :=
  match c with
  | CList cal options => cal = blockerCalId /\ is_Some (q options)
  | CInsert cal _ => cal = blockerCalId
  | CRemove cal _ => cal = blockerCalId
  | CUpdate cal _ _ => cal = blockerCalId \/ cal = sourceCalId
  | CSetProperty _ _ => False
  end.

(** [w'] is [w] after the calls [t], the user properties untouched. *)
Definition ext {St} (w w' : World St) (t : list Call) : Prop :=
  userProps w' = userProps w /\ trace w' = trace w ++ t.

(** The creations in [t] respect the tracker [T] the calls started from,
    and are in the tracker [T'] they leave (if the script got that far). *)
Definition tracks (T : gset string) (t : list Call) (T' : option (gset string))
  : Prop :=
  (forall eid, (creations eid t <= if tracked T eid then 0 else 1)%nat)
  /\ (forall T1, T' = Some T1 ->
        T ⊆ T1 /\ forall eid, creations eid t <> 0%nat -> eid ∈ T1).

Definition returned {A} (f : A -> gset string) (r : outcome A)
  : option (gset string) :=
  match r with
  | Ok a => Some (f a)
  | _ => None
  end.

(** The calls issued between the worlds [w] and [w']. *)
Definition issued {St} (w w' : World St) : list Call :=
  drop (length (trace w)) (trace w').

(** The order of a run: the scheduler calendar is fetched, then the home
    calendar is fetched, then the scheduler events are reconciled, then
    the home events. *)
Definition fetched_then_reconciled (props : Config) (t : list Call) : Prop :=
  exists f1 f2 p1 p2,
    t = f1 ++ f2 ++ p1 ++ p2
    /\ Forall (fetch_call (schedulerCal props)) f1
    /\ Forall (fetch_call (homeCal props)) f2
    /\ Forall (reconcile_call (blockerCal props) (schedulerCal props)) p1
    /\ Forall (reconcile_call (blockerCal props) (homeCal props)) p2.

(** A call that uses [eventId] as the correlation key: a search for that
    text, or a block created with that description. *)
Definition keyed_by (eventId : string) (c : Call) : Prop :=
  match c with
  | CList _ options => q options = Some eventId
  | CInsert _ block => nb_description block = eventId
  | _ => True
  end.

(** A request for the first page of a change feed: no search text and no
    page token. Each attempt of a fetch starts with one. *)
Definition first_page (c : Call) : bool :=
  match c with
  | CList _ options =>
      match q options, JS.truthy (pageToken options) with
      | None, None => true
      | _, _ => false
      end
  | _ => false
  end.

Definition attempts (t : list Call) : nat := length (List.filter first_page t).

(** The home address is already among the attendees, or attendees are not
    propagated for this source: lines 120-133 then do nothing. *)
Definition attendeeSettled (addAttendees : bool) (homeEmail : string)
    (event : Event) : bool :=
  negb addAttendees
  || is_cancelled event
  || match attendees event with
     | Some (a :: l) => existsb (String.eqb homeEmail) (a :: l)
     | _ => false
     end.

(** Two start or end values with the same raw fields. *)
Definition sameRawFields (date1 date2 : option EventDateTime) : bool :=
  match date1, date2 with
  | None, None => true
  | Some d1, Some d2 =>
      JS.strict_eq (dateTime d1) (dateTime d2)
      && JS.strict_eq (date d1) (date d2)
      && JS.strict_eq (timeZone d1) (timeZone d2)
  | _, _ => false
  end.

(** The options of a windowed fetch (lines 353-357). *)
Definition windowOptions (startDate endDate : Z) : ListOptions :=
  mkListOptions None None (Some startDate) (Some endDate) None None.

(** The three comparisons of lines 174-178 see a change. *)
Definition blockChanged (matchingBlock event : Event) : bool :=
  negb (areDatesEqual (start matchingBlock) (start event))
  || negb (areDatesEqual (end_ matchingBlock) (end_ event))
  || negb (areRecurrencesEqual (recurrence matchingBlock) (recurrence event)).

(** The decision table of lines 139-231: the writes of the reconcile step
    for an event, given what the lookup found and the tracker. *)
Definition tableWrites (blockerCalId workEmail : string) (event : Event)
    (found : option Event) (tracker : gset string) : list Call :=
  match found with
  | Some matchingBlock =>
      if is_cancelled event then [CRemove blockerCalId (id matchingBlock)]
      else if blockChanged matchingBlock event
           then [CUpdate blockerCalId (id matchingBlock)
                   (overwriteBlock matchingBlock event)]
           else []
  | None =>
      if is_cancelled event then []
      else if tracked tracker (id event) then []
           else [CInsert blockerCalId (newBlock workEmail event)]
  end.

(** A search of the blocker calendar for [eventId]. *)
Definition is_search (eventId : string) (c : Call) : bool :=
  match c with
  | CList _ options => JS.strict_eq (q options) (Some eventId)
  | _ => false
  end.

Definition searches (eventId : string) (t : list Call) : nat :=
  length (List.filter (is_search eventId) t).

(** The searches in [t] respect the cache [cache] the calls started from:
    none for an id it holds, at most one for any other id; and every id
    the cache held or [t] searched for is held by the cache [cache'] the
    calls leave (if the script got that far). *)
Definition memoised (cache : gmap string (option Event)) (t : list Call)
    (cache' : option (gmap string (option Event))) : Prop :=
  (forall k, (searches k t <= match cache !! k with
                              | Some _ => 0
                              | None => 1
                              end)%nat)
  /\ (forall c1, cache' = Some c1 ->
        (forall k, is_Some (cache !! k) -> is_Some (c1 !! k))
        /\ forall k, searches k t <> 0%nat -> is_Some (c1 !! k)).

Definition returnedCache {A} (f : A -> gmap string (option Event))
    (r : outcome A) : option (gmap string (option Event)) :=
  match r with
  | Ok a => Some (f a)
  | _ => None
  end.

(** A page request of a windowed fetch of [calendarId]: the window, no
    token, no search text. *)
Definition window_request (calendarId : string) (startDate endDate : Z)
    (c : Call) : Prop :=
  exists pt, c = CList calendarId
                   (withPageToken (windowOptions startDate endDate) pt).

(** The token map of a property store, as the script reads it. *)
Definition storedTokensOf (props : gmap string PropValue) : gmap string string :=
  match props !! "syncTokens" with
  | Some (PTokens m) => m
  | _ => ∅
  end.

(** A call that writes nowhere but onto the blocker calendar, or updates
    an event of the scheduler calendar. *)
Definition spares_home (props : Config) (c : Call) : Prop :=
  match c with
  | CInsert cal _ | CRemove cal _ => cal = blockerCal props
  | CUpdate cal _ _ => cal = blockerCal props \/ cal = schedulerCal props
  | CList _ _ | CSetProperty _ _ => True
  end.

Section Requests.
Context {St : Type} `{HostSt : Host St}.

(** A page request of the proactive run whose clock read [today]: the
    window from [today] to [today] moved 90 days ahead on the local
    calendar, no token. *)
Definition in_proactive_window (today : Z) (c : Call) : Prop :=
  match c with
  | CList _ options =>
      q options = None ->
      timeMin options = Some today
      /\ timeMax options = Some (addLocalDays today 90)
      /\ syncToken options = None
  | _ => True
  end.

(** A call of a full synchronisation of [calendarId]: a page request with
    no token, no search text, no upper bound and the lower bound
    [getRelativeDate(-30, 0)] of some clock reading; or the token map being
    stored. *)
Definition full_sync_call (calendarId : string) (c : Call) : Prop :=
  match c with
  | CList cal options =>
      cal = calendarId /\ q options = None /\ syncToken options = None
      /\ timeMax options = None /\ maxResults options = Some 100
      /\ exists today, timeMin options = Some (relativeDate today (-30) 0)
  | CSetProperty key _ => key = "syncTokens"
  | _ => False
  end.

(** A page request with exactly the options [options], whatever the page. *)
Definition page_request (calendarId : string) (options : ListOptions)
    (c : Call) : Prop :=
  exists pt, c = CList calendarId (withPageToken options pt).

(** The contract of the calendar service for sync tokens (section 6 of
    the specification: it fails with [TokenInvalid] when an incremental
    token is rejected): a request that carries no sync token is never
    answered with the message that the sync token is no longer valid. *)
Definition token_contract : Prop :=
  forall calendarId options (s : St) e s',
    syncToken options = None ->
    Events_list calendarId options s = (inl e, s') ->
    JS.includes (message e) tokenInvalidText = false.

(** No local time of the day [day] (a day number on the local calendar)
    is skipped by a clock change: read as an instant and back, it is
    itself. *)
Definition day_has_no_gap (day : Z) : Prop :=
  forall t, t / ms_per_day = day -> LocalTime (UTC t) = t.

(** The four phases of a run whose fetcher is [fetch], from the world [w]
    on: what the fetch of the scheduler calendar issues; what the fetch of
    the home calendar issues, begun where the first fetch returned; what
    the pass of [processCalendar] over the scheduler events issues, begun
    where the second fetch returned with an empty tracker; what the pass
    over the home events issues, begun where the first pass returned with
    the tracker it left. A phase that is not reached issues nothing. *)
Record Phases := mkPhases {
  fetchScheduler : list Call;
  fetchHome : list Call;
  reconcileScheduler : list Call;
  reconcileHome : list Call
}.

Definition phases (fetch : string -> M St (list Event)) (props : Config)
    (w : World St) : Phases :=
  let '(r1, w1) := fetch (schedulerCal props) w in
  match r1 with
  | Ok schedulerEvents =>
      let '(r2, w2) := fetch (homeCal props) w1 in
      match r2 with
      | Ok homeEvents =>
          let '(r3, w3) :=
            processCalendar (schedulerCal props) (blockerCal props)
              (homeEmail props) (workEmail props) true false
              ∅ schedulerEvents w2 in
          match r3 with
          | Ok tracker1 =>
              let '(_, w4) :=
                processCalendar (homeCal props) (blockerCal props)
                  (homeEmail props) (workEmail props) false false
                  tracker1 homeEvents w3 in
              mkPhases (issued w w1) (issued w1 w2) (issued w2 w3)
                       (issued w3 w4)
          | _ => mkPhases (issued w w1) (issued w1 w2) (issued w2 w3) []
          end
      | _ => mkPhases (issued w w1) (issued w1 w2) [] []
      end
  | _ => mkPhases (issued w w1) [] [] []
  end.

(** A run from the world [w] to the world [w'] consists of the phases
    [ph] in order, each made of calls of its own kind only: both calendars
    are fetched before any event is reconciled, and the scheduler events
    are all reconciled before the first home event. *)
Definition in_phases (props : Config) (ph : Phases) (w w' : World St)
  : Prop :=
  trace w' = trace w ++ fetchScheduler ph ++ fetchHome ph
                     ++ reconcileScheduler ph ++ reconcileHome ph
  /\ Forall (fetch_call (schedulerCal props)) (fetchScheduler ph)
  /\ Forall (fetch_call (homeCal props)) (fetchHome ph)
  /\ Forall (reconcile_call (blockerCal props) (schedulerCal props))
       (reconcileScheduler ph)
  /\ Forall (reconcile_call (blockerCal props) (homeCal props))
       (reconcileHome ph).

(** [run] is the reconciliation of [event] as an ordinary event from the
    world [w] and the loop state [st] on (lines 120-231): the attendee
    step returns the event [event'], still with the id of [event]; a block
    is looked up under that id (by a search for it, unless the cache holds
    the id); when the lookup answers [found], the run returns, and it
    ends in the world the lookup left followed by the calls the decision
    table gives for [event'] and [found], no more and no less; when the
    lookup throws, so does the run, in the world the lookup left. *)
Definition reconciled_as_ordinary
    (sourceCalId blockerCalId homeEmail workEmail : string)
    (addAttendees : bool) (event : Event) (st : LoopState) (w : World St)
    (run : outcome LoopState * World St) : Prop :=
  exists event' w1 rl w2,
    addAttendee sourceCalId homeEmail addAttendees event w = (Ok event', w1)
    /\ id event' = id event
    /\ checkForBlockOnCalendar blockerCalId (id event) (blockLookupCache st) w1
       = (rl, w2)
    /\ (blockLookupCache st !! id event = None ->
        issued w1 w2 = [CList blockerCalId (searchOptions (id event))])
    /\ match rl with
       | Ok (found, cache) =>
           (exists st', run.1 = Ok st'
              /\ (blockLookupCache st' = cache
                  \/ exists v, blockLookupCache st' = <[id event := v]> cache))
           /\ ext w2 run.2
                (tableWrites blockerCalId workEmail event' found
                   (crossCalendarBlockTracker st))
       | Throw e => run = (Throw e, w2)
       | Diverge => False
       end.

End Requests.

Section InTurn.
Context {St : Type} `{HostSt : Host St}.

(** The orchestration as section 4.4 and section 5 of the specification
    word it: each source is fetched and then reconciled before the next
    source is fetched. Not the script's code; kept to compare
    [reactiveEntryPoint] with. *)
Definition reactiveInTurn (fuel : nat) (props : Config) : M St unit :=
  let crossCalendarBlockTracker0 : gset string := ∅ in
  schedulerEvents <- fetchEventsByToken fuel (schedulerCal props) false ;;
  tracker1 <- processCalendar (schedulerCal props) (blockerCal props)
                (homeEmail props) (workEmail props) true false
                crossCalendarBlockTracker0 schedulerEvents ;;
  homeEvents <- fetchEventsByToken fuel (homeCal props) false ;;
  processCalendar (homeCal props) (blockerCal props)
    (homeEmail props) (workEmail props) false false
    tracker1 homeEvents ;;;
  ret tt.

End InTurn.

(* ===================================================================== *)
(** ** A small calendar service to run the script on *)
(* ===================================================================== *)

Module Sim.

(** The simulated service: the clock, what a change-feed request returns
    per source calendar, what the search of the blocker calendar returns,
    and three switches: the stored sync tokens are stale, writes are
    rejected, the search index does not show new blocks yet. *)
Record State := mkState {
  clock : Z;
  feed : list (string * list Event);
  blocks : list Event;
  stale_tokens : bool;
  reject_writes : bool;
  index_lags : bool;
  next_id : nat
}.

Definition staleTokenError : exn :=
  mkExn "GoogleJsonResponseException"
    "API call to calendar.events.list failed with error: Sync token is no longer valid, a full sync is required.".

Definition writeError : exn :=
  mkExn "GoogleJsonResponseException" "API call failed with error: Forbidden".

Definition feed_of (s : State) (calendarId : string) : list Event :=
  match List.find (fun p => String.eqb (fst p) calendarId) (feed s) with
  | Some p => snd p
  | None => []
  end.

(** A request with [q] searches the blocker calendar and returns every
    block (the script filters by description); a request without [q] is a
    change-feed request. *)
Definition listEvents (calendarId : string) (options : ListOptions) (s : State)
  : (exn + ListResult) * State :=
  match q options with
  | Some _ => (inr (mkListResult (blocks s) None None), s)
  | None =>
      if stale_tokens s && bool_decide (is_Some (syncToken options))
      then (inl staleTokenError, s)
      else (inr (mkListResult (feed_of s calendarId) None (Some "token-1")), s)
  end.

Fixpoint id_of_nat (n : nat) : string :=
  match n with
  | O => "blk"
  | S n' => id_of_nat n' +:+ "x"
  end.

Definition insertBlock (b : NewBlock) (calendarId : string) (s : State)
  : (exn + Event) * State :=
  if reject_writes s then (inl writeError, s)
  else
    let created :=
      mkEvent (id_of_nat (next_id s)) "confirmed" (Some (nb_description b))
              (nb_start b) (nb_end b) (nb_recurrence b)
              (Some (nb_attendees b)) in
    (inr created,
     mkState (clock s) (feed s)
             (if index_lags s then blocks s else blocks s ++ [created])
             (stale_tokens s) (reject_writes s) (index_lags s)
             (S (next_id s))).

Definition updateBlock (e : Event) (calendarId eventId : string) (s : State)
  : (exn + Event) * State :=
  if reject_writes s then (inl writeError, s)
  else
    (inr e,
     mkState (clock s) (feed s)
       (map (fun b => if String.eqb (id b) eventId then e else b) (blocks s))
       (stale_tokens s) (reject_writes s) (index_lags s) (next_id s)).

Definition removeBlock (calendarId eventId : string) (s : State)
  : (exn + unit) * State :=
  if reject_writes s then (inl writeError, s)
  else
    (inr tt,
     mkState (clock s) (feed s)
       (filter (fun b => id b ≠ eventId) (blocks s))
       (stale_tokens s) (reject_writes s) (index_lags s) (next_id s)).

(** Dates: [YYYY-MM-DD] and [YYYY-MM-DDThh:mm:ssZ], both in UTC. *)
Fixpoint number (s : string) (acc : Z) : option Z :=
  match s with
  | EmptyString => Some acc
  | String c s' =>
      if JS.is_digit c
      then number s' (10 * acc + Z.of_nat (nat_of_ascii c - 48))
      else None
  end.

Definition field (from len : nat) (s : string) : option Z :=
  number (String.substring from len s) 0.

Definition days_from_civil (y m d : Z) : Z :=
  let y' := if m <=? 2 then y - 1 else y in
  let era := y' / 400 in
  let yoe := y' - era * 400 in
  let mp := (m + 9) mod 12 in
  let doy := (153 * mp + 2) / 5 + d - 1 in
  let doe := yoe * 365 + yoe / 4 - yoe / 100 + doy in
  era * 146097 + doe - 719468.

Definition parse_day (s : string) : option Z :=
  y ← field 0 4 s; m ← field 5 2 s; d ← field 8 2 s;
  Some (days_from_civil y m d * ms_per_day).

Definition parse (s : string) : option Z :=
  if (String.length s =? 10)%nat then parse_day s
  else if (String.length s =? 20)%nat then
    day ← parse_day s;
    h ← field 11 2 s; mi ← field 14 2 s; se ← field 17 2 s;
    Some (day + ((h * 60 + mi) * 60 + se) * 1000)
  else None.

(** The script of this service runs in UTC. *)
#[global] Instance host : Host State := {
  Events_list := listEvents;
  Events_insert := insertBlock;
  Events_update := updateBlock;
  Events_remove := removeBlock;
  Date_now := fun s => (clock s, s);
  Date_parse := parse;
  LocalTZA := fun _ _ => 0
}.

Definition world (s : State) (tokens : option PropValue) : World State :=
  mkWorld s (match tokens with
             | Some v => {["syncTokens" := v]}
             | None => ∅
             end) [].

(** 2025-03-10T00:00:00Z *)
Definition march10 : Z := 1741564800000.

Definition timed (at_ : string) : option EventDateTime :=
  Some (mkEventDateTime (Some at_) None (Some "Europe/Paris")).

Definition allDay (day : string) : option EventDateTime :=
  Some (mkEventDateTime None (Some day) None).

Definition props : Config :=
  mkConfig "scheduler@example.com" "home@example.com" "blocker@example.com"
           "me@home.example" "me@work.example".

(** *** Scenarios *)

(** A service in good health on 10 March 2025, with the given feeds and
    blocks. *)
Definition calm (feeds : list (string * list Event)) (found : list Event)
  : State :=
  mkState march10 feeds found false false false 0.

(** A meeting on 12 March, already carrying the home address. *)
Definition meeting : Event :=
  mkEvent "eva" "confirmed" None
          (timed "2025-03-12T09:00:00+01:00") (timed "2025-03-12T10:00:00+01:00")
          None (Some ["me@home.example"]).

Definition meetingCancelled : Event :=
  mkEvent "eva" "cancelled" None None None None None.

(** The block of [meeting]. *)
Definition meetingBlock : Event :=
  mkEvent "blk7" "confirmed" (Some "eva")
          (timed "2025-03-12T09:00:00+01:00") (timed "2025-03-12T10:00:00+01:00")
          None (Some ["me@work.example"]).

(** An instance of the series [parent123] that starts at [at_]. *)
Definition instance (at_ : string) : Event :=
  mkEvent "parent123_20250601T090000Z" "confirmed" None
          (Some (mkEventDateTime (Some at_) None (Some "UTC")))
          (Some (mkEventDateTime (Some at_) None (Some "UTC")))
          None None.

(** The same instance as a change feed delivers it once cancelled: no
    start, no end. *)
Definition instanceCancelled : Event :=
  mkEvent "parent123_20250601T090000Z" "cancelled" None None None None None.

Definition seriesBlock : Event :=
  mkEvent "blk9" "confirmed" (Some "parent123")
          (timed "2025-03-02T09:00:00+01:00") (timed "2025-03-02T10:00:00+01:00")
          (Some ["RRULE:FREQ=WEEKLY"]) (Some ["me@work.example"]).

(** The world once the blocker calendar was searched for [eventId]. *)
Definition searched (eventId : string) (w : World State) : World State :=
  record_call (CList "blocker@example.com" (searchOptions eventId)) w.

Definition emptyState : LoopState := mkLoopState ∅ ∅.

(** The world of a run that finds the blocks [found] on the blocker
    calendar and has no sync token stored. *)
Definition blockerHolds (found : list Event) : World State :=
  world (calm [] found) None.

(** The world of a run in which only the home calendar has an event. *)
Definition homeOnly : World State :=
  world (calm [("home@example.com", [meeting])] []) None.

(** The world of a run in which only the scheduler calendar has an event. *)
Definition schedulerOnly : World State :=
  world (calm [("scheduler@example.com", [meeting])] []) None.

(** A service whose stored sync tokens are stale. *)
Definition staleService : State :=
  mkState march10 [("scheduler@example.com", [meeting])] [] true false false 0.

Definition storedTokens : gmap string string :=
  {["scheduler@example.com" := "token-0"]}.

(** A service that rejects every write. *)
Definition readOnlyService : State :=
  mkState march10 [] [] false true false 0.

(** A service whose search does not show new blocks yet, with the same
    meeting on both source calendars. *)
Definition laggingService : State :=
  mkState march10
    [("scheduler@example.com", [meeting]); ("home@example.com", [meeting])]
    [] false false true 0.

(** A block whose description only contains the id of [meeting]: a
    full-text search for [eva] returns it as well. *)
Definition lookalikeBlock : Event :=
  mkEvent "blk3" "confirmed" (Some "eva-old")
          (timed "2025-03-11T09:00:00+01:00") (timed "2025-03-11T10:00:00+01:00")
          None (Some ["me@work.example"]).

(** [meeting] moved to the afternoon. *)
Definition meetingMoved : Event :=
  mkEvent "eva" "confirmed" None
          (timed "2025-03-12T14:00:00+01:00") (timed "2025-03-12T15:00:00+01:00")
          None (Some ["me@home.example"]).

End Sim.

(** The same service with the change feed of one calendar out of order:
    a page request for the calendar [down] fails with a backend error. *)
Module Outage.

Record State := mkState {
  inner : Sim.State;
  down : string
}.

Definition backendError : exn :=
  mkExn "GoogleJsonResponseException"
    "API call to calendar.events.list failed with error: Backend Error".

Definition lift {A} (s : State) (r : A * Sim.State) : A * State :=
  (fst r, mkState (snd r) (down s)).

Definition listEvents (calendarId : string) (options : ListOptions) (s : State)
  : (exn + ListResult) * State :=
  match q options with
  | None =>
      if String.eqb calendarId (down s) then (inl backendError, s)
      else lift s (Sim.listEvents calendarId options (inner s))
  | Some _ => lift s (Sim.listEvents calendarId options (inner s))
  end.

#[global] Instance host : Host State := {
  Events_list := listEvents;
  Events_insert := fun b cal s => lift s (Sim.insertBlock b cal (inner s));
  Events_update := fun e cal eid s => lift s (Sim.updateBlock e cal eid (inner s));
  Events_remove := fun cal eid s => lift s (Sim.removeBlock cal eid (inner s));
  Date_now := fun s => (Sim.clock (inner s), s);
  Date_parse := Sim.parse;
  LocalTZA := fun _ _ => 0
}.

(** The home calendar is out of order, the scheduler calendar has the
    meeting, no token is stored. *)
Definition homeDown : World State :=
  mkWorld (mkState (Sim.calm [("scheduler@example.com", [Sim.meeting])] [])
                   "home@example.com") ∅ [].

End Outage.

(** The same service with the script in the time zone of New York, where
    in 2025 the clocks go from UTC-5 to UTC-4 on 9 March at 07:00 UTC and
    back on 2 November at 06:00 UTC. *)
Module Eastern.

Record State := mkState {
  inner : Sim.State
}.

(** 2025-03-09T07:00:00Z and 2025-11-02T06:00:00Z *)
Definition spring : Z := 1741503600000.
Definition autumn : Z := 1762063200000.

Definition standard : Z := -5 * ms_per_hour.
Definition daylight : Z := -4 * ms_per_hour.

(** A local time that the clock change of March skips, or that the change
    of November repeats, is read with the offset before the change. *)
Definition localTZA (t : Z) (isUTC : bool) : Z :=
  if isUTC then
    if (spring <=? t) && (t <? autumn) then daylight else standard
  else
    if t <? spring + daylight then standard
    else if t <? autumn + daylight then daylight
    else standard.

Definition lift {A} (r : A * Sim.State) : A * State :=
  (fst r, mkState (snd r)).

#[global] Instance host : Host State := {
  Events_list := fun cal options s => lift (Sim.listEvents cal options (inner s));
  Events_insert := fun b cal s => lift (Sim.insertBlock b cal (inner s));
  Events_update := fun e cal eid s => lift (Sim.updateBlock e cal eid (inner s));
  Events_remove := fun cal eid s => lift (Sim.removeBlock cal eid (inner s));
  Date_now := fun s => (Sim.clock (inner s), s);
  Date_parse := Sim.parse;
  LocalTZA := localTZA
}.

(** The instant a text of [Sim.parse] names (0 for any other text). *)
Definition instant (text : string) : Z := default 0 (Sim.parse text).

(** A run that starts at the instant [now], nothing on any calendar, no
    token stored. *)
Definition at_ (now : string) : World State :=
  mkWorld (mkState (Sim.mkState (instant now) [] [] false false false 0)) ∅ [].

End Eastern.

(* ===================================================================== *)
(** ** Properties *)
(* ===================================================================== *)

(** *** Strings and comparisons *)

Lemma strict_eq_true (a b : option string) : JS.strict_eq a b = true <-> a = b.
Proof.
  destruct a as [x|], b as [y|]; simpl; try (split; congruence).
  rewrite String.eqb_eq. split; congruence.
Qed.

Lemma substring_whole (s : string) :
  String.substring 0 (String.length s) s = s.
Proof. induction s; simpl; congruence. Qed.

Lemma append_cons (c : ascii) (s t : string) :
  String c s +:+ t = String c (s +:+ t).
Proof. reflexivity. Qed.

Lemma substring_split (s : string) (k : nat) :
  (k <= String.length s)%nat ->
  String.substring 0 k s +:+ String.substring k (String.length s - k) s = s.
Proof.
  revert k. induction s as [|c s IH]; intros [|k] Hk; simpl in Hk; try lia.
  - reflexivity.
  - change (String.substring 0 (String.length (String c s)) (String c s) = String c s).
    apply substring_whole.
  - simpl. rewrite append_cons. f_equal. apply IH. lia.
Qed.

Lemma strip_stamp_Some (s p : string) :
  JS.strip_stamp s = Some p ->
  exists stamp, s = p +:+ stamp /\ JS.is_stamp stamp = true.
Proof.
  unfold JS.strip_stamp. 
  destruct (17 <=? String.length s)%nat eqn:Hlen; simpl; [|discriminate].
  destruct (JS.is_stamp _) eqn:Hst; [|discriminate].
  intros [= <-]. eexists; split; [|exact Hst].
  apply Nat.leb_le in Hlen.
  rewrite <- (substring_split s (String.length s - 17)) at 1 by lia.
  do 2 f_equal. lia.
Qed.

Lemma areDatesEqual_spec (d1 d2 : option EventDateTime) :
  areDatesEqual d1 d2 = true <->
  (d1 = None /\ d2 = None) \/
  (exists a b, d1 = Some a /\ d2 = Some b /\
               dateTime a = dateTime b /\ timeZone a = timeZone b).
Proof.
  destruct d1 as [a|], d2 as [b|]; simpl.
  - rewrite andb_true_iff, !strict_eq_true. split.
    + intros [? ?]. right. exists a, b. auto.
    + intros [[? ?]|(a' & b' & [= ->] & [= ->] & ? & ?)]; [discriminate|auto].
  - split; [discriminate|]. intros [[? ?]|(a' & b' & ? & ? & _)]; discriminate.
  - split; [discriminate|]. intros [[? ?]|(a' & b' & ? & ? & _)]; discriminate.
  - split; auto.
Qed.

(** *** What each piece of the script does to the world *)

Section Properties.
Context {St : Type} `{HostSt : Host St}.

Lemma ext_refl (w : World St) : ext w w [].
Proof. split; [done | by rewrite app_nil_r]. Qed.

Lemma ext_trans (w1 w2 w3 : World St) t1 t2 :
  ext w1 w2 t1 -> ext w2 w3 t2 -> ext w1 w3 (t1 ++ t2).
Proof.
  intros [P1 T1] [P2 T2]. split; [congruence|].
  rewrite T2, T1. by rewrite app_assoc.
Qed.

Lemma deleteEvent_run calendarId eventId (w : World St) :
  exists s, deleteEvent calendarId eventId w
            = (Ok tt, mkWorld s (userProps w) (trace w ++ [CRemove calendarId eventId])).
Proof.
  unfold deleteEvent, try_catch, Calendar_Events_remove, host_call. simpl.
  destruct (Events_remove _ _ _) as [[e|[]] s]; simpl; eauto.
Qed.

Lemma updateEvent_run calendarId eventId event (w : World St) :
  exists s, updateEvent calendarId eventId event w
            = (Ok tt, mkWorld s (userProps w)
                        (trace w ++ [CUpdate calendarId eventId event])).
Proof.
  unfold updateEvent, try_catch, bind, Calendar_Events_update, host_call. simpl.
  destruct (Events_update _ _ _ _) as [[e|u] s]; simpl; eauto.
Qed.

Lemma createEvent_run calendarId block (w : World St) :
  exists created s, createEvent calendarId block w
            = (Ok created, mkWorld s (userProps w)
                        (trace w ++ [CInsert calendarId block])).
Proof.
  unfold createEvent, try_catch, bind, Calendar_Events_insert, host_call. simpl.
  destruct (Events_insert _ _ _) as [[e|u] s]; simpl; eauto.
Qed.

Lemma checkForBlockOnCalendar_run blockerCalId eventId cache (w : World St) r w' :
  checkForBlockOnCalendar blockerCalId eventId cache w = (r, w') ->
  (exists t, ext w w' t /\ (t = [] \/ t = [CList blockerCalId (searchOptions eventId)]))
  /\ r <> Diverge
  /\ (forall found cache', r = Ok (found, cache') ->
        cache' !! eventId = Some found /\
        (forall k, k <> eventId -> cache' !! k = cache !! k)).
Proof.
  unfold checkForBlockOnCalendar.
  destruct (cache !! eventId) as [cached|] eqn:Hc.
  - intros [= <- <-]. split; [exists []; split; [apply ext_refl|auto]|].
    split; [discriminate|]. intros ? ? [= <- <-]. auto.
  - unfold bind, Calendar_Events_list, host_call. simpl.
    destruct (Events_list _ _ _) as [[e|blocks] s]; simpl.
    + intros [= <- <-]. split; [eexists; split; [split; simpl; eauto|auto]|].
      split; [discriminate|]. intros ? ? [=].
    + destruct (List.find _ _) as [b|]; intros [= <- <-];
      (split; [eexists; split; [split; simpl; eauto|auto]|]);
      (split; [discriminate|]); intros ? ? [= <- <-];
      (split; [apply lookup_insert_eq| intros; by apply lookup_insert_ne]).
Qed.


Lemma creations_app eid t1 t2 :
  creations eid (t1 ++ t2) = (creations eid t1 + creations eid t2)%nat.
Proof. unfold creations. by rewrite List.filter_app, length_app. Qed.

Lemma writes_app t1 t2 : writes (t1 ++ t2) = writes t1 ++ writes t2.
Proof. apply List.filter_app. Qed.

Lemma creations_no_write eid t : writes t = [] -> creations eid t = 0%nat.
Proof.
  unfold creations, writes. induction t as [|c t IH]; simpl; [done|].
  destruct c; simpl; try discriminate; auto.
Qed.

Lemma addAttendee_run sourceCalId homeEmail addAttendees event (w : World St) :
  exists event' w' t,
    addAttendee sourceCalId homeEmail addAttendees event w = (Ok event', w')
    /\ ext w w' t
    /\ (t = [] \/ t = [CUpdate sourceCalId (id event) event'])
    /\ id event' = id event /\ status event' = status event
    /\ start event' = start event /\ end_ event' = end_ event
    /\ recurrence event' = recurrence event.
Proof.
  unfold addAttendee.
  destruct (addAttendees && negb (is_cancelled event)).
  2: { exists event, w, []. split; [done|]. split; [apply ext_refl|]. auto 10. }
  destruct (attendees event) as [[|a l]|].
  1,3: destruct (updateEvent_run sourceCalId (id event) (withAttendees event [homeEmail]) w) as [s Hs];
       unfold bind; simpl; rewrite Hs; do 3 eexists; split; [reflexivity|];
       split; [split; simpl; eauto|]; simpl; auto 10.
  destruct (negb _).
  - destruct (updateEvent_run sourceCalId (id event) (withAttendees event ((a :: l) ++ [homeEmail])) w) as [s Hs];
       unfold bind; simpl; simpl in Hs; rewrite Hs; do 3 eexists; split; [reflexivity|];
       split; [split; simpl; eauto|]; simpl; auto 10.
  - exists event, w, []. split; [done|]. split; [apply ext_refl|]. auto 10.
Qed.

Lemma resolveRecurrence_run blockerCalId event cache (w : World St) r w' :
  resolveRecurrence blockerCalId event cache w = (r, w') ->
  (exists t, ext w w' t
     /\ (t = [] \/ t = [CList blockerCalId (searchOptions (parentEventId (id event)))]))
  /\ r <> Diverge.
Proof.
  unfold resolveRecurrence.
  destruct (isRecurringInstance (id event)).
  2: { intros [= <- <-]. split; [|done]. exists []. split; [apply ext_refl|auto]. }
  unfold bind.
  destruct (checkForBlockOnCalendar _ _ _ _) as [r1 w1] eqn:Hl.
  apply checkForBlockOnCalendar_run in Hl as ((t & Hext & Ht) & Hd & _).
  destruct r1 as [[[pb|] c1]|e|]; try done.
  - intros [= <- <-]. split; [eauto|done].
  - unfold new_Date. destruct (Date_now (host w1)) as [today s] eqn:Hnow.
    assert (Hext' : ext w (with_host s w1) t) by (destruct Hext; split; simpl; auto).
    destruct (start event) as [eventStart|].
    + destruct (beyondHorizon _); intros [= <- <-]; (split; [eauto|done]).
    + intros [= <- <-]. split; [eauto|done].
  - intros [= <- <-]. split; [eauto|done].
Qed.


Lemma tracked_elem (T : gset string) eid : eid ∈ T -> tracked T eid = true.
Proof. intros. unfold tracked. rewrite bool_decide_eq_true_2; auto. Qed.

Lemma tracked_mono (T T' : gset string) eid :
  T ⊆ T' -> tracked T eid = true -> tracked T' eid = true.
Proof.
  unfold tracked. intros Hsub [Hin|Hp]%orb_true_iff; apply orb_true_iff.
  - left. apply bool_decide_eq_true. apply bool_decide_eq_true in Hin. auto.
  - by right.
Qed.

Lemma tracks_quiet (T : gset string) t T' :
  (forall eid, creations eid t = 0%nat) ->
  (forall T1, T' = Some T1 -> T ⊆ T1) -> tracks T t T'.
Proof.
  intros Hw Hsub. split.
  - intros eid. rewrite Hw. lia.
  - intros T1 HT1. split; [auto|]. intros eid. by rewrite Hw.
Qed.

Lemma tracks_seq (T T1 : gset string) t1 t2 T' :
  tracks T t1 (Some T1) -> tracks T1 t2 T' -> tracks T (t1 ++ t2) T'.
Proof.
  intros [B1 R1] [B2 R2]. destruct (R1 T1 eq_refl) as [Hsub Hin]. split.
  - intros eid. rewrite creations_app. specialize (B1 eid). specialize (B2 eid).
    destruct (tracked T eid) eqn:HT.
    + rewrite (tracked_mono T T1) in B2 by done. lia.
    + destruct (Nat.eq_dec (creations eid t1) 0) as [E|E]; [destruct (tracked T1 eid); lia|].
      rewrite (tracked_elem T1) in B2 by auto. lia.
  - intros T2 HT2. destruct (R2 T2 HT2) as [Hsub2 Hin2]. split; [by etrans|].
    intros eid. rewrite creations_app. intros Hne.
    destruct (Nat.eq_dec (creations eid t1) 0) as [E|E].
    + apply Hin2. lia.
    + apply Hsub2. auto.
Qed.

Lemma reconcileEvent_run blockerCalId sourceCalId workEmail event st
    (w : World St) r w' :
  reconcileEvent blockerCalId workEmail event st w = (r, w') ->
  exists t, ext w w' t
    /\ Forall (reconcile_call blockerCalId sourceCalId) t
    /\ r <> Diverge
    /\ tracks (crossCalendarBlockTracker st) t
               (returned crossCalendarBlockTracker r).
Proof.
  unfold reconcileEvent, bind.
  destruct (checkForBlockOnCalendar _ _ _ _) as [r1 w1] eqn:Hl.
  apply checkForBlockOnCalendar_run in Hl as ((t & Hext & Ht) & Hd & _).
  assert (Hrc : Forall (reconcile_call blockerCalId sourceCalId) t).
  { destruct Ht as [-> | ->]; repeat constructor. simpl. eauto. }
  assert (Hq : forall eid, creations eid t = 0%nat)
    by (by destruct Ht as [-> | ->]).
  destruct r1 as [[found cache]|e|]; try done.
  2: { intros [= <- <-]. exists t. do 3 (split; [done|]).
       by apply tracks_quiet. }
  destruct found as [matchingBlock|].
  - destruct (is_cancelled event).
    + destruct (deleteEvent_run blockerCalId (id matchingBlock) w1) as [s ->].
      intros [= <- <-]. exists (t ++ [CRemove blockerCalId (id matchingBlock)]).
      split; [eapply ext_trans; [done|by split]|].
      split; [apply Forall_app; split; [done|by repeat constructor]|].
      split; [done|]. apply tracks_quiet; [|by intros ? [= <-]].
      intros eid. by rewrite creations_app, Hq.
    + destruct (_ || _).
      * destruct (updateEvent_run blockerCalId (id (overwriteBlock matchingBlock event))
                    (overwriteBlock matchingBlock event) w1) as [s ->].
        intros [= <- <-]. eexists (t ++ [_]).
        split; [eapply ext_trans; [done|by split]|].
        split; [apply Forall_app; split; [done|repeat constructor; by left]|].
        split; [done|]. apply tracks_quiet; [|by intros ? [= <-]].
        intros eid. by rewrite creations_app, Hq.
      * intros [= <- <-]. exists t. do 3 (split; [done|]).
        apply tracks_quiet; [done|by intros ? [= <-]].
  - destruct (negb (is_cancelled event)).
    2: { intros [= <- <-]. exists t. do 3 (split; [done|]).
         apply tracks_quiet; [done|by intros ? [= <-]]. }
    destruct (tracked _ _) eqn:Htr.
    { intros [= <- <-]. exists t. do 3 (split; [done|]).
      apply tracks_quiet; [done|by intros ? [= <-]]. }
    destruct (createEvent_run blockerCalId (newBlock workEmail event) w1)
      as (created & s & ->).
    set (T' := {[id event]} ∪ crossCalendarBlockTracker st).
    assert (Hcr : forall eid,
      creations eid (t ++ [CInsert blockerCalId (newBlock workEmail event)])
      = if String.eqb (id event) eid then 1%nat else 0%nat).
    { intros eid. rewrite creations_app, Hq.
      unfold creations. simpl. by destruct (String.eqb _ _). }
    assert (Htk :
      tracks (crossCalendarBlockTracker st)
        (t ++ [CInsert blockerCalId (newBlock workEmail event)]) (Some T')).
    { split.
      - intros eid. rewrite Hcr. destruct (String.eqb_spec (id event) eid) as [<-|].
        + rewrite Htr. lia.
        + destruct (tracked _ _); lia.
      - intros ? [= <-]. split; [apply union_subseteq_r|].
        intros eid. rewrite Hcr. destruct (String.eqb_spec (id event) eid) as [<-|]; [|done].
        intros _. apply elem_of_union_l. by apply elem_of_singleton. }
    destruct created as [block|]; intros [= <- <-];
      (eexists (t ++ [_]);
       split; [eapply ext_trans; [done|by split]|];
       split; [apply Forall_app; split; [done|by repeat constructor]|];
       split; [done|]; apply Htk).
Qed.

Lemma processEvent_run sourceCalId blockerCalId homeEmail workEmail
    addAttendees event st (w : World St) r w' :
  processEvent sourceCalId blockerCalId homeEmail workEmail addAttendees
    event st w = (r, w') ->
  exists t, ext w w' t
    /\ Forall (reconcile_call blockerCalId sourceCalId) t
    /\ r <> Diverge
    /\ tracks (crossCalendarBlockTracker st) t
               (returned crossCalendarBlockTracker r).
Proof.
  unfold processEvent, forwardEvent, bind.
  destruct (resolveRecurrence _ _ _ _) as [r0 w0] eqn:H0.
  apply resolveRecurrence_run in H0 as ((t0 & Hext0 & Ht0) & Hd0).
  assert (Hrc0 : Forall (reconcile_call blockerCalId sourceCalId) t0).
  { destruct Ht0 as [-> | ->]; repeat constructor. simpl. eauto. }
  assert (Hq0 : forall eid, creations eid t0 = 0%nat)
    by (by destruct Ht0 as [-> | ->]).
  destruct r0 as [[[|] cache]|e|]; try done.
  - intros [= <- <-]. exists t0. do 3 (split; [done|]).
    apply tracks_quiet; [done|by intros ? [= <-]].
  - destruct (addAttendee_run sourceCalId homeEmail addAttendees event w0)
      as (event' & w1 & t1 & -> & Hext1 & Ht1 & _).
    assert (Hrc1 : Forall (reconcile_call blockerCalId sourceCalId) t1).
    { destruct Ht1 as [-> | ->]; [constructor|].
      constructor; [by right|constructor]. }
    assert (Hq1 : forall eid, creations eid t1 = 0%nat)
      by (by destruct Ht1 as [-> | ->]).
    intros (t2 & Hext2 & Hrc2 & Hd2 & Htk2)%(reconcileEvent_run _ sourceCalId).
    exists (t0 ++ t1 ++ t2).
    split; [eapply ext_trans; [done|by eapply ext_trans]|].
    split; [by repeat (apply Forall_app; split)|].
    split; [done|]. simpl in Htk2.
    eapply tracks_seq; [apply tracks_quiet; [done|by intros ? [= <-]]|].
    eapply tracks_seq; [apply tracks_quiet; [done|by intros ? [= <-]]|]. done.
  - intros [= <- <-]. exists t0. do 3 (split; [done|]). by apply tracks_quiet.
Qed.

Lemma processEvents_run sourceCalId blockerCalId homeEmail workEmail
    addAttendees events st (w : World St) r w' :
  processEvents sourceCalId blockerCalId homeEmail workEmail addAttendees
    events st w = (r, w') ->
  exists t, ext w w' t
    /\ Forall (reconcile_call blockerCalId sourceCalId) t
    /\ r <> Diverge
    /\ tracks (crossCalendarBlockTracker st) t
               (returned crossCalendarBlockTracker r).
Proof.
  revert st w. induction events as [|event rest IH]; intros st w; simpl.
  - intros [= <- <-]. exists []. split; [apply ext_refl|]. split; [constructor|].
    split; [done|]. apply tracks_quiet; [done|by intros ? [= <-]].
  - unfold bind.
    destruct (processEvent _ _ _ _ _ _ _ _) as [r1 w1] eqn:H1.
    apply processEvent_run in H1 as (t1 & Hext1 & Hrc1 & Hd1 & Htk1).
    destruct r1 as [st1|e|]; try done.
    + intros (t2 & Hext2 & Hrc2 & Hd2 & Htk2)%IH.
      exists (t1 ++ t2). split; [by eapply ext_trans|].
      split; [by apply Forall_app|]. split; [done|]. by eapply tracks_seq.
    + intros [= <- <-]. exists t1. do 3 (split; [done|]).
      split; [apply Htk1|done].
Qed.

Lemma processCalendar_run sourceCalId blockerCalId homeEmail workEmail
    addAttendees dryRun T events (w : World St) r w' :
  processCalendar sourceCalId blockerCalId homeEmail workEmail addAttendees
    dryRun T events w = (r, w') ->
  exists t, ext w w' t
    /\ Forall (reconcile_call blockerCalId sourceCalId) t
    /\ r <> Diverge
    /\ tracks T t (returned (fun T' => T') r).
Proof.
  unfold processCalendar. destruct dryRun.
  - intros [= <- <-]. exists []. split; [apply ext_refl|]. split; [constructor|].
    split; [done|]. apply tracks_quiet; [done|by intros ? [= <-]].
  - unfold bind.
    destruct (processEvents _ _ _ _ _ _ _ _) as [r1 w1] eqn:H1.
    apply processEvents_run in H1 as (t1 & Hext1 & Hrc1 & Hd1 & Htk1).
    destruct r1 as [st1|e|]; try done; intros [= <- <-]; exists t1;
      do 3 (split; [done|]); done.
Qed.

(** *** The fetchers only talk about their own calendar *)

Lemma fetch_call_quiet calendarId t :
  Forall (fetch_call calendarId) t ->
  writes t = [] /\ forall eid, creations eid t = 0%nat.
Proof.
  induction 1 as [|c t Hc _ [IHw IHc]]; [done|].
  destruct c; simpl in Hc; try done; split; auto.
Qed.

Lemma tokenPages_run fuel calendarId options pageToken0 evts (w : World St) r w' :
  q options = None ->
  tokenPages fuel calendarId options pageToken0 evts w = (r, w') ->
  (exists t, ext w w' t /\ Forall (fetch_call calendarId) t)
  /\ forall e, r <> Throw e.
Proof.
  intros Hq. revert pageToken0 evts w.
  induction fuel as [|fuel IH]; intros pageToken0 evts w; simpl.
  - intros [= <- <-]. split; [|done]. exists []. split; [apply ext_refl|constructor].
  - unfold bind, try_catch, Calendar_Events_list, host_call. simpl.
    destruct (Events_list _ _ _) as [[e|events] s]; simpl.
    + intros [= <- <-]. split; [|done]. eexists. split; [by split|].
      by repeat constructor.
    + destruct (JS.truthy (nextPageToken events)) as [next|].
      * intros [(t & Hext & Hf) Hr]%IH. split; [|done].
        eexists (_ :: t). split.
        -- eapply (ext_trans _ _ _ [_]); [|done]. by split.
        -- constructor; [by split|done].
      * intros [= <- <-]. split; [|done]. eexists. split; [by split|].
        by repeat constructor.
Qed.

Lemma windowPages_run fuel calendarId options pageToken0 evts (w : World St) r w' :
  q options = None ->
  windowPages fuel calendarId options pageToken0 evts w = (r, w') ->
  exists t, ext w w' t /\ Forall (fetch_call calendarId) t.
Proof.
  intros Hq. revert pageToken0 evts w.
  induction fuel as [|fuel IH]; intros pageToken0 evts w; simpl.
  - intros [= <- <-]. exists []. split; [apply ext_refl|constructor].
  - unfold bind, try_catch, Calendar_Events_list, host_call, throw. simpl.
    destruct (Events_list _ _ _) as [[e|events] s]; simpl.
    + intros [= <- <-]. eexists. split; [by split|]. by repeat constructor.
    + destruct (JS.truthy (nextPageToken events)) as [next|].
      * intros (t & Hext & Hf)%IH. eexists (_ :: t). split.
        -- eapply (ext_trans _ _ _ [_]); [|done]. by split.
        -- constructor; [by split|done].
      * intros [= <- <-]. eexists. split; [by split|]. by repeat constructor.
Qed.

Lemma tokenOptions_run calendarId fullSync syncTokens (w : World St) :
  exists options s,
    tokenOptions calendarId fullSync syncTokens w = (Ok options, with_host s w)
    /\ q options = None.
Proof.
  unfold tokenOptions.
  destruct (if fullSync then None else _) as [token|].
  - exists (incrementalOptions token), (host w). by destruct w.
  - unfold bind, getRelativeDate, bind, new_Date, ret.
    destruct (Date_now (host w)) as [today s]. by eexists _, _.
Qed.

Lemma storeNextToken_run calendarId syncTokens evts events (w : World St) :
  exists t w', storeNextToken calendarId syncTokens evts events w = (Ok evts, w')
    /\ trace w' = trace w ++ t /\ Forall (fetch_call calendarId) t.
Proof.
  unfold storeNextToken. destruct (JS.truthy _) as [token|].
  - eexists [_], _. split; [reflexivity|]. split; [done|]. by repeat constructor.
  - exists [], w. split; [done|]. split; [by rewrite app_nil_r|constructor].
Qed.

Lemma fetchEventsByToken_run fuel calendarId fullSync (w : World St) r w' :
  fetchEventsByToken fuel calendarId fullSync w = (r, w') ->
  exists t, trace w' = trace w ++ t /\ Forall (fetch_call calendarId) t.
Proof.
  revert fullSync w. induction fuel as [|fuel IH]; intros fullSync w; simpl.
  - intros [= <- <-]. exists []. split; [by rewrite app_nil_r|constructor].
  - unfold bind at 1. unfold loadSyncTokens, bind at 1, getProperty, ret at 1.
    set (syncTokens := match userProps w !! "syncTokens" with
                       | Some (PTokens m) => m | _ => ∅ end).
    unfold bind at 1.
    destruct (tokenOptions_run calendarId fullSync syncTokens w)
      as (options & s & -> & Hq).
    unfold bind at 1.
    destruct (tokenPages _ _ _ _ _ _) as [r1 w1] eqn:Hp.
    apply tokenPages_run in Hp as [(t1 & [_ Ht1] & Hf1) Hr1]; [|done].
    simpl in Ht1.
    destruct r1 as [[e|[evts events]]|e|]; try (by destruct (Hr1 e)).
    + destruct (JS.includes _ _).
      * unfold bind, setProperty. simpl.
        intros (t2 & Ht2 & Hf2)%IH. simpl in Ht2.
        eexists (t1 ++ [_] ++ t2). split.
        -- rewrite Ht2, Ht1. by rewrite <- !app_assoc.
        -- apply Forall_app; split; [done|]. by constructor.
      * intros [= <- <-]. by exists t1.
    + destruct (storeNextToken_run calendarId syncTokens evts events w1)
        as (t2 & w2 & -> & Ht2 & Hf2).
      intros [= <- <-]. exists (t1 ++ t2). split.
      * rewrite Ht2, Ht1. by rewrite <- app_assoc.
      * by apply Forall_app.
    + intros [= <- <-]. by exists t1.
Qed.

Lemma fetchEventsByTimeWindow_run fuel calendarId startDate endDate
    (w : World St) r w' :
  fetchEventsByTimeWindow fuel calendarId startDate endDate w = (r, w') ->
  exists t, trace w' = trace w ++ t /\ Forall (fetch_call calendarId) t.
Proof.
  intros (t & [_ Ht] & Hf)%windowPages_run; [|done]. by exists t.
Qed.

(** *** A whole run *)

Lemma issued_app (w w' : World St) t : trace w' = trace w ++ t -> issued w w' = t.
Proof. intros H. unfold issued. rewrite H. apply drop_app_length. Qed.

(** The second half of both entry points: the two calendars are
    reconciled one after the other with one tracker, empty at first. *)
Lemma reconcile_both_run (props : Config) schedulerEvents homeEvents
    (w : World St) r w' :
  (tracker1 <- processCalendar (schedulerCal props) (blockerCal props)
                 (homeEmail props) (workEmail props) true false
                 ∅ schedulerEvents ;;
   processCalendar (homeCal props) (blockerCal props)
     (homeEmail props) (workEmail props) false false
     tracker1 homeEvents ;;;
   ret tt) w = (r, w') ->
  exists p1 p2, trace w' = trace w ++ p1 ++ p2
    /\ Forall (reconcile_call (blockerCal props) (schedulerCal props)) p1
    /\ Forall (reconcile_call (blockerCal props) (homeCal props)) p2
    /\ forall eid, (creations eid (p1 ++ p2) <= 1)%nat.
Proof.
  unfold bind.
  destruct (processCalendar _ _ _ _ true _ _ _ _) as [r1 w1] eqn:H1.
  apply processCalendar_run in H1 as (p1 & [_ Ht1] & Hrc1 & _ & Htk1).
  assert (Hb : forall t T', tracks ∅ t T' -> forall eid, (creations eid t <= 1)%nat).
  { intros t T' [Hle _] eid. specialize (Hle eid). destruct (tracked _ _); lia. }
  destruct r1 as [tracker1|e|].
  - destruct (processCalendar _ _ _ _ false _ _ _ _) as [r2 w2] eqn:H2.
    apply processCalendar_run in H2 as (p2 & [_ Ht2] & Hrc2 & _ & Htk2).
    intros Hr. assert (w' = w2) as -> by (destruct r2; by injection Hr).
    exists p1, p2. split; [|split; [done|split; [done|]]].
    + rewrite Ht2, Ht1. by rewrite app_assoc.
    + eapply Hb, tracks_seq; [apply Htk1|apply Htk2].
  - intros [= <- <-]. exists p1, []. rewrite app_nil_r.
    split; [done|]. split; [done|]. split; [constructor|]. by eapply Hb.
  - intros [= <- <-]. exists p1, []. rewrite app_nil_r.
    split; [done|]. split; [done|]. split; [constructor|]. by eapply Hb.
Qed.

Lemma run_shape_of f1 f2 p1 p2 (props : Config) (w w' : World St) :
  trace w' = ((trace w ++ f1) ++ f2) ++ p1 ++ p2 ->
  Forall (fetch_call (schedulerCal props)) f1 ->
  Forall (fetch_call (homeCal props)) f2 ->
  Forall (reconcile_call (blockerCal props) (schedulerCal props)) p1 ->
  Forall (reconcile_call (blockerCal props) (homeCal props)) p2 ->
  (forall eid, (creations eid (p1 ++ p2) <= 1)%nat) ->
  fetched_then_reconciled props (issued w w')
  /\ forall eid, (creations eid (issued w w') <= 1)%nat.
Proof.
  intros Ht Hf1 Hf2 Hp1 Hp2 Hc.
  rewrite (issued_app w w' (f1 ++ f2 ++ p1 ++ p2))
    by (rewrite Ht; by rewrite <- !app_assoc).
  split; [by exists f1, f2, p1, p2|].
  intros eid. rewrite !creations_app.
  destruct (fetch_call_quiet _ _ Hf1) as [_ ->].
  destruct (fetch_call_quiet _ _ Hf2) as [_ ->].
  rewrite <- creations_app. apply Hc.
Qed.

Lemma reactiveEntryPoint_run fuel (props : Config) (w : World St) r w' :
  reactiveEntryPoint fuel props w = (r, w') ->
  fetched_then_reconciled props (issued w w')
  /\ forall eid, (creations eid (issued w w') <= 1)%nat.
Proof.
  unfold reactiveEntryPoint. unfold bind at 1.
  destruct (fetchEventsByToken fuel (schedulerCal props) false w)
    as [r1 w1] eqn:H1.
  apply fetchEventsByToken_run in H1 as (f1 & Ht1 & Hf1).
  assert (Hstop1 : fetched_then_reconciled props (issued w w1)
                   /\ forall eid, (creations eid (issued w w1) <= 1)%nat).
  { apply (run_shape_of f1 [] [] []); try done; try constructor.
    all: try (by rewrite ?app_nil_r; rewrite ?Ht1).
    all: intros; unfold creations; simpl; lia. }
  destruct r1 as [schedulerEvents|e|]; try (by intros [= <- <-]).
  unfold bind at 1.
  destruct (fetchEventsByToken fuel (homeCal props) false w1)
    as [r2 w2] eqn:H2.
  apply fetchEventsByToken_run in H2 as (f2 & Ht2 & Hf2).
  assert (Hstop2 : fetched_then_reconciled props (issued w w2)
                   /\ forall eid, (creations eid (issued w w2) <= 1)%nat).
  { apply (run_shape_of f1 f2 [] []); try done; try constructor.
    all: try (by rewrite ?app_nil_r; rewrite ?Ht2, ?Ht1).
    all: intros; unfold creations; simpl; lia. }
  destruct r2 as [homeEvents|e|]; try (by intros [= <- <-]).
  intros (p1 & p2 & Ht3 & Hp1 & Hp2 & Hc)%reconcile_both_run.
  apply (run_shape_of f1 f2 p1 p2 props w w'); try done.
  by rewrite Ht3, Ht2, Ht1.
Qed.

Lemma proactiveEntryPoint_run fuel (props : Config) (w : World St) r w' :
  proactiveEntryPoint fuel props w = (r, w') ->
  fetched_then_reconciled props (issued w w')
  /\ forall eid, (creations eid (issued w w') <= 1)%nat.
Proof.
  unfold proactiveEntryPoint. unfold bind at 1, new_Date.
  destruct (Date_now (host w)) as [today s].
  set (w0 := with_host s w).
  assert (H0 : trace w0 = trace w) by done.
  unfold bind at 1.
  destruct (fetchEventsByTimeWindow fuel (schedulerCal props) _ _ w0)
    as [r1 w1] eqn:H1.
  apply fetchEventsByTimeWindow_run in H1 as (f1 & Ht1 & Hf1).
  rewrite H0 in Ht1.
  assert (Hstop1 : fetched_then_reconciled props (issued w w1)
                   /\ forall eid, (creations eid (issued w w1) <= 1)%nat).
  { apply (run_shape_of f1 [] [] []); try done; try constructor.
    all: try (by rewrite ?app_nil_r; rewrite ?Ht1).
    all: intros; unfold creations; simpl; lia. }
  destruct r1 as [schedulerEvents|e|]; try (by intros [= <- <-]).
  unfold bind at 1.
  destruct (fetchEventsByTimeWindow fuel (homeCal props) _ _ w1)
    as [r2 w2] eqn:H2.
  apply fetchEventsByTimeWindow_run in H2 as (f2 & Ht2 & Hf2).
  assert (Hstop2 : fetched_then_reconciled props (issued w w2)
                   /\ forall eid, (creations eid (issued w w2) <= 1)%nat).
  { apply (run_shape_of f1 f2 [] []); try done; try constructor.
    all: try (by rewrite ?app_nil_r; rewrite ?Ht2, ?Ht1).
    all: intros; unfold creations; simpl; lia. }
  destruct r2 as [homeEvents|e|]; try (by intros [= <- <-]).
  intros (p1 & p2 & Ht3 & Hp1 & Hp2 & Hc)%reconcile_both_run.
  apply (run_shape_of f1 f2 p1 p2 props w w'); try done.
  by rewrite Ht3, Ht2, Ht1.
Qed.

(** *** The tracker: at most one creation per event id *)

(** C1. In a run of either entry point, and for every source-event id, at
    most one create operation is issued, also when both source calendars
    deliver the id. The tracker is what ensures it: in a pass of
    [processCalendar] that starts with the tracker [T], no block is created
    for an id [T] holds and at most one for any other id, and every id a
    create was dispatched for (whether the service accepted it or not) is
    in the tracker the pass hands to the next one. *)
Theorem at_most_one_creation fuel (props : Config) (w : World St) :
  (forall eid,
     (creations eid (issued w (reactiveEntryPoint fuel props w).2) <= 1)%nat)
  /\ (forall eid,
     (creations eid (issued w (proactiveEntryPoint fuel props w).2) <= 1)%nat)
  /\ (forall sourceCalId blockerCalId homeEmail workEmail addAttendees T events,
        tracks T
          (issued w (processCalendar sourceCalId blockerCalId homeEmail
                       workEmail addAttendees false T events w).2)
          (returned (fun T' => T')
             (processCalendar sourceCalId blockerCalId homeEmail
                workEmail addAttendees false T events w).1)).
Proof.
  split; [|split].
  - intros eid. destruct (reactiveEntryPoint fuel props w) as [r w'] eqn:Hrun.
    by apply reactiveEntryPoint_run in Hrun as [_ Hc].
  - intros eid. destruct (proactiveEntryPoint fuel props w) as [r w'] eqn:Hrun.
    by apply proactiveEntryPoint_run in Hrun as [_ Hc].
  - intros. destruct (processCalendar _ _ _ _ _ _ _ _ _) as [r w'] eqn:Hrun.
    apply processCalendar_run in Hrun as (t & [_ Ht] & _ & _ & Htk).
    simpl. by rewrite (issued_app _ _ _ Ht).
Qed.

(** *** The order of a run *)

(** A call belongs to a fetch or to a reconciliation, never to both. *)
Lemma fetch_call_not_reconcile calendarId blockerCalId sourceCalId c :
  fetch_call calendarId c -> ~ reconcile_call blockerCalId sourceCalId c.
Proof.
  destruct c as [cal options| | | |key value]; simpl; try done.
  - intros [_ Hq] [_ [x Hx]]. congruence.
  - by intros _ [].
Qed.

(** Both entry points are the same sequence of four calls, with their own
    fetcher: its phases are those of the four calls, in that order. *)
Lemma orchestration_in_phases (fetch : string -> M St (list Event))
    (props : Config) (w : World St) :
  (forall calendarId w0 r w0', fetch calendarId w0 = (r, w0') ->
     exists t, trace w0' = trace w0 ++ t /\ Forall (fetch_call calendarId) t) ->
  in_phases props (phases fetch props w) w
    ((schedulerEvents <- fetch (schedulerCal props) ;;
      homeEvents <- fetch (homeCal props) ;;
      tracker1 <- processCalendar (schedulerCal props) (blockerCal props)
                    (homeEmail props) (workEmail props) true false
                    ∅ schedulerEvents ;;
      processCalendar (homeCal props) (blockerCal props)
        (homeEmail props) (workEmail props) false false
        tracker1 homeEvents ;;;
      ret tt) w).2.
Proof.
  intros Hfetch. unfold phases, in_phases. unfold bind at 1.
  destruct (fetch (schedulerCal props) w) as [r1 w1] eqn:H1.
  destruct (Hfetch _ _ _ _ H1) as (f1 & Ht1 & Hf1).
  rewrite (issued_app _ _ _ Ht1).
  destruct r1 as [schedulerEvents|e|];
    cbn [fetchScheduler fetchHome reconcileScheduler reconcileHome snd].
  2,3: rewrite !app_nil_r; repeat split; (done || constructor).
  unfold bind at 1.
  destruct (fetch (homeCal props) w1) as [r2 w2] eqn:H2.
  destruct (Hfetch _ _ _ _ H2) as (f2 & Ht2 & Hf2).
  rewrite (issued_app _ _ _ Ht2).
  assert (Ht02 : trace w2 = trace w ++ f1 ++ f2)
    by (rewrite Ht2, Ht1; by rewrite <- !app_assoc).
  destruct r2 as [homeEvents|e|];
    cbn [fetchScheduler fetchHome reconcileScheduler reconcileHome snd].
  2,3: rewrite !app_nil_r; repeat split; (done || constructor).
  unfold bind at 1.
  destruct (processCalendar _ _ _ _ true _ _ _ _) as [r3 w3] eqn:H3.
  pose proof H3 as (p1 & [_ Ht3] & Hrc1 & _)%processCalendar_run.
  rewrite (issued_app _ _ _ Ht3).
  assert (Ht03 : trace w3 = trace w ++ f1 ++ f2 ++ p1)
    by (rewrite Ht3, Ht02; by rewrite <- !app_assoc).
  destruct r3 as [tracker1|e|];
    cbn [fetchScheduler fetchHome reconcileScheduler reconcileHome snd].
  2,3: rewrite !app_nil_r; repeat split; (done || constructor).
  unfold bind.
  destruct (processCalendar _ _ _ _ false _ _ _ _) as [r4 w4] eqn:H4.
  pose proof H4 as (p2 & [_ Ht4] & Hrc2 & _)%processCalendar_run.
  rewrite (issued_app _ _ _ Ht4).
  assert ((match r4 with
           | Ok _ => ret (St:=St) tt w4
           | Throw e => (Throw e, w4)
           | Diverge => (Diverge, w4)
           end).2 = w4) as -> by (by destruct r4).
  repeat split; try done.
  rewrite Ht4, Ht03. by rewrite <- !app_assoc.
Qed.

(** C2, as the script has it. A run of either entry point goes through
    four phases, in this order: the scheduler calendar is fetched; the
    home calendar is fetched, from the world the first fetch left; the
    scheduler events are reconciled by one pass of [processCalendar], from
    the world the second fetch left and with an empty tracker; the home
    events are reconciled by a second pass, from the world the first pass
    left and with its tracker. What the run issues is what these four
    calls issue, one after the other, and each phase only makes calls of
    its own kind: page requests and token storage for its calendar in a
    fetch, searches of the blocker calendar and writes in a pass. So both
    fetches are complete before the first event is reconciled, and the
    second fetch does not wait for the first reconciliation. *)
Theorem fetches_precede_reconciliation fuel (props : Config) (w : World St) :
  in_phases props
    (phases (fun calendarId => fetchEventsByToken fuel calendarId false)
       props w)
    w (reactiveEntryPoint fuel props w).2
  /\ (let '(today, s) := Date_now (host w) in
      in_phases props
        (phases (fun calendarId =>
                   fetchEventsByTimeWindow fuel calendarId today
                     (addLocalDays today 90))
           props (with_host s w))
        w (proactiveEntryPoint fuel props w).2)
  /\ fetched_then_reconciled props
       (issued w (reactiveEntryPoint fuel props w).2)
  /\ fetched_then_reconciled props
       (issued w (proactiveEntryPoint fuel props w).2).
Proof.
  split; [|split; [|split]].
  - apply (orchestration_in_phases
             (fun calendarId => fetchEventsByToken fuel calendarId false)).
    intros calendarId w0 r w0'. apply fetchEventsByToken_run.
  - destruct (Date_now (host w)) as [today s] eqn:Hnow.
    pose proof (orchestration_in_phases
             (fun calendarId => fetchEventsByTimeWindow fuel calendarId today
                                  (addLocalDays today 90))
             props (with_host s w)) as Hph.
    unfold proactiveEntryPoint. unfold bind at 1, new_Date. rewrite Hnow.
    apply Hph.
    intros calendarId w0 r w0'. apply fetchEventsByTimeWindow_run.
  - destruct (reactiveEntryPoint fuel props w) as [r w'] eqn:Hrun.
    by apply reactiveEntryPoint_run in Hrun as [Hs _].
  - destruct (proactiveEntryPoint fuel props w) as [r w'] eqn:Hrun.
    by apply proactiveEntryPoint_run in Hrun as [Hs _].
Qed.

(** *** Comparing start and end values *)

(** Values with the same raw fields are equal for the script. *)
Lemma sameRawFields_areDatesEqual (d1 d2 : option EventDateTime) :
  sameRawFields d1 d2 = true -> areDatesEqual d1 d2 = true.
Proof.
  destruct d1 as [a|], d2 as [b|]; simpl; try done.
  intros [[H1 _]%andb_true_iff H3]%andb_true_iff. by rewrite H1, H3.
Qed.

(** A value with a [dateTime] never equals an all-day value. *)
Lemma areDatesEqual_timed_allDay at_ zone day :
  areDatesEqual (Some (mkEventDateTime (Some at_) None zone))
                (Some (mkEventDateTime None (Some day) None)) = false.
Proof. reflexivity. Qed.

(** The [date] field is not looked at: all-day values are always equal. *)
Lemma areDatesEqual_allDay day1 day2 :
  areDatesEqual (Some (mkEventDateTime None (Some day1) None))
                (Some (mkEventDateTime None (Some day2) None)) = true.
Proof. reflexivity. Qed.

(** C3 fails on the script. [areDatesEqual] compares [dateTime] and
    [timeZone] only, so the all-day values of 1 June and 2 June 2025, whose
    raw fields differ, are equal for it: an all-day event moved to another
    day is taken as unchanged. *)
Theorem areDatesEqual_ignores_date :
  areDatesEqual (Sim.allDay "2025-06-01") (Sim.allDay "2025-06-02") = true
  /\ sameRawFields (Sim.allDay "2025-06-01") (Sim.allDay "2025-06-02") = false.
Proof. split; reflexivity. Qed.

(** *** The decision table *)

Lemma checkForBlockOnCalendar_quiet blockerCalId eventId cache
    (w : World St) r w' :
  checkForBlockOnCalendar blockerCalId eventId cache w = (r, w') ->
  userProps w' = userProps w /\ writes (issued w w') = [].
Proof.
  intros ((t & [Hp Ht] & Hs) & _)%checkForBlockOnCalendar_run.
  split; [done|]. rewrite (issued_app _ _ _ Ht). by destruct Hs as [-> | ->].
Qed.

Lemma processEvent_standalone sourceCalId blockerCalId homeEmail workEmail
    addAttendees event st (w : World St) :
  isRecurringInstance (id event) = false ->
  processEvent sourceCalId blockerCalId homeEmail workEmail addAttendees
    event st w
  = forwardEvent sourceCalId blockerCalId homeEmail workEmail addAttendees
      event st w.
Proof.
  intros Hi. unfold processEvent, resolveRecurrence, bind. rewrite Hi.
  simpl. by destruct st.
Qed.

Lemma addAttendee_settled sourceCalId homeEmail addAttendees event
    (w : World St) :
  attendeeSettled addAttendees homeEmail event = true ->
  addAttendee sourceCalId homeEmail addAttendees event w = (Ok event, w).
Proof.
  unfold attendeeSettled, addAttendee.
  destruct addAttendees; simpl; [|done].
  destruct (is_cancelled event); simpl; [done|].
  destruct (attendees event) as [[|a l]|]; try done.
  by intros ->.
Qed.

(** C4. Reconciling a not-cancelled event whose block is found, with start,
    end and recurrence equal to the event's for the script, issues no write:
    the step ends with the world the lookup left and only has memoised the
    lookup. So does the whole loop body for such an event when it is not a
    recurring instance and its attendees are settled (as after a first
    run). *)
Theorem unchanged_event_no_write blockerCalId workEmail event st
    (w : World St) matchingBlock cache w1 :
  checkForBlockOnCalendar blockerCalId (id event) (blockLookupCache st) w
    = (Ok (Some matchingBlock, cache), w1) ->
  is_cancelled event = false ->
  areDatesEqual (start matchingBlock) (start event) = true ->
  areDatesEqual (end_ matchingBlock) (end_ event) = true ->
  areRecurrencesEqual (recurrence matchingBlock) (recurrence event) = true ->
  let st' := mkLoopState cache (crossCalendarBlockTracker st) in
  reconcileEvent blockerCalId workEmail event st w = (Ok st', w1)
  /\ writes (issued w w1) = []
  /\ (forall sourceCalId homeEmail addAttendees,
        isRecurringInstance (id event) = false ->
        attendeeSettled addAttendees homeEmail event = true ->
        processEvent sourceCalId blockerCalId homeEmail workEmail
          addAttendees event st w = (Ok st', w1)).
Proof.
  intros Hl Hc Hs He Hr st'.
  assert (Hrec : reconcileEvent blockerCalId workEmail event st w = (Ok st', w1)).
  { unfold reconcileEvent, bind. rewrite Hl, Hc, Hs, He, Hr. reflexivity. }
  split; [done|]. split; [by apply checkForBlockOnCalendar_quiet in Hl as [_ ?]|].
  intros sourceCalId homeEmail addAttendees Hi Ha.
  rewrite processEvent_standalone by done.
  unfold forwardEvent, bind. by rewrite addAttendee_settled.
Qed.

(** A block with the event's start, end and recurrence is unchanged for the
    script. *)
Lemma areRecurrencesEqual_refl (rec : option (list string)) :
  areRecurrencesEqual rec rec = true.
Proof.
  destruct rec as [l|]; simpl; [|done]. rewrite Nat.eqb_refl. simpl.
  apply forallb_forall. intros b Hb. apply list_elem_of_In in Hb.
  apply elem_of_lookup_imap in Hb as (i & rule & -> & Hi).
  rewrite Hi. simpl. apply String.eqb_refl.
Qed.

Lemma areDatesEqual_refl (d : option EventDateTime) : areDatesEqual d d = true.
Proof.
  destruct d as [d|]; simpl; [|done].
  apply andb_true_iff; split; by apply strict_eq_true.
Qed.

(** A block that carries the start, end and recurrence an event was
    created with (lines 213-222) is unchanged for the script when the
    event comes again. *)
Lemma created_block_is_unchanged workEmail (event block : Event) :
  start block = nb_start (newBlock workEmail event) ->
  end_ block = nb_end (newBlock workEmail event) ->
  recurrence block = nb_recurrence (newBlock workEmail event) ->
  areDatesEqual (start block) (start event) = true
  /\ areDatesEqual (end_ block) (end_ event) = true
  /\ areRecurrencesEqual (recurrence block) (recurrence event) = true.
Proof.
  simpl. intros -> -> ->.
  auto using areDatesEqual_refl, areRecurrencesEqual_refl.
Qed.

(** C9. Reconciling a cancelled event whose block is found issues exactly
    one write, the delete of that block on the blocker calendar, and leaves
    the cache entry of the event id absent ([null]). *)
Theorem cancelled_event_deletes_block sourceCalId blockerCalId homeEmail
    workEmail addAttendees event st (w : World St) cache0 w0
    matchingBlock cache w1 :
  resolveRecurrence blockerCalId event (blockLookupCache st) w
    = (Ok (Forward, cache0), w0) ->
  is_cancelled event = true ->
  checkForBlockOnCalendar blockerCalId (id event) cache0 w0
    = (Ok (Some matchingBlock, cache), w1) ->
  exists st' w',
    processEvent sourceCalId blockerCalId homeEmail workEmail addAttendees
      event st w = (Ok st', w')
    /\ issued w1 w' = [CRemove blockerCalId (id matchingBlock)]
    /\ writes (issued w w') = [CRemove blockerCalId (id matchingBlock)]
    /\ blockLookupCache st' !! id event = Some None
    /\ crossCalendarBlockTracker st' = crossCalendarBlockTracker st.
Proof.
  intros H0 Hc Hl.
  destruct (deleteEvent_run blockerCalId (id matchingBlock) w1) as [s Hd].
  eexists _, _. split; [|split; [|split; [|split]]].
  - unfold processEvent, bind. rewrite H0. unfold forwardEvent, bind.
    rewrite addAttendee_settled
      by (unfold attendeeSettled; rewrite Hc; by destruct addAttendees).
    unfold reconcileEvent, bind.
    cbn [blockLookupCache crossCalendarBlockTracker].
    rewrite Hl, Hc, Hd. reflexivity.
  - by apply issued_app.
  - apply resolveRecurrence_run in H0 as ((t0 & [_ Ht0] & Hs0) & _).
    apply checkForBlockOnCalendar_run in Hl as ((t1 & [_ Ht1] & Hs1) & _).
    rewrite (issued_app w _ (t0 ++ t1 ++ [CRemove blockerCalId (id matchingBlock)])).
    + rewrite !writes_app.
      by destruct Hs0 as [-> | ->], Hs1 as [-> | ->].
    + simpl. rewrite Ht1, Ht0. by rewrite <- !app_assoc.
  - simpl. apply lookup_insert_eq.
  - done.
Qed.

(** *** The reconcile step after its lookup *)

(** Once its lookup has answered, the reconcile step returns, and what it
    issued after the lookup is what the decision table says. *)
Lemma reconcileEvent_after_lookup blockerCalId workEmail event st
    (w : World St) found cache w1 :
  checkForBlockOnCalendar blockerCalId (id event) (blockLookupCache st) w
    = (Ok (found, cache), w1) ->
  exists st' w',
    reconcileEvent blockerCalId workEmail event st w = (Ok st', w')
    /\ userProps w' = userProps w1
    /\ trace w' = trace w1
         ++ tableWrites blockerCalId workEmail event found
              (crossCalendarBlockTracker st)
    /\ (blockLookupCache st' = cache
        \/ exists v, blockLookupCache st' = <[id event := v]> cache)
    /\ (crossCalendarBlockTracker st' = crossCalendarBlockTracker st
        \/ crossCalendarBlockTracker st'
           = {[id event]} ∪ crossCalendarBlockTracker st).
Proof.
  intros Hl. unfold reconcileEvent, bind, tableWrites, blockChanged.
  rewrite Hl. destruct found as [matchingBlock|].
  - destruct (is_cancelled event).
    + destruct (deleteEvent_run blockerCalId (id matchingBlock) w1) as [s ->].
      eexists _, _. split; [done|]. simpl. eauto 10.
    + destruct (_ || _).
      * destruct (updateEvent_run blockerCalId
                    (id (overwriteBlock matchingBlock event))
                    (overwriteBlock matchingBlock event) w1) as [s ->].
        eexists _, _. split; [done|]. simpl. eauto 10.
      * eexists _, _. split; [done|]. simpl. rewrite app_nil_r. eauto 10.
  - destruct (is_cancelled event); simpl.
    { eexists _, _. split; [done|]. simpl. rewrite app_nil_r. eauto 10. }
    destruct (tracked _ _).
    { eexists _, _. split; [done|]. simpl. rewrite app_nil_r. eauto 10. }
    destruct (createEvent_run blockerCalId (newBlock workEmail event) w1)
      as (created & s & ->).
    destruct created; eexists _, _; (split; [done|]); simpl; eauto 10.
Qed.

Lemma reconcileEvent_lookup_fails blockerCalId workEmail event st
    (w : World St) e w1 :
  checkForBlockOnCalendar blockerCalId (id event) (blockLookupCache st) w
    = (Throw e, w1) ->
  reconcileEvent blockerCalId workEmail event st w = (Throw e, w1).
Proof. intros Hl. unfold reconcileEvent, bind. by rewrite Hl. Qed.

(** *** Recurring instances *)

Lemma isRecurringInstance_shape eventId :
  isRecurringInstance eventId = true ->
  exists stamp, eventId = parentEventId eventId +:+ stamp
                /\ JS.is_stamp stamp = true
                /\ JS.has_line_terminator (parentEventId eventId) = false.
Proof.
  unfold isRecurringInstance, parentEventId.
  destruct (JS.strip_stamp eventId) as [prefix|] eqn:Hs; [|done].
  intros Hl%negb_true_iff.
  apply strip_stamp_Some in Hs as (stamp & -> & Hst). by exists stamp.
Qed.

Lemma append_length (p s : string) :
  String.length (p +:+ s) = (String.length p + String.length s)%nat.
Proof. induction p as [|c p IH]; [done|]. rewrite append_cons. simpl. by rewrite IH. Qed.

Lemma substring_append_l (p s : string) :
  String.substring 0 (String.length p) (p +:+ s) = p.
Proof. induction p as [|c p IH]; simpl; [by destruct s|]. by rewrite IH. Qed.

Lemma substring_append_r (p s : string) :
  String.substring (String.length p) (String.length s) (p +:+ s) = s.
Proof. induction p as [|c p IH]; simpl; [apply substring_whole|done]. Qed.

(** The ids the loop treats as recurring instances are exactly a prefix
    without line terminators followed by a stamp, and the parent id is
    that prefix. *)
Lemma isRecurringInstance_of_shape (prefix stamp : string) :
  JS.is_stamp stamp = true ->
  JS.has_line_terminator prefix = false ->
  isRecurringInstance (prefix +:+ stamp) = true
  /\ parentEventId (prefix +:+ stamp) = prefix.
Proof.
  intros Hst Hlt.
  assert (Hlen : String.length stamp = 17%nat).
  { unfold JS.is_stamp in Hst. repeat apply andb_true_iff in Hst as [Hst _].
    by apply Nat.eqb_eq. }
  assert (Hs : JS.strip_stamp (prefix +:+ stamp) = Some prefix).
  { pose proof (substring_append_r prefix stamp) as Hr. rewrite Hlen in Hr.
    unfold JS.strip_stamp. rewrite append_length, Hlen.
    replace (String.length prefix + 17 - 17)%nat with (String.length prefix) by lia.
    rewrite Hr, Hst, substring_append_l.
    by rewrite (proj2 (Nat.leb_le _ _)) by lia. }
  unfold isRecurringInstance, parentEventId. by rewrite Hs, Hlt.
Qed.

Example instance_id_of_the_specification :
  isRecurringInstance "parent123_20250601T090000Z" = true
  /\ parentEventId "parent123_20250601T090000Z" = "parent123"
  /\ isRecurringInstance "parent123" = false
  /\ isRecurringInstance "parent123_20250601T0900Z" = false.
Proof. repeat split; reflexivity. Qed.

Lemma reconcileEvent_keyed blockerCalId workEmail event st (w : World St) :
  Forall (keyed_by (id event))
    (issued w (reconcileEvent blockerCalId workEmail event st w).2).
Proof.
  unfold reconcileEvent, bind.
  destruct (checkForBlockOnCalendar _ _ _ _) as [r1 w1] eqn:Hl.
  apply checkForBlockOnCalendar_run in Hl as ((t & [_ Ht] & Hs) & _).
  assert (Hk : Forall (keyed_by (id event)) t)
    by (destruct Hs as [-> | ->]; by repeat constructor).
  assert (Hend : forall a w', trace w' = trace w1 ++ a ->
            Forall (keyed_by (id event)) a ->
            Forall (keyed_by (id event)) (issued w w')).
  { intros a w' Hw' Ha. rewrite (issued_app w w' (t ++ a)).
    - by apply Forall_app.
    - rewrite Hw', Ht. by rewrite app_assoc. }
  assert (Hend0 : Forall (keyed_by (id event)) (issued w w1)).
  { apply (Hend []); [by rewrite app_nil_r|constructor]. }
  destruct r1 as [[found cache]|e|]; try done.
  destruct found as [matchingBlock|].
  - destruct (is_cancelled event).
    + destruct (deleteEvent_run blockerCalId (id matchingBlock) w1) as [s ->].
      eapply Hend; [done|by repeat constructor].
    + destruct (_ || _); [|done].
      destruct (updateEvent_run blockerCalId (id (overwriteBlock matchingBlock event))
                  (overwriteBlock matchingBlock event) w1) as [s ->].
      eapply Hend; [done|by repeat constructor].
  - destruct (negb (is_cancelled event)); [|done].
    destruct (tracked _ _); [done|].
    destruct (createEvent_run blockerCalId (newBlock workEmail event) w1)
      as (created & s & ->).
    destruct created; (eapply Hend; [done|by repeat constructor]).
Qed.

(** Whatever [forwardEvent] searches for or creates is keyed by the id of
    the event it was given. *)
Lemma forwardEvent_keyed sourceCalId blockerCalId homeEmail workEmail
    addAttendees event st (w : World St) :
  Forall (keyed_by (id event))
    (issued w (forwardEvent sourceCalId blockerCalId homeEmail workEmail
                 addAttendees event st w).2).
Proof.
  unfold forwardEvent, bind.
  destruct (addAttendee_run sourceCalId homeEmail addAttendees event w)
    as (event' & w1 & t1 & -> & [_ Ht1] & Hs1 & Hid & _).
  pose proof (reconcileEvent_keyed blockerCalId workEmail event' st w1) as Hk.
  destruct (reconcileEvent _ _ _ _ _) as [r w'] eqn:Hr.
  apply (reconcileEvent_run _ sourceCalId) in Hr as (t2 & [_ Ht2] & _).
  simpl in *. rewrite (issued_app _ _ _ Ht2) in Hk.
  rewrite (issued_app w w' (t1 ++ t2)) by (rewrite Ht2, Ht1; by rewrite app_assoc).
  rewrite Hid in Hk. apply Forall_app; split; [|done].
  destruct Hs1 as [-> | ->]; by repeat constructor.
Qed.

(** The parent id of an instance id is shorter than the id. *)
Lemma parentEventId_differs eventId :
  isRecurringInstance eventId = true -> parentEventId eventId <> eventId.
Proof.
  intros (stamp & Heq & Hst & _)%isRecurringInstance_shape Hsame.
  assert (Hlen : String.length stamp = 17%nat).
  { unfold JS.is_stamp in Hst. repeat apply andb_true_iff in Hst as [Hst _].
    by apply Nat.eqb_eq. }
  apply (f_equal String.length) in Heq.
  rewrite append_length, Hlen, Hsame in Heq. lia.
Qed.

Lemma checkForBlockOnCalendar_miss blockerCalId eventId cache
    (w : World St) r w' :
  cache !! eventId = None ->
  checkForBlockOnCalendar blockerCalId eventId cache w = (r, w') ->
  issued w w' = [CList blockerCalId (searchOptions eventId)].
Proof.
  intros Hmiss. unfold checkForBlockOnCalendar. rewrite Hmiss.
  unfold bind, Calendar_Events_list, host_call. simpl.
  destruct (Events_list _ _ _) as [[e|blocks] s]; simpl.
  - intros [= <- <-]. by apply issued_app.
  - destruct (List.find _ _); intros [= <- <-]; by apply issued_app.
Qed.

(** What the loop body does with an event it does not skip is the
    reconciliation of that event as an ordinary event. *)
Lemma forwardEvent_reconciled sourceCalId blockerCalId homeEmail workEmail
    addAttendees event st (w : World St) :
  reconciled_as_ordinary sourceCalId blockerCalId homeEmail workEmail
    addAttendees event st w
    (forwardEvent sourceCalId blockerCalId homeEmail workEmail addAttendees
       event st w).
Proof.
  unfold reconciled_as_ordinary, forwardEvent, bind.
  destruct (addAttendee_run sourceCalId homeEmail addAttendees event w)
    as (event' & w1 & t1 & Ha & _ & _ & Hid & _).
  rewrite Ha.
  destruct (checkForBlockOnCalendar blockerCalId (id event)
              (blockLookupCache st) w1) as [rl w2] eqn:Hl.
  exists event', w1, rl, w2. split; [done|]. split; [done|]. split; [done|].
  split; [intros Hmiss; by eapply checkForBlockOnCalendar_miss|].
  pose proof Hl as (_ & Hd & _)%checkForBlockOnCalendar_run.
  rewrite <- Hid in Hl.
  destruct rl as [[found cache]|e|]; [| |done].
  - destruct (reconcileEvent_after_lookup _ workEmail _ _ _ _ _ _ Hl)
      as (st' & w' & -> & Hp & Ht & Hc & _).
    simpl. split; [|by split].
    exists st'. split; [done|]. by rewrite <- Hid.
  - by rewrite (reconcileEvent_lookup_fails _ _ _ _ _ _ _ Hl).
Qed.

(** C5. An event whose id has the recurring-instance shape is its parent
    id followed by the stamp. When the lookup of the parent id finds a
    block, the loop body ends there: no write, only the memoised lookup
    (and a block found by a search, not taken from the cache, has the
    parent id as its description). When it finds none and the instance is
    not beyond the horizon, the instance is reconciled as an ordinary
    event, from the world the clock reading left: after the attendee
    step a block is looked up under the instance's own id (the lookup of
    the parent id has not put that id into the cache), and what follows
    the lookup is the write the decision table gives for the instance and
    what was found; every search and creation is keyed by the instance's
    own id. *)
Theorem recurring_instance_resolution sourceCalId blockerCalId homeEmail
    workEmail addAttendees event st (w : World St) found cache w1 :
  isRecurringInstance (id event) = true ->
  checkForBlockOnCalendar blockerCalId (parentEventId (id event))
    (blockLookupCache st) w = (Ok (found, cache), w1) ->
  let st1 := mkLoopState cache (crossCalendarBlockTracker st) in
  (exists stamp, id event = parentEventId (id event) +:+ stamp
                 /\ JS.is_stamp stamp = true)
  /\ match found with
     | Some parentBlock =>
         processEvent sourceCalId blockerCalId homeEmail workEmail
           addAttendees event st w = (Ok st1, w1)
         /\ writes (issued w w1) = []
         /\ (blockLookupCache st !! parentEventId (id event) = None ->
             description parentBlock = Some (parentEventId (id event)))
     | None =>
         forall eventStart today s,
           start event = Some eventStart ->
           Date_now (host w1) = (today, s) ->
           beyondHorizon (daysDifference eventStart today) = false ->
           processEvent sourceCalId blockerCalId homeEmail workEmail
             addAttendees event st w
           = forwardEvent sourceCalId blockerCalId homeEmail workEmail
               addAttendees event st1 (with_host s w1)
           /\ reconciled_as_ordinary sourceCalId blockerCalId homeEmail
                workEmail addAttendees event st1 (with_host s w1)
                (processEvent sourceCalId blockerCalId homeEmail workEmail
                   addAttendees event st w)
           /\ cache !! id event = blockLookupCache st !! id event
           /\ Forall (keyed_by (id event))
                (issued (with_host s w1)
                   (processEvent sourceCalId blockerCalId homeEmail workEmail
                      addAttendees event st w).2)
     end.
Proof.
  intros Hi Hl st1. split.
  { destruct (isRecurringInstance_shape _ Hi) as (stamp & ? & ? & _). eauto. }
  destruct found as [parentBlock|].
  - split; [|split].
    + unfold processEvent, resolveRecurrence, bind. by rewrite Hi, Hl.
    + by apply checkForBlockOnCalendar_quiet in Hl as [_ ?].
    + intros Hmiss. revert Hl. unfold checkForBlockOnCalendar.
      rewrite Hmiss. unfold bind, Calendar_Events_list, host_call. simpl.
      destruct (Events_list _ _ _) as [[e|blocks] s]; [done|].
      destruct (List.find _ _) as [b|] eqn:Hf; [|done].
      intros [= <- _ _]. apply find_some in Hf as [_ Hd].
      by apply strict_eq_true in Hd.
  - intros eventStart today s Hs Hn Hh.
    assert (Hgo : processEvent sourceCalId blockerCalId homeEmail workEmail
                    addAttendees event st w
                  = forwardEvent sourceCalId blockerCalId homeEmail workEmail
                      addAttendees event st1 (with_host s w1)).
    { unfold processEvent, resolveRecurrence, bind, new_Date.
      by rewrite Hi, Hl, Hn, Hs, Hh. }
    rewrite Hgo. split; [done|]. split; [apply forwardEvent_reconciled|].
    split; [|apply forwardEvent_keyed].
    apply checkForBlockOnCalendar_run in Hl as (_ & _ & Hc).
    destruct (Hc None cache eq_refl) as [_ Hother]. apply Hother.
    intros Heq. by apply (parentEventId_differs (id event)).
Qed.

Lemma floor_days_exceed (startMs today : Z) :
  90 < (startMs - today) / ms_per_day <-> 91 * ms_per_day <= startMs - today.
Proof.
  unfold ms_per_day. split; intros H.
  - assert ((startMs - today) `div` (1000 * 60 * 60 * 24) >= 91) by lia.
    pose proof (Z.mul_div_le (startMs - today) (1000 * 60 * 60 * 24)). lia.
  - assert (91 <= (startMs - today) / (1000 * 60 * 60 * 24))
      by (apply Z.div_le_lower_bound; lia).
    lia.
Qed.

(** C6. For a recurring instance with no parent block, whose start is
    present and parses to the instant [startMs]: the day offset is the
    floor of [(startMs - today) / 86400000], which exceeds 90 exactly from
    91 whole days on. When it exceeds 90 the loop body ends with no write.
    When it does not, the instance is reconciled as an ordinary event from
    the world the clock reading left: the attendee step, the lookup of a
    block under the instance's id, and the write the decision table gives
    for what was found (a create for an instance that is not cancelled,
    has no block and is not tracked). *)
Theorem horizon_rule sourceCalId blockerCalId homeEmail workEmail
    addAttendees event st (w : World St) cache w1 eventStart today s
    text startMs :
  isRecurringInstance (id event) = true ->
  checkForBlockOnCalendar blockerCalId (parentEventId (id event))
    (blockLookupCache st) w = (Ok (None, cache), w1) ->
  start event = Some eventStart ->
  Date_now (host w1) = (today, s) ->
  JS.or_else (dateTime eventStart) (date eventStart) = Some text ->
  Date_parse text = Some startMs ->
  let st1 := mkLoopState cache (crossCalendarBlockTracker st) in
  let w2 := with_host s w1 in
  daysDifference eventStart today = Some ((startMs - today) / ms_per_day)
  /\ (90 < (startMs - today) / ms_per_day
      <-> 91 * ms_per_day <= startMs - today)
  /\ (90 < (startMs - today) / ms_per_day ->
      processEvent sourceCalId blockerCalId homeEmail workEmail
        addAttendees event st w = (Ok st1, w2)
      /\ writes (issued w w2) = [])
  /\ ((startMs - today) / ms_per_day <= 90 ->
      processEvent sourceCalId blockerCalId homeEmail workEmail
        addAttendees event st w
      = forwardEvent sourceCalId blockerCalId homeEmail workEmail
          addAttendees event st1 w2
      /\ reconciled_as_ordinary sourceCalId blockerCalId homeEmail
           workEmail addAttendees event st1 w2
           (processEvent sourceCalId blockerCalId homeEmail workEmail
              addAttendees event st w)).
Proof.
  intros Hi Hl Hs Hn Ht Hp st1 w2.
  assert (Hd : daysDifference eventStart today
               = Some ((startMs - today) / ms_per_day)).
  { unfold daysDifference. by rewrite Ht, Hp. }
  split; [done|]. split; [apply floor_days_exceed|]. split.
  - intros Hfar. split.
    + unfold processEvent, resolveRecurrence, bind, new_Date.
      rewrite Hi, Hl, Hn, Hs, Hd. simpl.
      by rewrite (proj2 (Z.ltb_lt _ _) Hfar).
    + apply checkForBlockOnCalendar_quiet in Hl as [_ Hq].
      unfold issued in *. by simpl.
  - intros Hnear.
    assert (Hgo : processEvent sourceCalId blockerCalId homeEmail workEmail
                    addAttendees event st w
                  = forwardEvent sourceCalId blockerCalId homeEmail workEmail
                      addAttendees event st1 w2).
    { unfold processEvent, resolveRecurrence, bind, new_Date.
      rewrite Hi, Hl, Hn, Hs, Hd. simpl.
      by rewrite (proj2 (Z.ltb_ge _ _) Hnear). }
    rewrite Hgo. split; [done|]. apply forwardEvent_reconciled.
Qed.

(** A start that does not parse gives [NaN], which does not exceed 90: the
    instance goes on to reconciliation. *)
Lemma unparseable_start_is_forwarded sourceCalId blockerCalId homeEmail
    workEmail addAttendees event st (w : World St) cache w1 eventStart
    today s :
  isRecurringInstance (id event) = true ->
  checkForBlockOnCalendar blockerCalId (parentEventId (id event))
    (blockLookupCache st) w = (Ok (None, cache), w1) ->
  start event = Some eventStart ->
  Date_now (host w1) = (today, s) ->
  daysDifference eventStart today = None ->
  processEvent sourceCalId blockerCalId homeEmail workEmail
    addAttendees event st w
  = forwardEvent sourceCalId blockerCalId homeEmail workEmail
      addAttendees event (mkLoopState cache (crossCalendarBlockTracker st))
      (with_host s w1).
Proof.
  intros Hi Hl Hs Hn Hd.
  unfold processEvent, resolveRecurrence, bind, new_Date.
  by rewrite Hi, Hl, Hn, Hs, Hd.
Qed.

(** C10. For a recurring instance with no parent block the loop body reads
    the clock and then [event.start.dateTime], whatever the status of the
    event. Without a start the body throws a [TypeError] there: nothing
    was written, and the [for] loop ends with that exception, the
    remaining events unprocessed. With a start the prologue returns. *)
Theorem missing_start_throws sourceCalId blockerCalId homeEmail workEmail
    addAttendees event st (w : World St) cache w1 today s :
  isRecurringInstance (id event) = true ->
  checkForBlockOnCalendar blockerCalId (parentEventId (id event))
    (blockLookupCache st) w = (Ok (None, cache), w1) ->
  Date_now (host w1) = (today, s) ->
  let w2 := with_host s w1 in
  match start event with
  | None =>
      processEvent sourceCalId blockerCalId homeEmail workEmail
        addAttendees event st w = (Throw startTypeError, w2)
      /\ writes (issued w w2) = []
      /\ forall rest,
           processEvents sourceCalId blockerCalId homeEmail workEmail
             addAttendees (event :: rest) st w = (Throw startTypeError, w2)
  | Some _ =>
      exists resolution,
        resolveRecurrence blockerCalId event (blockLookupCache st) w
        = (Ok (resolution, cache), w2)
  end.
Proof.
  intros Hi Hl Hn w2.
  destruct (start event) as [eventStart|] eqn:Hs.
  - unfold resolveRecurrence, bind, new_Date. rewrite Hi, Hl, Hn, Hs.
    destruct (beyondHorizon _); eauto.
  - assert (Hb : processEvent sourceCalId blockerCalId homeEmail workEmail
                   addAttendees event st w = (Throw startTypeError, w2)).
    { unfold processEvent, resolveRecurrence, bind, new_Date.
      by rewrite Hi, Hl, Hn, Hs. }
    split; [done|]. split.
    + apply checkForBlockOnCalendar_quiet in Hl as [_ Hq].
      unfold issued in *. by simpl.
    + intros rest. simpl. unfold bind. by rewrite Hb.
Qed.

(** *** Failing writes *)

Section SearchAnswers.
(** The search of the blocker calendar answers; nothing is assumed of the
    write operations, which may all fail. *)
Hypothesis search_answers :
  forall calendarId eventId (s : St),
    exists blocks s',
      Events_list calendarId (searchOptions eventId) s = (inr blocks, s').





End SearchAnswers.


(** *** Token fallback *)

(** [getRelativeDate] in local time: when no local time of the target day
    is skipped by a clock change, the result is the given hour of the day
    [daysOffset] days from today on the local calendar. *)
Lemma relativeDate_local (now daysOffset hour : Z) :
  0 <= hour < 24 ->
  day_has_no_gap (St:=St) (LocalTime now / ms_per_day + daysOffset) ->
  LocalTime (relativeDate now daysOffset hour)
  = (LocalTime now / ms_per_day + daysOffset) * ms_per_day
    + hour * ms_per_hour.
Proof.
  intros Hh Hgap.
  set (d := LocalTime now / ms_per_day + daysOffset) in *.
  assert (Hstep : forall r, 0 <= r < ms_per_day ->
            LocalTime (UTC (d * ms_per_day + r)) = d * ms_per_day + r).
  { intros r Hr. apply Hgap. unfold ms_per_day in *.
    Z.div_mod_to_equations. lia. }
  unfold relativeDate, setMilliseconds, setSeconds, setMinutes, setHours,
    addLocalDays.
  set (l0 := LocalTime now) in *.
  assert (H1 : exists r1, 0 <= r1 < ms_per_day
                 /\ l0 + daysOffset * ms_per_day = d * ms_per_day + r1).
  { exists (l0 mod ms_per_day). subst d. unfold ms_per_day.
    Z.div_mod_to_equations. lia. }
  destruct H1 as (r1 & Hr1 & ->). rewrite (Hstep r1 Hr1).
  assert (H2 : exists r2, 0 <= r2 < ms_per_hour
      /\ (d * ms_per_day + r1) / ms_per_day * ms_per_day + hour * ms_per_hour
         + (d * ms_per_day + r1) mod ms_per_hour
         = d * ms_per_day + (hour * ms_per_hour + r2)).
  { exists ((d * ms_per_day + r1) mod ms_per_hour).
    unfold ms_per_day, ms_per_hour in *. Z.div_mod_to_equations. lia. }
  destruct H2 as (r2 & Hr2 & ->).
  rewrite (Hstep (hour * ms_per_hour + r2))
    by (unfold ms_per_day, ms_per_hour in *; lia).
  assert (H3 : exists r3, 0 <= r3 < ms_per_minute
      /\ d * ms_per_day + (hour * ms_per_hour + r2)
         - (d * ms_per_day + (hour * ms_per_hour + r2)) mod ms_per_hour
         + 0 * ms_per_minute
         + (d * ms_per_day + (hour * ms_per_hour + r2)) mod ms_per_minute
         = d * ms_per_day + (hour * ms_per_hour + r3)).
  { exists ((d * ms_per_day + (hour * ms_per_hour + r2)) mod ms_per_minute).
    unfold ms_per_day, ms_per_hour, ms_per_minute in *.
    Z.div_mod_to_equations. lia. }
  destruct H3 as (r3 & Hr3 & ->).
  rewrite (Hstep (hour * ms_per_hour + r3))
    by (unfold ms_per_day, ms_per_hour, ms_per_minute in *; lia).
  assert (H4 : exists r4, 0 <= r4 < ms_per_second
      /\ d * ms_per_day + (hour * ms_per_hour + r3)
         - (d * ms_per_day + (hour * ms_per_hour + r3)) mod ms_per_minute
         + 0 * ms_per_second
         + (d * ms_per_day + (hour * ms_per_hour + r3)) mod ms_per_second
         = d * ms_per_day + (hour * ms_per_hour + r4)).
  { exists ((d * ms_per_day + (hour * ms_per_hour + r3)) mod ms_per_second).
    unfold ms_per_day, ms_per_hour, ms_per_minute, ms_per_second in *.
    Z.div_mod_to_equations. lia. }
  destruct H4 as (r4 & Hr4 & ->).
  rewrite (Hstep (hour * ms_per_hour + r4))
    by (unfold ms_per_day, ms_per_hour, ms_per_second in *; lia).
  assert (H5 : d * ms_per_day + (hour * ms_per_hour + r4)
               - (d * ms_per_day + (hour * ms_per_hour + r4)) mod ms_per_second
               + 0
               = d * ms_per_day + (hour * ms_per_hour + 0)).
  { unfold ms_per_day, ms_per_hour, ms_per_second in *.
    Z.div_mod_to_equations. lia. }
  rewrite H5, Hstep by (unfold ms_per_day, ms_per_hour in *; lia).
  lia.
Qed.

(** In a zone whose offset never changes, the lower bound of a full
    synchronisation lies between 30 and 31 days before the clock
    reading. *)
Lemma relativeDate_fixed_offset (offset now : Z) :
  (forall t isUTC, LocalTZA t isUTC = offset) ->
  now - 31 * ms_per_day < relativeDate now (-30) 0 <= now - 30 * ms_per_day.
Proof.
  intros Hfix.
  assert (Hl : forall t, LocalTime t = t + offset)
    by (intros t; unfold LocalTime; by rewrite Hfix).
  assert (H : LocalTime (relativeDate now (-30) 0)
              = (LocalTime now / ms_per_day + -30) * ms_per_day
                + 0 * ms_per_hour).
  { apply relativeDate_local; [lia|].
    intros t _. rewrite Hl. unfold UTC. rewrite Hfix. lia. }
  rewrite !Hl in H. revert H. generalize (relativeDate now (-30) 0).
  intros since H. unfold ms_per_day, ms_per_hour in *.
  Z.div_mod_to_equations. lia.
Qed.

Lemma tokenPages_requests fuel calendarId options pageToken0 evts
    (w : World St) r w' :
  tokenPages fuel calendarId options pageToken0 evts w = (r, w') ->
  userProps w' = userProps w
  /\ exists t, trace w' = trace w ++ t
      /\ Forall (fun c => exists pt,
                   c = CList calendarId (withPageToken options pt)) t.
Proof.
  revert pageToken0 evts w.
  induction fuel as [|fuel IH]; intros pageToken0 evts w; simpl.
  - intros [= <- <-]. split; [done|].
    exists []. split; [by rewrite app_nil_r|constructor].
  - unfold bind, try_catch, Calendar_Events_list, host_call. simpl.
    destruct (Events_list _ _ _) as [[e|events] s]; simpl.
    + intros [= <- <-]. split; [done|].
      eexists. split; [done|]. repeat constructor. by eexists.
    + destruct (JS.truthy (nextPageToken events)) as [next|].
      * intros (Hp & (t & Ht & Hreq))%IH.
        split; [done|]. simpl in Ht.
        exists ([CList calendarId (withPageToken options pageToken0)] ++ t).
        split; [rewrite Ht; by rewrite <- app_assoc|].
        constructor; [by eexists|done].
      * intros [= <- <-]. split; [done|].
        eexists. split; [done|]. repeat constructor. by eexists.
Qed.

Lemma loadSyncTokens_run (w : World St) :
  loadSyncTokens w = (Ok (storedTokensOf (userProps w)), w).
Proof.
  unfold loadSyncTokens, bind, getProperty, ret, storedTokensOf.
  by destruct (userProps w !! "syncTokens") as [[|]|].
Qed.

Lemma storedTokensOf_insert (props : gmap string PropValue) m :
  storedTokensOf (<["syncTokens" := PTokens m]> props) = m.
Proof. unfold storedTokensOf. by rewrite lookup_insert_eq. Qed.

(** A fetch that starts without a usable token, or in full-sync mode,
    only issues full-synchronisation calls, through every retry. *)
Lemma fetchEventsByToken_full fuel calendarId fullSync (w : World St) r w' :
  fullSync = true
  \/ JS.truthy (storedTokensOf (userProps w) !! calendarId) = None ->
  fetchEventsByToken fuel calendarId fullSync w = (r, w') ->
  exists t, trace w' = trace w ++ t
            /\ Forall (full_sync_call (St:=St) calendarId) t.
Proof.
  revert fullSync w. induction fuel as [|fuel IH]; intros fullSync w Hmode; simpl.
  - intros [= <- <-]. exists []. split; [by rewrite app_nil_r|constructor].
  - unfold bind at 1. rewrite loadSyncTokens_run. unfold bind at 1.
    assert (Hopt : exists today s,
      tokenOptions calendarId fullSync (storedTokensOf (userProps w)) w
      = (Ok (fullSyncOptions (relativeDate today (-30) 0)), with_host s w)).
    { unfold tokenOptions, bind, getRelativeDate, bind, new_Date, ret.
      assert ((if fullSync then None
               else JS.truthy (storedTokensOf (userProps w) !! calendarId))
              = None) as ->
        by (destruct Hmode as [-> | ->]; [done|by destruct fullSync]).
      destruct (Date_now (host w)) as [today s]. by exists today, s. }
    destruct Hopt as (today & s & ->).
    unfold bind at 1.
    destruct (tokenPages _ _ _ _ _ _) as [r1 w1] eqn:Hp.
    pose proof Hp as [_ Hr1]%tokenPages_run; [|done].
    apply tokenPages_requests in Hp as (_ & t1 & Ht1 & Hreq). simpl in Ht1.
    assert (Hf1 : Forall (full_sync_call (St:=St) calendarId) t1).
    { eapply Forall_impl; [exact Hreq|]. intros c [pt ->]. simpl.
      repeat split; eauto. }
    destruct r1 as [[e|[evts events]]|e|]; try (by destruct (Hr1 e)).
    + destruct (JS.includes _ _).
      * unfold bind, setProperty. simpl.
        intros (t2 & Ht2 & Hf2)%IH; [|by left]. simpl in Ht2.
        eexists (t1 ++ [_] ++ t2). split.
        -- rewrite Ht2, Ht1. by rewrite <- !app_assoc.
        -- apply Forall_app; split; [done|]. by constructor.
      * intros [= <- <-]. by exists t1.
    + unfold storeNextToken.
      destruct (JS.truthy (nextSyncToken events)) as [token|].
      * unfold bind, setProperty, ret. intros [= <- <-]. simpl.
        eexists (t1 ++ [_]). split; [rewrite Ht1; by rewrite <- app_assoc|].
        apply Forall_app; split; [done|]. by repeat constructor.
      * intros [= <- <-]. by exists t1.
    + intros [= <- <-]. by exists t1.
Qed.

Lemma truthy_idem (o : option string) s :
  JS.truthy o = Some s -> JS.truthy (Some s) = Some s.
Proof.
  destruct o as [x|]; simpl; [|done].
  destruct (String.eqb x "") eqn:E; [done|]. intros [= <-]. simpl. by rewrite E.
Qed.

Lemma attempts_app t1 t2 : attempts (t1 ++ t2) = (attempts t1 + attempts t2)%nat.
Proof. unfold attempts. by rewrite List.filter_app, length_app. Qed.


(** A page loop that has fuel for one request at least has requested one
    first page when it was started without a page token, and none when it
    was continued from one, however it ends. *)
Lemma tokenPages_attempts_any fuel calendarId options pageToken0 evts
    (w : World St) r w' :
  q options = None ->
  tokenPages fuel calendarId options pageToken0 evts w = (r, w') ->
  exists t, trace w' = trace w ++ t
    /\ attempts t = match fuel, JS.truthy pageToken0 with
                    | S _, None => 1%nat
                    | _, _ => 0%nat
                    end.
Proof.
  intros Hq. revert pageToken0 evts w.
  induction fuel as [|fuel IH]; intros pageToken0 evts w; simpl.
  { intros [= <- <-]. exists []. by rewrite app_nil_r. }
  assert (Hone : attempts [CList calendarId (withPageToken options pageToken0)]
                 = match JS.truthy pageToken0 with
                   | Some _ => 0%nat
                   | None => 1%nat
                   end).
  { unfold attempts. simpl. rewrite Hq. by destruct (JS.truthy pageToken0). }
  unfold bind, try_catch, Calendar_Events_list, host_call. simpl.
  destruct (Events_list _ _ _) as [[e|events] s]; simpl.
  - intros [= <- <-]. eexists. split; [done|].
    rewrite Hone. by destruct (JS.truthy pageToken0).
  - destruct (JS.truthy (nextPageToken events)) as [next|] eqn:Hnext.
    + intros (t & Ht & Ha)%IH. simpl in Ht.
      exists ([CList calendarId (withPageToken options pageToken0)] ++ t).
      split; [by rewrite Ht, <- app_assoc|].
      rewrite attempts_app, Hone, Ha, (truthy_idem _ _ Hnext).
      destruct fuel, (JS.truthy pageToken0); lia.
    + intros [= <- <-]. eexists. split; [done|].
      rewrite Hone. by destruct (JS.truthy pageToken0).
Qed.

(** Under the contract of the service, a page loop whose requests carry no
    sync token is not left by a token-invalid failure. *)
Lemma tokenPages_contract fuel calendarId options pageToken0 evts
    (w : World St) e w' :
  token_contract (St:=St) ->
  syncToken options = None ->
  tokenPages fuel calendarId options pageToken0 evts w = (Ok (inl e), w') ->
  JS.includes (message e) tokenInvalidText = false.
Proof.
  intros Hcontract Hno. revert pageToken0 evts w.
  induction fuel as [|fuel IH]; intros pageToken0 evts w; simpl; [done|].
  unfold bind, try_catch, Calendar_Events_list, host_call. simpl.
  destruct (Events_list _ _ _) as [[e0|events] s] eqn:Hlist; simpl.
  - intros [= <- <-]. by eapply Hcontract; [|exact Hlist].
  - destruct (JS.truthy (nextPageToken events)) as [next|]; [apply IH|done].
Qed.

Lemma storeNextToken_attempts calendarId syncTokens evts events (w : World St) :
  exists t,
    trace (storeNextToken calendarId syncTokens evts events w).2 = trace w ++ t
    /\ attempts t = 0%nat.
Proof.
  unfold storeNextToken. destruct (JS.truthy _) as [token|].
  - by eexists [_].
  - exists []. by rewrite app_nil_r.
Qed.

Lemma fetchEventsByToken_step fuel calendarId fullSync (w : World St) :
  fetchEventsByToken (S fuel) calendarId fullSync w
  = (options <- tokenOptions calendarId fullSync
                  (storedTokensOf (userProps w)) ;;
     r <- tokenPages fuel calendarId options None [] ;;
     match r with
     | inl e =>
         if JS.includes (message e) tokenInvalidText then
           setProperty "syncTokens"
             (PTokens (delete calendarId (storedTokensOf (userProps w)))) ;;;
           fetchEventsByToken fuel calendarId true
         else throw (mkExn "Error" (message e))
     | inr (evts, events) =>
         storeNextToken calendarId (storedTokensOf (userProps w)) evts events
     end) w.
Proof.
  cbn [fetchEventsByToken]. unfold bind at 1. by rewrite loadSyncTokens_run.
Qed.

(** C7. An incremental fetch (a stored token is used) whose page loop is
    left by an exception [e]:
    - when the message of [e] says the sync token is no longer valid, the
      token of the calendar is deleted from the map, the map is stored,
      and the fetch starts again in full-sync mode in that world [w3], so
      before the retry the stored map has no token for the calendar.
      Whatever follows is a full synchronisation. The retry reads the
      clock and requests its pages with the lower bound
      [getRelativeDate(-30, 0)] of that reading (midnight, local time, of
      the day 30 days back on the local calendar, when no clock change
      skips a local time of that day), no token and no upper bound.
      Under the contract of the service (a request without sync token is
      not answered "token no longer valid") this retry is the only one:
      two page sequences are started in all, and the fetch ends as the
      retry's page loop does, with its events (the token of the last page
      stored), with its failure thrown on as an [Error], or not at all;
    - any other exception is thrown on as an [Error] with the same
      message, in the world the failed request left: no retry, nothing
      stored.
    The fuel is enough for the retry to make a request. *)
Theorem token_fallback fuel calendarId (w : World St) syncTokens token e w2 :
  userProps w !! "syncTokens" = Some (PTokens syncTokens) ->
  JS.truthy (syncTokens !! calendarId) = Some token ->
  tokenPages (S (S fuel)) calendarId (incrementalOptions token) None [] w
    = (Ok (inl e), w2) ->
  let cleared := PTokens (delete calendarId syncTokens) in
  let w3 := mkWorld (host w2) (<["syncTokens" := cleared]> (userProps w2))
                    (trace w2 ++ [CSetProperty "syncTokens" cleared]) in
  let run := fetchEventsByToken (S (S (S fuel))) calendarId false w in
  (JS.includes (message e) tokenInvalidText = true ->
     run = fetchEventsByToken (S (S fuel)) calendarId true w3
     /\ userProps w3 !! "syncTokens" = Some cleared
     /\ delete calendarId syncTokens !! calendarId = None
     /\ Forall (full_sync_call (St:=St) calendarId) (issued w3 run.2)
     /\ forall today s,
          Date_now (host w3) = (today, s) ->
          let since := relativeDate today (-30) 0 in
          let retry := tokenPages (S fuel) calendarId (fullSyncOptions since)
                         None [] (with_host s w3) in
          Forall (page_request calendarId (fullSyncOptions since))
            (issued w3 retry.2)
          /\ (day_has_no_gap (St:=St) (LocalTime today / ms_per_day - 30) ->
              LocalTime since
              = (LocalTime today / ms_per_day - 30) * ms_per_day)
          /\ (token_contract (St:=St) ->
              attempts (issued w run.2) = 2%nat
              /\ match retry.1 with
                 | Ok (inr (evts, events)) =>
                     run = storeNextToken calendarId
                             (delete calendarId syncTokens) evts events retry.2
                 | Ok (inl e') =>
                     run = (Throw (mkExn "Error" (message e')), retry.2)
                 | Diverge => run = (Diverge, retry.2)
                 | Throw _ => False
                 end))
  /\ (JS.includes (message e) tokenInvalidText = false ->
      run = (Throw (mkExn "Error" (message e)), w2)
      /\ attempts (issued w w2) = 1%nat).
Proof.
  intros Hstored Htoken Hpages cleared w3 run.
  assert (Hmap : storedTokensOf (userProps w) = syncTokens)
    by (unfold storedTokensOf; by rewrite Hstored).
  assert (Hfirst : run
    = match JS.includes (message e) tokenInvalidText with
      | true => fetchEventsByToken (S (S fuel)) calendarId true w3
      | false => (Throw (mkExn "Error" (message e)), w2)
      end).
  { subst run. rewrite fetchEventsByToken_step, Hmap.
    unfold bind at 1. unfold tokenOptions. rewrite Htoken.
    unfold ret at 1. unfold bind at 1. rewrite Hpages.
    destruct (JS.includes _ _); reflexivity. }
  pose proof Hpages as (t1 & Ht1 & Ha1)%tokenPages_attempts_any; [|done].
  simpl in Ha1.
  split.
  - intros Hinv. rewrite Hinv in Hfirst.
    split; [done|]. split; [apply lookup_insert_eq|].
    split; [apply lookup_delete_eq|].
    split.
    { rewrite Hfirst.
      destruct (fetchEventsByToken (S (S fuel)) calendarId true w3)
        as [r w'] eqn:Hrun.
      apply fetchEventsByToken_full in Hrun as (t & Ht & Hf); [|by left].
      simpl. by rewrite (issued_app _ _ _ Ht). }
    intros today s Hnow since retry.
    assert (Hretry : fetchEventsByToken (S (S fuel)) calendarId true w3
      = match retry.1 with
        | Ok (inl e') =>
            if JS.includes (message e') tokenInvalidText then
              (setProperty "syncTokens"
                 (PTokens (delete calendarId (delete calendarId syncTokens))) ;;;
               fetchEventsByToken (S fuel) calendarId true) retry.2
            else (Throw (mkExn "Error" (message e')), retry.2)
        | Ok (inr (evts, events)) =>
            storeNextToken calendarId (delete calendarId syncTokens)
              evts events retry.2
        | Throw e' => (Throw e', retry.2)
        | Diverge => (Diverge, retry.2)
        end).
    { rewrite fetchEventsByToken_step.
      assert (storedTokensOf (userProps w3) = delete calendarId syncTokens)
        as -> by apply storedTokensOf_insert.
      unfold bind at 1. unfold tokenOptions, bind at 1.
      unfold getRelativeDate, bind at 1, new_Date. rewrite Hnow.
      unfold ret at 1. unfold ret at 1. unfold bind at 1.
      fold since. fold retry.
      destruct retry as [[[e'|[evts events]]|e'|] w4]; try reflexivity.
      cbn [fst snd]. by destruct (JS.includes (message e') tokenInvalidText). }
    destruct retry as [rr w4] eqn:Hrr. subst retry.
    pose proof Hrr as (Hp4 & t2 & Ht2 & Hreq)%tokenPages_requests.
    pose proof Hrr as (t2' & Ht2' & Ha2)%tokenPages_attempts_any; [|done].
    change (trace (with_host s w3)) with (trace w3) in Ht2, Ht2'.
    cbn [JS.truthy] in Ha2.
    assert (t2' = t2) as -> by (rewrite Ht2 in Ht2'; by apply app_inv_head in Ht2').
    pose proof Hrr as [_ Hnothrow]%tokenPages_run; [|done].
    split; [cbn [snd]; by rewrite (issued_app w3 w4 t2 Ht2)|].
    split; [intros Hgap; unfold since;
            replace (LocalTime today / ms_per_day - 30)
              with (LocalTime today / ms_per_day + -30) in * by lia;
            rewrite (relativeDate_local today (-30) 0) by (done || lia); lia|].
    intros Hcontract. cbn [fst snd] in Hretry |- *.
    assert (Hw4 : trace w4 = trace w ++ t1 ++ [CSetProperty "syncTokens" cleared] ++ t2).
    { rewrite Ht2. subst w3. cbn [trace]. rewrite Ht1. by rewrite <- !app_assoc. }
    assert (Ha4 : attempts (t1 ++ [CSetProperty "syncTokens" cleared] ++ t2) = 2%nat).
    { rewrite !attempts_app, Ha1, Ha2. reflexivity. }
    rewrite Hfirst, Hretry.
    destruct rr as [[e'|[evts events]]|e'|]; [| | |].
    + assert (Hmsg : JS.includes (message e') tokenInvalidText = false)
        by (by eapply tokenPages_contract; [| |exact Hrr]).
      rewrite Hmsg. split; [|done]. cbn [snd].
      by rewrite (issued_app _ _ _ Hw4).
    + split; [|done].
      destruct (storeNextToken_attempts calendarId
                  (delete calendarId syncTokens) evts events w4)
        as (t3 & Ht5 & Ha5).
      rewrite (issued_app w _
                 ((t1 ++ [CSetProperty "syncTokens" cleared] ++ t2) ++ t3))
        by (rewrite Ht5, Hw4; by rewrite <- !app_assoc).
      by rewrite attempts_app, Ha4, Ha5.
    + by destruct (Hnothrow e').
    + split; [|done]. cbn [snd]. by rewrite (issued_app _ _ _ Hw4).
  - intros Hother. rewrite Hother in Hfirst. split; [done|].
    by rewrite (issued_app _ _ _ Ht1).
Qed.

End Properties.

(* ===================================================================== *)
(** ** Runs on the simulated service *)
(* ===================================================================== *)

(** C4 at a concrete input: the meeting, its block found unchanged. *)
Lemma unchanged_event_no_write_witness :
  checkForBlockOnCalendar "blocker@example.com" "eva" ∅
    (Sim.blockerHolds [Sim.meetingBlock])
    = (Ok (Some Sim.meetingBlock, {["eva" := Some Sim.meetingBlock]}),
       Sim.searched "eva" (Sim.blockerHolds [Sim.meetingBlock]))
  /\ reconcileEvent "blocker@example.com" "me@work.example" Sim.meeting
       Sim.emptyState (Sim.blockerHolds [Sim.meetingBlock])
     = (Ok (mkLoopState {["eva" := Some Sim.meetingBlock]} ∅),
        Sim.searched "eva" (Sim.blockerHolds [Sim.meetingBlock]))
  /\ writes (issued (Sim.blockerHolds [Sim.meetingBlock])
               (Sim.searched "eva" (Sim.blockerHolds [Sim.meetingBlock]))) = []
  /\ processEvent "home@example.com" "blocker@example.com" "me@home.example"
       "me@work.example" false Sim.meeting Sim.emptyState
       (Sim.blockerHolds [Sim.meetingBlock])
     = (Ok (mkLoopState {["eva" := Some Sim.meetingBlock]} ∅),
        Sim.searched "eva" (Sim.blockerHolds [Sim.meetingBlock])).
Proof.
  assert (Hl : checkForBlockOnCalendar "blocker@example.com" (id Sim.meeting)
                 (blockLookupCache Sim.emptyState)
                 (Sim.blockerHolds [Sim.meetingBlock])
               = (Ok (Some Sim.meetingBlock, {["eva" := Some Sim.meetingBlock]}),
                  Sim.searched "eva" (Sim.blockerHolds [Sim.meetingBlock])))
    by (vm_compute; reflexivity).
  split; [exact Hl|].
  destruct (unchanged_event_no_write "blocker@example.com" "me@work.example"
              Sim.meeting Sim.emptyState _ Sim.meetingBlock _ _ Hl
              eq_refl eq_refl eq_refl eq_refl) as (Hr & Hw & Hb).
  split; [exact Hr|]. split; [exact Hw|].
  apply Hb; reflexivity.
Defined.

(** C9 at a concrete input: the meeting is cancelled, its block exists. *)
Lemma cancelled_event_deletes_block_witness :
  exists st' w',
    processEvent "home@example.com" "blocker@example.com" "me@home.example"
      "me@work.example" false Sim.meetingCancelled Sim.emptyState
      (Sim.blockerHolds [Sim.meetingBlock]) = (Ok st', w')
    /\ writes (issued (Sim.blockerHolds [Sim.meetingBlock]) w')
       = [CRemove "blocker@example.com" "blk7"]
    /\ blockLookupCache st' !! "eva" = Some None.
Proof.
  destruct (cancelled_event_deletes_block
              "home@example.com" "blocker@example.com" "me@home.example"
              "me@work.example" false Sim.meetingCancelled Sim.emptyState
              (Sim.blockerHolds [Sim.meetingBlock]) ∅
              (Sim.blockerHolds [Sim.meetingBlock])
              Sim.meetingBlock {["eva" := Some Sim.meetingBlock]}
              (Sim.searched "eva" (Sim.blockerHolds [Sim.meetingBlock])))
    as (st' & w' & Hrun & _ & Hw & Hc & _).
  - reflexivity.
  - reflexivity.
  - vm_compute; reflexivity.
  - exists st', w'. split; [exact Hrun|]. split; [exact Hw|exact Hc].
Defined.

(** C5 at concrete inputs: the instance of the specification, once with
    the block of its series on the blocker calendar, once without it and
    83 days ahead. In the second run the blocker calendar is searched for
    the parent id, then for the instance's own id, and a block is created
    with the instance's id as its description. *)
Lemma recurring_instance_resolution_witness :
  processEvent "home@example.com" "blocker@example.com" "me@home.example"
    "me@work.example" false (Sim.instance "2025-06-01T09:00:00Z")
    Sim.emptyState (Sim.blockerHolds [Sim.seriesBlock])
  = (Ok (mkLoopState {["parent123" := Some Sim.seriesBlock]} ∅),
     Sim.searched "parent123" (Sim.blockerHolds [Sim.seriesBlock]))
  /\ reconciled_as_ordinary "home@example.com" "blocker@example.com"
       "me@home.example" "me@work.example" false
       (Sim.instance "2025-06-01T09:00:00Z")
       (mkLoopState {["parent123" := None]} ∅)
       (Sim.searched "parent123" (Sim.blockerHolds []))
       (processEvent "home@example.com" "blocker@example.com"
          "me@home.example" "me@work.example" false
          (Sim.instance "2025-06-01T09:00:00Z")
          Sim.emptyState (Sim.blockerHolds []))
  /\ issued (Sim.blockerHolds [])
       (processEvent "home@example.com" "blocker@example.com"
          "me@home.example" "me@work.example" false
          (Sim.instance "2025-06-01T09:00:00Z")
          Sim.emptyState (Sim.blockerHolds [])).2
     = [CList "blocker@example.com" (searchOptions "parent123");
        CList "blocker@example.com"
          (searchOptions "parent123_20250601T090000Z");
        CInsert "blocker@example.com"
          (newBlock "me@work.example" (Sim.instance "2025-06-01T09:00:00Z"))]
  /\ nb_description
       (newBlock "me@work.example" (Sim.instance "2025-06-01T09:00:00Z"))
     = "parent123_20250601T090000Z".
Proof.
  split; [|split; [|split]].
  - destruct (recurring_instance_resolution
                "home@example.com" "blocker@example.com" "me@home.example"
                "me@work.example" false (Sim.instance "2025-06-01T09:00:00Z")
                Sim.emptyState (Sim.blockerHolds [Sim.seriesBlock])
                (Some Sim.seriesBlock) {["parent123" := Some Sim.seriesBlock]}
                (Sim.searched "parent123" (Sim.blockerHolds [Sim.seriesBlock])))
      as (_ & Hrun & _).
    + reflexivity.
    + vm_compute; reflexivity.
    + exact Hrun.
  - destruct (recurring_instance_resolution
                "home@example.com" "blocker@example.com" "me@home.example"
                "me@work.example" false (Sim.instance "2025-06-01T09:00:00Z")
                Sim.emptyState (Sim.blockerHolds [])
                None {["parent123" := None]}
                (Sim.searched "parent123" (Sim.blockerHolds [])))
      as (_ & Hgo).
    + reflexivity.
    + vm_compute; reflexivity.
    + destruct (Hgo (mkEventDateTime (Some "2025-06-01T09:00:00Z") None (Some "UTC"))
                    Sim.march10 (Sim.calm [] [])) as (_ & Hrec & _).
      * reflexivity.
      * reflexivity.
      * vm_compute; reflexivity.
      * exact Hrec.
  - vm_compute; reflexivity.
  - reflexivity.
Defined.

(** C6 at concrete inputs: on 10 March an instance that starts on 9 June
    is 91 days out and is skipped, nothing is written; one that starts on
    7 June is 89 days out and is reconciled: its block is created. *)
Lemma horizon_rule_witness :
  processEvent "home@example.com" "blocker@example.com" "me@home.example"
    "me@work.example" false (Sim.instance "2025-06-09T00:00:00Z")
    Sim.emptyState (Sim.blockerHolds [])
  = (Ok (mkLoopState {["parent123" := None]} ∅),
     Sim.searched "parent123" (Sim.blockerHolds []))
  /\ writes (issued (Sim.blockerHolds [])
               (Sim.searched "parent123" (Sim.blockerHolds []))) = []
  /\ reconciled_as_ordinary "home@example.com" "blocker@example.com"
       "me@home.example" "me@work.example" false
       (Sim.instance "2025-06-07T00:00:00Z")
       (mkLoopState {["parent123" := None]} ∅)
       (Sim.searched "parent123" (Sim.blockerHolds []))
       (processEvent "home@example.com" "blocker@example.com"
          "me@home.example" "me@work.example" false
          (Sim.instance "2025-06-07T00:00:00Z")
          Sim.emptyState (Sim.blockerHolds []))
  /\ writes (issued (Sim.blockerHolds [])
       (processEvent "home@example.com" "blocker@example.com"
          "me@home.example" "me@work.example" false
          (Sim.instance "2025-06-07T00:00:00Z")
          Sim.emptyState (Sim.blockerHolds [])).2)
     = [CInsert "blocker@example.com"
          (newBlock "me@work.example" (Sim.instance "2025-06-07T00:00:00Z"))].
Proof.
  assert (Hfar : processEvent "home@example.com" "blocker@example.com"
                   "me@home.example" "me@work.example" false
                   (Sim.instance "2025-06-09T00:00:00Z")
                   Sim.emptyState (Sim.blockerHolds [])
                 = (Ok (mkLoopState {["parent123" := None]} ∅),
                    Sim.searched "parent123" (Sim.blockerHolds []))
                 /\ writes (issued (Sim.blockerHolds [])
                              (Sim.searched "parent123" (Sim.blockerHolds [])))
                    = []).
  { destruct (horizon_rule
                "home@example.com" "blocker@example.com" "me@home.example"
                "me@work.example" false (Sim.instance "2025-06-09T00:00:00Z")
                Sim.emptyState (Sim.blockerHolds [])
                {["parent123" := None]}
                (Sim.searched "parent123" (Sim.blockerHolds []))
                (mkEventDateTime (Some "2025-06-09T00:00:00Z") None (Some "UTC"))
                Sim.march10 (Sim.calm [] [])
                "2025-06-09T00:00:00Z" (Sim.march10 + 91 * ms_per_day))
      as (_ & _ & Hfar & _).
    - reflexivity.
    - vm_compute; reflexivity.
    - reflexivity.
    - reflexivity.
    - reflexivity.
    - vm_compute; reflexivity.
    - apply Hfar. vm_compute; reflexivity. }
  destruct Hfar as [Hskip Hquiet].
  split; [exact Hskip|]. split; [exact Hquiet|]. split.
  - destruct (horizon_rule
                "home@example.com" "blocker@example.com" "me@home.example"
                "me@work.example" false (Sim.instance "2025-06-07T00:00:00Z")
                Sim.emptyState (Sim.blockerHolds [])
                {["parent123" := None]}
                (Sim.searched "parent123" (Sim.blockerHolds []))
                (mkEventDateTime (Some "2025-06-07T00:00:00Z") None (Some "UTC"))
                Sim.march10 (Sim.calm [] [])
                "2025-06-07T00:00:00Z" (Sim.march10 + 89 * ms_per_day))
      as (_ & _ & _ & Hnear).
    + reflexivity.
    + vm_compute; reflexivity.
    + reflexivity.
    + reflexivity.
    + reflexivity.
    + vm_compute; reflexivity.
    + apply Hnear. vm_compute. discriminate.
  - vm_compute; reflexivity.
Defined.

(** C10 at a concrete input: the cancelled instance, delivered without a
    start, stops the loop before the meeting after it is looked at. *)
Lemma missing_start_throws_witness :
  processEvents "home@example.com" "blocker@example.com" "me@home.example"
    "me@work.example" false [Sim.instanceCancelled; Sim.meeting]
    Sim.emptyState (Sim.blockerHolds [])
  = (Throw startTypeError, Sim.searched "parent123" (Sim.blockerHolds []))
  /\ writes (issued (Sim.blockerHolds [])
               (Sim.searched "parent123" (Sim.blockerHolds []))) = [].
Proof.
  destruct (missing_start_throws
              "home@example.com" "blocker@example.com" "me@home.example"
              "me@work.example" false Sim.instanceCancelled
              Sim.emptyState (Sim.blockerHolds [])
              {["parent123" := None]}
              (Sim.searched "parent123" (Sim.blockerHolds []))
              Sim.march10 (Sim.calm [] []))
    as (_ & Hw & Hloop).
  - reflexivity.
  - vm_compute; reflexivity.
  - reflexivity.
  - split; [exact (Hloop [Sim.meeting])|exact Hw].
Defined.


(** The two creations of that pass were both attempted: the first failure
    did not end the loop. *)
Example rejected_creations_are_both_attempted :
  map (fun c => match c with CInsert _ b => nb_description b | _ => "" end)
    (writes (issued (Sim.world Sim.readOnlyService None)
       (processEvents "home@example.com" "blocker@example.com"
          "me@home.example" "me@work.example" false
          [Sim.meeting; Sim.instance "2025-03-20T09:00:00Z"]
          Sim.emptyState (Sim.world Sim.readOnlyService None)).2))
  = ["eva"; "parent123_20250601T090000Z"].
Proof. vm_compute. reflexivity. Qed.

(** C7 at a concrete input: the stored token of the scheduler calendar is
    stale. The fetch deletes it, starts again in full-sync mode and ends
    with the events and the token of that second attempt; two page
    sequences were started. The simulated service keeps the contract. *)
Lemma token_fallback_witness :
  tokenPages 2 "scheduler@example.com" (incrementalOptions "token-0") None []
    (Sim.world Sim.staleService (Some (PTokens Sim.storedTokens)))
  = (Ok (inl Sim.staleTokenError),
     record_call (CList "scheduler@example.com" (incrementalOptions "token-0"))
       (Sim.world Sim.staleService (Some (PTokens Sim.storedTokens))))
  /\ JS.includes (message Sim.staleTokenError) tokenInvalidText = true
  /\ token_contract (St:=Sim.State)
  /\ attempts
       (issued (Sim.world Sim.staleService (Some (PTokens Sim.storedTokens)))
          (fetchEventsByToken 3 "scheduler@example.com" false
             (Sim.world Sim.staleService
                (Some (PTokens Sim.storedTokens)))).2) = 2%nat
  /\ fetchEventsByToken 3 "scheduler@example.com" false
       (Sim.world Sim.staleService (Some (PTokens Sim.storedTokens)))
     = (Ok [Sim.meeting],
        mkWorld Sim.staleService
          {["syncTokens" := PTokens {["scheduler@example.com" := "token-1"]}]}
          [CList "scheduler@example.com" (incrementalOptions "token-0");
           CSetProperty "syncTokens" (PTokens ∅);
           CList "scheduler@example.com"
             (fullSyncOptions (Sim.march10 - 30 * ms_per_day));
           CSetProperty "syncTokens"
             (PTokens {["scheduler@example.com" := "token-1"]})]).
Proof.
  assert (Hp : tokenPages 2 "scheduler@example.com"
                 (incrementalOptions "token-0") None []
                 (Sim.world Sim.staleService (Some (PTokens Sim.storedTokens)))
               = (Ok (inl Sim.staleTokenError),
                  record_call
                    (CList "scheduler@example.com" (incrementalOptions "token-0"))
                    (Sim.world Sim.staleService
                       (Some (PTokens Sim.storedTokens)))))
    by (vm_compute; reflexivity).
  assert (Hcontract : token_contract (St:=Sim.State)).
  { intros calendarId options s e s' Hno. simpl. unfold Sim.listEvents.
    destruct (q options); [discriminate|]. rewrite Hno.
    destruct (Sim.stale_tokens s); simpl; discriminate. }
  split; [exact Hp|]. split; [vm_compute; reflexivity|].
  split; [exact Hcontract|].
  destruct (token_fallback 0 "scheduler@example.com"
              (Sim.world Sim.staleService (Some (PTokens Sim.storedTokens)))
              Sim.storedTokens "token-0" Sim.staleTokenError _
              eq_refl eq_refl Hp) as [Hinvalid _].
  destruct Hinvalid as (_ & _ & _ & _ & Hretry); [vm_compute; reflexivity|].
  destruct (Hretry Sim.march10 Sim.staleService eq_refl) as (_ & _ & Hone).
  destruct (Hone Hcontract) as [Hattempts Hend].
  split; [exact Hattempts|].
  vm_compute in Hend. vm_compute. exact Hend.
Defined.

(** C2 fails on the script: with one meeting on the scheduler calendar,
    the third call of the run is the fetch of the home calendar and the
    search for the scheduler's meeting only comes fifth, whereas a run
    that drained each source in turn would search third. *)
Lemma reactive_not_in_turn :
  issued Sim.schedulerOnly (reactiveEntryPoint 2 Sim.props Sim.schedulerOnly).2
    !! 2%nat
  = Some (CList "home@example.com"
            (fullSyncOptions (Sim.march10 - 30 * ms_per_day)))
  /\ issued Sim.schedulerOnly (reactiveEntryPoint 2 Sim.props Sim.schedulerOnly).2
       !! 4%nat
     = Some (CList "blocker@example.com" (searchOptions "eva"))
  /\ issued Sim.schedulerOnly (reactiveInTurn 2 Sim.props Sim.schedulerOnly).2
       !! 2%nat
     = Some (CList "blocker@example.com" (searchOptions "eva"))
  /\ reactiveEntryPoint 2 Sim.props Sim.schedulerOnly
     <> reactiveInTurn 2 Sim.props Sim.schedulerOnly.
Proof.
  split; [vm_compute; reflexivity|]. split; [vm_compute; reflexivity|].
  split; [vm_compute; reflexivity|].
  intros Heq.
  apply (f_equal (fun run => issued Sim.schedulerOnly run.2 !! 2%nat)) in Heq.
  vm_compute in Heq. discriminate Heq.
Qed.

(** The phases of a run with the same meeting on both source calendars
    and the search index lagging: each calendar is fetched (one page, the
    token stored), the pass over the scheduler events searches for the
    meeting and creates its block, the pass over the home events searches
    again and creates nothing. *)
Example phases_of_a_run :
  let ph := phases (fun calendarId => fetchEventsByToken 2 calendarId false)
              Sim.props (Sim.world Sim.laggingService None) in
  fetchScheduler ph
  = [CList "scheduler@example.com"
       (fullSyncOptions (Sim.march10 - 30 * ms_per_day));
     CSetProperty "syncTokens"
       (PTokens {["scheduler@example.com" := "token-1"]})]
  /\ fetchHome ph
     = [CList "home@example.com"
          (fullSyncOptions (Sim.march10 - 30 * ms_per_day));
        CSetProperty "syncTokens"
          (PTokens (<["home@example.com" := "token-1"]>
                      {["scheduler@example.com" := "token-1"]}))]
  /\ reconcileScheduler ph
     = [CList "blocker@example.com" (searchOptions "eva");
        CInsert "blocker@example.com" (newBlock "me@work.example" Sim.meeting)]
  /\ reconcileHome ph
     = [CList "blocker@example.com" (searchOptions "eva")]
  /\ issued (Sim.world Sim.laggingService None)
       (reactiveEntryPoint 2 Sim.props (Sim.world Sim.laggingService None)).2
     = fetchScheduler ph ++ fetchHome ph
       ++ reconcileScheduler ph ++ reconcileHome ph.
Proof. repeat split; vm_compute; reflexivity. Qed.

(** The same meeting on both source calendars, the search index lagging:
    one block is created, by the first pass. *)
Example one_block_for_two_deliveries :
  creations "eva"
    (issued (Sim.world Sim.laggingService None)
       (reactiveEntryPoint 2 Sim.props (Sim.world Sim.laggingService None)).2)
  = 1%nat
  /\ creations "eva"
       (issued (Sim.world Sim.laggingService None)
          (proactiveEntryPoint 2 Sim.props (Sim.world Sim.laggingService None)).2)
     = 1%nat.
Proof. split; vm_compute; reflexivity. Qed.

(** The meeting is reconciled in two runs in a row (the second run gets it
    delivered again): the first run creates its block, the second run
    writes nothing and the blocker calendar still holds one block. *)
Example second_run_is_quiet :
  creations "eva"
    (issued Sim.homeOnly (reactiveEntryPoint 2 Sim.props Sim.homeOnly).2)
  = 1%nat
  /\ writes
       (issued (reactiveEntryPoint 2 Sim.props Sim.homeOnly).2
          (reactiveEntryPoint 2 Sim.props
             (reactiveEntryPoint 2 Sim.props Sim.homeOnly).2).2) = []
  /\ length (Sim.blocks (host
       (reactiveEntryPoint 2 Sim.props
          (reactiveEntryPoint 2 Sim.props Sim.homeOnly).2).2)) = 1%nat.
Proof. repeat split; vm_compute; reflexivity. Qed.

(* ===================================================================== *)
(** ** Further properties of the script *)
(* ===================================================================== *)

Section Further.
Context {St : Type} `{HostSt : Host St}.

(** *** Comparing recurrences *)

Lemma forallb_imap_lookup (l1 l2 : list string) :
  forallb (fun b : bool => b)
    (imap (fun i rule => JS.strict_eq (Some rule) (l2 !! i)) l1) = true
  <-> forall i rule, l1 !! i = Some rule -> l2 !! i = Some rule.
Proof.
  rewrite forallb_forall. split.
  - intros H i rule Hi. symmetry. apply strict_eq_true. apply H.
    apply list_elem_of_In, elem_of_lookup_imap. eauto.
  - intros H b Hb. apply list_elem_of_In in Hb.
    apply elem_of_lookup_imap in Hb as (i & rule & -> & Hi).
    apply strict_eq_true. symmetry. eauto.
Qed.

(** X1. The recurrence comparison of lines 159-172 holds exactly when both
    recurrences are absent or both are the same list of rules: same
    length, same rule at every position, in order. *)
Theorem areRecurrencesEqual_iff (rec1 rec2 : option (list string)) :
  areRecurrencesEqual rec1 rec2 = true <-> rec1 = rec2.
Proof.
  split; [|intros ->; apply areRecurrencesEqual_refl].
  destruct rec1 as [l1|], rec2 as [l2|]; try done.
  unfold areRecurrencesEqual.
  destruct (length l1 =? length l2)%nat eqn:Hlen; cbn [negb]; [|done].
  apply Nat.eqb_eq in Hlen. intros H.
  pose proof (proj1 (forallb_imap_lookup l1 l2) H) as Hall. clear H.
  rename Hall into H.
  f_equal. apply list_eq. intros i.
  destruct (l1 !! i) as [rule|] eqn:Hi; [symmetry; eauto|].
  apply lookup_ge_None in Hi. symmetry. apply lookup_ge_None. lia.
Qed.

(** X19. The comparison of lines 152-156 holds exactly when both values
    are absent or both are present with the same [dateTime] and the same
    [timeZone]; no other field of a start or end value is read. *)
Theorem areDatesEqual_reads_two_fields (date1 date2 : option EventDateTime) :
  areDatesEqual date1 date2 = true
  <-> (fun d => (dateTime d, timeZone d)) <$> date1
      = (fun d => (dateTime d, timeZone d)) <$> date2.
Proof.
  destruct date1 as [d1|], date2 as [d2|]; simpl; try done.
  rewrite andb_true_iff, !strict_eq_true. split.
  - intros [-> ->]. done.
  - intros [= -> ->]. done.
Qed.

(** *** The shape of instance ids *)

(** X2. The test of line 90 accepts exactly the ids made of a prefix
    without line terminator followed by a stamp [_\d{8}T\d{6}Z], and the
    parent id of line 94 is then that prefix: test and replacement
    agree. *)
Theorem instance_ids_are_stamped_prefixes (eventId : string) :
  isRecurringInstance eventId = true
  <-> exists prefix stamp,
        eventId = prefix +:+ stamp
        /\ JS.is_stamp stamp = true
        /\ JS.has_line_terminator prefix = false
        /\ parentEventId eventId = prefix.
Proof.
  split.
  - intros (stamp & Heq & Hst & Hlt)%isRecurringInstance_shape.
    exists (parentEventId eventId), stamp. done.
  - intros (prefix & stamp & -> & Hst & Hlt & _).
    by apply isRecurringInstance_of_shape.
Qed.

(** *** The block lookup *)

(** X3. On a cache miss, when the search answers, the lookup records one
    search, caches its result under the id, and that result is the first
    returned block whose description is exactly the id: a block that only
    resembles the id is never taken, and the result is [null] exactly when
    no returned block has that description. *)
Theorem lookup_requires_exact_description blockerCalId eventId cache
    (w : World St) blocks s :
  cache !! eventId = None ->
  Events_list blockerCalId (searchOptions eventId) (host w) = (inr blocks, s) ->
  exists found,
    checkForBlockOnCalendar blockerCalId eventId cache w
    = (Ok (found, <[eventId := found]> cache),
       mkWorld s (userProps w)
         (trace w ++ [CList blockerCalId (searchOptions eventId)]))
    /\ (forall b, found = Some b ->
          b ∈ items blocks /\ description b = Some eventId)
    /\ (found = None <->
        forall b, b ∈ items blocks -> description b <> Some eventId).
Proof.
  intros Hmiss Hlist. unfold checkForBlockOnCalendar. rewrite Hmiss.
  unfold bind, Calendar_Events_list, host_call. simpl. rewrite Hlist.
  destruct (List.find _ _) as [b|] eqn:Hf.
  - exists (Some b). split; [done|].
    apply find_some in Hf as [Hin Hd%strict_eq_true].
    split.
    + intros ? [= <-]. split; [by apply list_elem_of_In|done].
    + split; [done|]. intros Hno. destruct (Hno b); [by apply list_elem_of_In|done].
  - exists None. split; [done|]. split; [done|]. split; [|done].
    intros _ b Hin%list_elem_of_In Hd.
    pose proof (find_none _ _ Hf b Hin) as Hn. simpl in Hn.
    apply strict_eq_true in Hd. congruence.
Qed.

(** X4. Once a lookup for an id has returned, a lookup for the same id
    with the cache it left returns the same result in any world without
    calling the service. *)
Theorem lookup_is_memoised blockerCalId eventId cache (w : World St)
    found cache' w' :
  checkForBlockOnCalendar blockerCalId eventId cache w
    = (Ok (found, cache'), w') ->
  forall w2 : World St,
    checkForBlockOnCalendar blockerCalId eventId cache' w2
    = (Ok (found, cache'), w2).
Proof.
  intros (_ & _ & Hc)%checkForBlockOnCalendar_run w2.
  destruct (Hc found cache' eq_refl) as [Hhit _].
  unfold checkForBlockOnCalendar. by rewrite Hhit.
Qed.

(** *** The reconcile step, case by case *)

Lemma tableWrites_cases blockerCalId workEmail event found T :
  tableWrites blockerCalId workEmail event found T = []
  \/ (exists b, found = Some b /\ is_cancelled event = true
        /\ tableWrites blockerCalId workEmail event found T
           = [CRemove blockerCalId (id b)])
  \/ (exists b, found = Some b /\ is_cancelled event = false
        /\ blockChanged b event = true
        /\ tableWrites blockerCalId workEmail event found T
           = [CUpdate blockerCalId (id b) (overwriteBlock b event)])
  \/ (found = None /\ is_cancelled event = false
        /\ tracked T (id event) = false
        /\ tableWrites blockerCalId workEmail event found T
           = [CInsert blockerCalId (newBlock workEmail event)]).
Proof.
  unfold tableWrites. destruct found as [b|].
  - destruct (is_cancelled event); [right; left; eauto|].
    destruct (blockChanged b event) eqn:Hc; [|by left].
    right; right; left. eauto.
  - destruct (is_cancelled event); [by left|].
    destruct (tracked T (id event)) eqn:Ht; [by left|].
    right; right; right. eauto.
Qed.


(** X5. Once its lookup has answered, the reconcile step always returns,
    leaves the user properties alone, and its writes are those of the
    decision table: delete for a cancelled event with a block, update for
    a changed one, nothing for an unchanged one or for a cancelled event
    without block, create for a new event not yet tracked. *)
Theorem decision_table blockerCalId workEmail event st (w : World St)
    found cache w1 :
  checkForBlockOnCalendar blockerCalId (id event) (blockLookupCache st) w
    = (Ok (found, cache), w1) ->
  exists st' w',
    reconcileEvent blockerCalId workEmail event st w = (Ok st', w')
    /\ issued w1 w'
       = tableWrites blockerCalId workEmail event found
           (crossCalendarBlockTracker st)
    /\ writes (issued w w')
       = tableWrites blockerCalId workEmail event found
           (crossCalendarBlockTracker st)
    /\ userProps w' = userProps w.
Proof.
  intros Hl.
  destruct (reconcileEvent_after_lookup _ workEmail _ _ _ _ _ _ Hl)
    as (st' & w' & Hr & Hp & Ht & _).
  exists st', w'. split; [done|]. split; [by apply issued_app|].
  apply checkForBlockOnCalendar_run in Hl as ((t & [Hp1 Ht1] & Hs) & _).
  split; [|congruence].
  rewrite (issued_app w w' (t ++ tableWrites blockerCalId workEmail event found
                                  (crossCalendarBlockTracker st)))
    by (rewrite Ht, Ht1; by rewrite app_assoc).
  rewrite writes_app.
  assert (writes t = []) as -> by (by destruct Hs as [-> | ->]).
  simpl.
  destruct (tableWrites_cases blockerCalId workEmail event found
              (crossCalendarBlockTracker st))
    as [-> | [(b & _ & _ & ->) | [(b & _ & _ & _ & ->) | (_ & _ & _ & ->)]]];
    done.
Qed.

Lemma blockChanged_overwritten (matchingBlock event : Event) :
  blockChanged (overwriteBlock matchingBlock event) event = false.
Proof.
  unfold blockChanged. simpl.
  by rewrite !areDatesEqual_refl, areRecurrencesEqual_refl.
Qed.

Lemma reconcileEvent_cached_unchanged blockerCalId workEmail event st
    (w : World St) block :
  blockLookupCache st !! id event = Some (Some block) ->
  is_cancelled event = false ->
  blockChanged block event = false ->
  reconcileEvent blockerCalId workEmail event st w = (Ok st, w).
Proof.
  intros Hhit Hc Hq. unfold reconcileEvent, bind, checkForBlockOnCalendar.
  rewrite Hhit. unfold ret. rewrite Hc. unfold blockChanged in Hq. rewrite Hq.
  by destruct st.
Qed.

(** X6. A not-cancelled event whose block is found changed issues one
    update of that block: the body carries the start, end and recurrence
    of the event and the id, description and attendees of the block. The
    cache then holds the updated block, so reconciling the same event
    again in the same pass calls nothing. *)
Theorem changed_event_updates_once blockerCalId workEmail event st
    (w : World St) matchingBlock cache w1 :
  checkForBlockOnCalendar blockerCalId (id event) (blockLookupCache st) w
    = (Ok (Some matchingBlock, cache), w1) ->
  is_cancelled event = false ->
  blockChanged matchingBlock event = true ->
  let block' := overwriteBlock matchingBlock event in
  let st' := mkLoopState (<[id event := Some block']> cache)
                         (crossCalendarBlockTracker st) in
  (exists s,
     reconcileEvent blockerCalId workEmail event st w
     = (Ok st', mkWorld s (userProps w1)
                  (trace w1 ++ [CUpdate blockerCalId (id matchingBlock) block'])))
  /\ (start block' = start event /\ end_ block' = end_ event
      /\ recurrence block' = recurrence event
      /\ id block' = id matchingBlock
      /\ description block' = description matchingBlock
      /\ attendees block' = attendees matchingBlock)
  /\ forall w2 : World St,
       reconcileEvent blockerCalId workEmail event st' w2 = (Ok st', w2).
Proof.
  intros Hl Hc Hch block' st'. split; [|split; [done|]].
  - unfold reconcileEvent, bind. rewrite Hl, Hc.
    unfold blockChanged in Hch. rewrite Hch.
    destruct (updateEvent_run blockerCalId (id block') block' w1) as [s Hs].
    exists s. fold block'. by rewrite Hs.
  - intros w2. apply (reconcileEvent_cached_unchanged _ _ _ _ _ block').
    + apply lookup_insert_eq.
    + done.
    + apply blockChanged_overwritten.
Qed.

(** *** What one event can cause *)

(** The writes of the loop body for one event: at most the attendee
    update of the source event, then at most what the decision table says
    for the event (with its attendees completed). *)
Lemma processEvent_writes sourceCalId blockerCalId homeEmail workEmail
    addAttendees event st (w : World St) :
  exists a b,
    writes (issued w (processEvent sourceCalId blockerCalId homeEmail
                        workEmail addAttendees event st w).2) = a ++ b
    /\ (a = []
        \/ addAttendees = true /\ is_cancelled event = false
           /\ exists event', a = [CUpdate sourceCalId (id event) event'])
    /\ (b = []
        \/ exists event' found T,
             is_cancelled event' = is_cancelled event
             /\ id event' = id event
             /\ b = tableWrites blockerCalId workEmail event' found T).
Proof.
  unfold processEvent, bind.
  destruct (resolveRecurrence _ _ _ _) as [r0 w0] eqn:H0.
  apply resolveRecurrence_run in H0 as ((t0 & [_ Ht0] & Hs0) & Hd0).
  assert (Hw0 : writes t0 = []) by (by destruct Hs0 as [-> | ->]).
  assert (Hquiet : writes (issued w w0) = [])
    by (by rewrite (issued_app _ _ _ Ht0)).
  destruct r0 as [[[|] cache]|e|]; try done;
    try (exists [], []; simpl; rewrite Hquiet; by eauto).
  unfold forwardEvent, bind.
  destruct (addAttendee_run sourceCalId homeEmail addAttendees event w0)
    as (event' & w1 & t1 & Ha & [_ Ht1] & Hs1 & Hid & Hst & _).
  rewrite Ha.
  assert (Hcan : is_cancelled event' = is_cancelled event)
    by (unfold is_cancelled; by rewrite Hst).
  assert (Hw1 : writes t1 = []
                \/ addAttendees = true /\ is_cancelled event = false
                   /\ exists event', writes t1 = [CUpdate sourceCalId (id event) event']).
  { destruct Hs1 as [-> | ->]; [by left|]. right.
    revert Ha. unfold addAttendee.
    destruct addAttendees; simpl.
    - destruct (is_cancelled event); simpl; [|by eauto].
      intros [= <- <-]. apply (f_equal length) in Ht1.
      rewrite length_app in Ht1. simpl in Ht1. lia.
    - intros [= <- <-]. apply (f_equal length) in Ht1.
      rewrite length_app in Ht1. simpl in Ht1. lia. }
  set (st1 := mkLoopState cache (crossCalendarBlockTracker st)).
  destruct (checkForBlockOnCalendar blockerCalId (id event')
              (blockLookupCache st1) w1) as [rl wl] eqn:Hl.
  pose proof Hl as Hl'.
  apply checkForBlockOnCalendar_run in Hl' as ((tl & [_ Htl] & Hsl) & Hdl & _).
  assert (Hwl : writes tl = []) by (by destruct Hsl as [-> | ->]).
  destruct rl as [[found cachel]|e|]; try done.
  - destruct (reconcileEvent_after_lookup _ workEmail _ _ _ _ _ _ Hl)
      as (st' & w' & -> & _ & Ht' & _).
    simpl.
    rewrite (issued_app w w'
               (t0 ++ t1 ++ tl ++ tableWrites blockerCalId workEmail event' found
                                    (crossCalendarBlockTracker st1)))
      by (rewrite Ht', Htl, Ht1, Ht0; by rewrite <- !app_assoc).
    rewrite !writes_app, Hw0, Hwl. simpl.
    exists (writes t1), (writes (tableWrites blockerCalId workEmail event' found
                                   (crossCalendarBlockTracker st1))).
    split; [done|]. split.
    + destruct Hw1 as [-> | (? & ? & ev2 & ->)]; [by left|right; eauto].
    + right. exists event', found, (crossCalendarBlockTracker st1).
      split; [done|]. split; [done|].
      destruct (tableWrites_cases blockerCalId workEmail event' found
                  (crossCalendarBlockTracker st1))
        as [-> | [(b & _ & _ & ->) | [(b & _ & _ & _ & ->) | (_ & _ & _ & ->)]]];
        done.
  - rewrite (reconcileEvent_lookup_fails _ _ _ _ _ _ _ Hl). simpl.
    rewrite (issued_app w wl (t0 ++ t1 ++ tl))
      by (rewrite Htl, Ht1, Ht0; by rewrite <- !app_assoc).
    rewrite !writes_app, Hw0, Hwl, app_nil_r. simpl.
    exists (writes t1), []. rewrite app_nil_r. split; [done|]. split; [|by left].
    destruct Hw1 as [-> | (? & ? & ev2 & ->)]; [by left|right; eauto].
Qed.

(** X7. Whatever the service answers, the loop body for a cancelled event
    writes nothing or deletes one block of the blocker calendar (no create,
    no update, no attendee update), and the loop body for an event that is
    not cancelled never deletes. *)
Theorem cancelled_event_only_deletes sourceCalId blockerCalId homeEmail
    workEmail addAttendees event st (w : World St) :
  let t := writes (issued w (processEvent sourceCalId blockerCalId homeEmail
                               workEmail addAttendees event st w).2) in
  (is_cancelled event = true ->
     t = [] \/ exists blockId, t = [CRemove blockerCalId blockId])
  /\ (is_cancelled event = false ->
      forall calendarId blockId, CRemove calendarId blockId ∉ t).
Proof.
  intros t. subst t.
  destruct (processEvent_writes sourceCalId blockerCalId homeEmail workEmail
              addAttendees event st w) as (a & b & -> & Ha & Hb).
  split.
  - intros Hc. destruct Ha as [-> | (_ & Hn & _)]; [|congruence]. simpl.
    destruct Hb as [-> | (event' & found & T & Hc' & _ & ->)]; [by left|].
    rewrite Hc in Hc'.
    destruct (tableWrites_cases blockerCalId workEmail event' found T)
      as [-> | [(blk & _ & _ & ->) | [(blk & _ & Hn & _) | (_ & Hn & _)]]];
      try congruence; [by left|right; eauto].
  - intros Hc calendarId blockId [Hin | Hin]%elem_of_app.
    + destruct Ha as [-> | (_ & _ & ev' & ->)].
      * by apply not_elem_of_nil in Hin.
      * apply list_elem_of_singleton in Hin. discriminate.
    + destruct Hb as [-> | (event' & found & T & Hc' & _ & ->)].
      * by apply not_elem_of_nil in Hin.
      * rewrite Hc in Hc'.
        destruct (tableWrites_cases blockerCalId workEmail event' found T)
          as [Hw | [(blk & _ & Hn & _) | [(blk & _ & _ & _ & Hw) | (_ & _ & _ & Hw)]]];
          try congruence; rewrite Hw in Hin.
        -- by apply not_elem_of_nil in Hin.
        -- apply list_elem_of_singleton in Hin. discriminate.
        -- apply list_elem_of_singleton in Hin. discriminate.
Qed.

(** Without attendee propagation every call of the loop body goes to the
    blocker calendar. *)
Lemma processEvent_on_blocker sourceCalId blockerCalId homeEmail workEmail
    event st (w : World St) r w' :
  processEvent sourceCalId blockerCalId homeEmail workEmail false
    event st w = (r, w') ->
  exists t, ext w w' t
    /\ Forall (reconcile_call blockerCalId blockerCalId) t.
Proof.
  intros Hrun.
  destruct (processEvent_writes sourceCalId blockerCalId homeEmail workEmail
              false event st w) as (a & b & Hw & Ha & Hb).
  rewrite Hrun in Hw. simpl in Hw.
  apply processEvent_run in Hrun as (t & Hext & Hrc & _).
  exists t. split; [done|].
  rewrite (issued_app _ _ _ (proj2 Hext)) in Hw.
  destruct Ha as [-> | (? & _)]; [|done]. simpl in Hw.
  assert (Hon : Forall (reconcile_call blockerCalId blockerCalId) b).
  { destruct Hb as [-> | (event' & found & T & _ & _ & ->)]; [constructor|].
    destruct (tableWrites_cases blockerCalId workEmail event' found T)
      as [-> | [(blk & _ & _ & ->) | [(blk & _ & _ & _ & ->) | (_ & _ & _ & ->)]]];
      repeat constructor. }
  apply Forall_forall. intros c Hc.
  pose proof (proj1 (Forall_forall _ _) Hrc c Hc) as Hcall.
  destruct c; try done.
  assert (Hin : CUpdate calendarId eventId event0 ∈ writes t).
  { unfold writes. apply list_elem_of_In, filter_In.
    split; [by apply list_elem_of_In|done]. }
  rewrite Hw in Hin. by apply (proj1 (Forall_forall _ _) Hon) in Hin.
Qed.

(** X8. The loop body issues at most two writes for one event, at most
    one when attendees are not propagated; in that case every call it
    makes goes to the blocker calendar. *)
Theorem writes_per_event sourceCalId blockerCalId homeEmail workEmail
    addAttendees event st (w : World St) :
  let t := issued w (processEvent sourceCalId blockerCalId homeEmail
                       workEmail addAttendees event st w).2 in
  (length (writes t) <= if addAttendees then 2 else 1)%nat
  /\ (addAttendees = false ->
      Forall (reconcile_call blockerCalId blockerCalId) t).
Proof.
  intros t. subst t.
  destruct (processEvent_writes sourceCalId blockerCalId homeEmail workEmail
              addAttendees event st w) as (a & b & Hw & Ha & Hb).
  assert (Hlen : (length b <= 1)%nat).
  { destruct Hb as [-> | (event' & found & T & _ & _ & ->)]; [simpl; lia|].
    destruct (tableWrites_cases blockerCalId workEmail event' found T)
      as [-> | [(blk & _ & _ & ->) | [(blk & _ & _ & _ & ->) | (_ & _ & _ & ->)]]];
      simpl; lia. }
  split.
  - rewrite Hw, length_app.
    destruct Ha as [-> | (-> & _ & ev' & ->)]; simpl; [destruct addAttendees|]; lia.
  - intros ->.
    destruct (processEvent _ _ _ _ _ _ _ _) as [r w'] eqn:Hrun.
    apply processEvent_on_blocker in Hrun as (t & [_ Ht] & Hon).
    simpl. by rewrite (issued_app _ _ _ Ht).
Qed.

Lemma existsb_eqb_app (x : string) (l : list string) :
  existsb (String.eqb x) (l ++ [x]) = true.
Proof.
  rewrite existsb_app. simpl. rewrite String.eqb_refl.
  by rewrite orb_true_r.
Qed.

(** X9. Attendee propagation (lines 120-133) always returns an event
    whose attendees are settled, so running it again on the result calls
    nothing. It updates the source event exactly when the home address had
    to be added, and then appends it after the attendees the event had. *)
Theorem attendee_is_added_once sourceCalId homeEmail addAttendees event
    (w : World St) :
  exists event' w',
    addAttendee sourceCalId homeEmail addAttendees event w = (Ok event', w')
    /\ attendeeSettled addAttendees homeEmail event' = true
    /\ issued w w'
       = (if attendeeSettled addAttendees homeEmail event then []
          else [CUpdate sourceCalId (id event) event'])
    /\ (if attendeeSettled addAttendees homeEmail event
        then event' = event
        else attendees event'
             = Some (default [] (attendees event) ++ [homeEmail]))
    /\ forall w2 : World St,
         addAttendee sourceCalId homeEmail addAttendees event' w2
         = (Ok event', w2).
Proof.
  destruct (attendeeSettled addAttendees homeEmail event) eqn:Hset.
  - exists event, w. rewrite addAttendee_settled by done.
    split; [done|]. split; [done|].
    split; [apply issued_app; by rewrite app_nil_r|]. split; [done|].
    intros w2. by apply addAttendee_settled.
  - set (event' := withAttendees event
                      (default [] (attendees event) ++ [homeEmail])).
    assert (Hon : addAttendees = true /\ is_cancelled event = false).
    { revert Hset. unfold attendeeSettled.
      destruct addAttendees, (is_cancelled event); simpl; by auto. }
    destruct Hon as [-> Hc].
    assert (Hdone : attendeeSettled true homeEmail event' = true).
    { unfold attendeeSettled, is_cancelled. simpl.
      fold (is_cancelled event). rewrite Hc. simpl.
      destruct (default [] (attendees event)) as [|a l]; simpl.
      - by rewrite String.eqb_refl.
      - by rewrite existsb_eqb_app, orb_true_r. }
    destruct (updateEvent_run sourceCalId (id event) event' w) as [s Hs].
    assert (Hrun : addAttendee sourceCalId homeEmail true event w
                   = (Ok event',
                      mkWorld s (userProps w)
                        (trace w ++ [CUpdate sourceCalId (id event) event']))).
    { revert Hset. unfold attendeeSettled, addAttendee. rewrite Hc. simpl.
      subst event'. unfold bind.
      destruct (attendees event) as [[|a l]|] eqn:Hat; simpl in *.
      - intros _. by rewrite Hs.
      - intros ->. simpl. by rewrite Hs.
      - intros _. by rewrite Hs. }
    eexists _, _. split; [exact Hrun|]. split; [done|].
    split; [by apply issued_app|]. split; [done|].
    intros w2. by apply addAttendee_settled.
Qed.

(** *** One search per id and pass *)

Lemma searches_app k t1 t2 :
  searches k (t1 ++ t2) = (searches k t1 + searches k t2)%nat.
Proof. unfold searches. by rewrite List.filter_app, length_app. Qed.

Lemma searches_write k c : is_write c = true -> searches k [c] = 0%nat.
Proof. by destruct c. Qed.

Lemma tableWrites_no_search k blockerCalId workEmail event found T :
  searches k (tableWrites blockerCalId workEmail event found T) = 0%nat.
Proof.
  destruct (tableWrites_cases blockerCalId workEmail event found T)
    as [-> | [(b & _ & _ & ->) | [(b & _ & _ & _ & ->) | (_ & _ & _ & ->)]]];
    done.
Qed.

Lemma memoised_quiet (cache : gmap string (option Event)) t cache' :
  (forall k, searches k t = 0%nat) ->
  (forall c1, cache' = Some c1 ->
     forall k, is_Some (cache !! k) -> is_Some (c1 !! k)) ->
  memoised cache t cache'.
Proof.
  intros Hq Hm. split.
  - intros k. rewrite Hq. destruct (cache !! k); lia.
  - intros c1 Hc1. split; [by apply Hm|]. intros k. by rewrite Hq.
Qed.

Lemma memoised_seq (cache c1 : gmap string (option Event)) t1 t2 cache' :
  memoised cache t1 (Some c1) -> memoised c1 t2 cache' ->
  memoised cache (t1 ++ t2) cache'.
Proof.
  intros [B1 R1] [B2 R2]. destruct (R1 c1 eq_refl) as [Hmono Hin]. split.
  - intros k. rewrite searches_app. specialize (B1 k). specialize (B2 k).
    destruct (cache !! k) as [v|] eqn:Hk.
    + destruct (Hmono k) as [v1 Hv1]; [by eexists|]. rewrite Hv1 in B2. lia.
    + destruct (Nat.eq_dec (searches k t1) 0) as [E|E].
      * destruct (c1 !! k); lia.
      * destruct (Hin k E) as [v1 Hv1]. rewrite Hv1 in B2. lia.
  - intros c2 Hc2. destruct (R2 c2 Hc2) as [Hmono2 Hin2]. split; [by auto|].
    intros k. rewrite searches_app. intros Hne.
    destruct (Nat.eq_dec (searches k t1) 0) as [E|E].
    + apply Hin2. lia.
    + by apply Hmono2, Hin.
Qed.

Lemma insert_keeps_keys (cache : gmap string (option Event)) key v k :
  is_Some (cache !! k) -> is_Some (<[key := v]> cache !! k).
Proof.
  intros Hk. destruct (decide (key = k)) as [->|Hne].
  - rewrite lookup_insert_eq. by eexists.
  - by rewrite lookup_insert_ne.
Qed.

Lemma checkForBlockOnCalendar_memoised blockerCalId eventId cache
    (w : World St) r w' :
  checkForBlockOnCalendar blockerCalId eventId cache w = (r, w') ->
  exists t, trace w' = trace w ++ t
    /\ memoised cache t (returnedCache snd r).
Proof.
  unfold checkForBlockOnCalendar.
  destruct (cache !! eventId) as [cached|] eqn:Hc.
  - intros [= <- <-]. exists []. split; [by rewrite app_nil_r|].
    apply memoised_quiet; [done|]. by intros ? [= <-].
  - unfold bind, Calendar_Events_list, host_call. simpl.
    assert (Hone : forall k,
      (searches k [CList blockerCalId (searchOptions eventId)]
       <= match cache !! k with Some _ => 0 | None => 1 end)%nat).
    { intros k. unfold searches. simpl.
      destruct (String.eqb_spec eventId k) as [<-|]; simpl.
      - rewrite Hc. lia.
      - lia. }
    assert (Hkey : forall k v,
      searches k [CList blockerCalId (searchOptions eventId)] <> 0%nat ->
      is_Some (<[eventId := v]> cache !! k)).
    { intros k v. unfold searches. simpl.
      destruct (String.eqb_spec eventId k) as [<-|]; simpl; [|done].
      intros _. rewrite lookup_insert_eq. by eexists. }
    destruct (Events_list _ _ _) as [[e|blocks] s]; simpl.
    + intros [= <- <-]. eexists. split; [done|]. split; [done|]. by intros ? [=].
    + destruct (List.find _ _) as [b|]; intros [= <- <-];
        (eexists; split; [done|]; split; [done|]);
        intros ? [= <-]; (split; [intros k; apply insert_keeps_keys|intros k; apply Hkey]).
Qed.

Lemma processEvent_memoised sourceCalId blockerCalId homeEmail workEmail
    addAttendees event st (w : World St) r w' :
  processEvent sourceCalId blockerCalId homeEmail workEmail addAttendees
    event st w = (r, w') ->
  exists t, trace w' = trace w ++ t
    /\ memoised (blockLookupCache st) t (returnedCache blockLookupCache r).
Proof.
  unfold processEvent, resolveRecurrence, bind.
  assert (Hfw : forall cache w0 r w',
    forwardEvent sourceCalId blockerCalId homeEmail workEmail addAttendees
      event (mkLoopState cache (crossCalendarBlockTracker st)) w0 = (r, w') ->
    exists t, trace w' = trace w0 ++ t
      /\ memoised cache t (returnedCache blockLookupCache r)).
  { intros cache w0 r0 w0'. unfold forwardEvent, bind.
    destruct (addAttendee_run sourceCalId homeEmail addAttendees event w0)
      as (event' & w1 & t1 & -> & [_ Ht1] & Hs1 & _).
    assert (Hq1 : forall k, searches k t1 = 0%nat)
      by (by destruct Hs1 as [-> | ->]).
    set (st1 := mkLoopState cache (crossCalendarBlockTracker st)).
    destruct (checkForBlockOnCalendar blockerCalId (id event')
                (blockLookupCache st1) w1) as [rl wl] eqn:Hl.
    pose proof Hl as (tl & Htl & Hml)%checkForBlockOnCalendar_memoised.
    pose proof Hl as (_ & Hdl & _)%checkForBlockOnCalendar_run.
    destruct rl as [[found cachel]|e|]; try done.
    - destruct (reconcileEvent_after_lookup _ workEmail _ _ _ _ _ _ Hl)
        as (st' & w2 & -> & _ & Ht2 & Hcache & _).
      intros [= <- <-].
      exists (t1 ++ tl ++ tableWrites blockerCalId workEmail event' found
                          (crossCalendarBlockTracker st1)).
      split; [rewrite Ht2, Htl, Ht1; by rewrite <- !app_assoc|].
      eapply memoised_seq; [apply memoised_quiet; [done|by intros ? [= <-]]|].
      eapply memoised_seq; [exact Hml|].
      apply memoised_quiet.
      + intros k. apply tableWrites_no_search.
      + intros ? [= <-] k. destruct Hcache as [-> | [v ->]]; [done|].
        apply insert_keeps_keys.
    - rewrite (reconcileEvent_lookup_fails _ _ _ _ _ _ _ Hl).
      intros [= <- <-]. exists (t1 ++ tl).
      split; [rewrite Htl, Ht1; by rewrite <- app_assoc|].
      eapply memoised_seq; [apply memoised_quiet; [done|by intros ? [= <-]]|].
      destruct Hml as [B _]. split; [done|]. by intros ? [=]. }
  destruct (isRecurringInstance (id event)).
  2: { simpl. intros Hrun. apply Hfw in Hrun. by destruct st. }
  destruct (checkForBlockOnCalendar blockerCalId (parentEventId (id event))
              (blockLookupCache st) w) as [rp wp] eqn:Hp.
  pose proof Hp as (tp & Htp & Hmp)%checkForBlockOnCalendar_memoised.
  pose proof Hp as (_ & Hdp & _)%checkForBlockOnCalendar_run.
  destruct rp as [[[pb|] cachep]|e|]; try done; unfold ret, throw; cbn beta iota.
  - intros [= <- <-]. by exists tp.
  - unfold new_Date. destruct (Date_now (host wp)) as [today s].
    destruct (start event) as [eventStart|]; cbn beta iota.
    + destruct (beyondHorizon _); cbn beta iota.
      * intros [= <- <-]. by exists tp.
      * intros (t & Ht & Hm)%Hfw. exists (tp ++ t).
        split; [simpl in Ht; rewrite Ht, Htp; by rewrite app_assoc|].
        by eapply memoised_seq.
    + intros [= <- <-]. exists tp. split; [done|].
      destruct Hmp as [B _]. split; [done|]. by intros ? [=].
  - intros [= <- <-]. by exists tp.
Qed.

Lemma processEvents_memoised sourceCalId blockerCalId homeEmail workEmail
    addAttendees events st (w : World St) r w' :
  processEvents sourceCalId blockerCalId homeEmail workEmail addAttendees
    events st w = (r, w') ->
  exists t, trace w' = trace w ++ t
    /\ memoised (blockLookupCache st) t (returnedCache blockLookupCache r).
Proof.
  revert st w. induction events as [|event rest IH]; intros st w; simpl.
  - intros [= <- <-]. exists []. split; [by rewrite app_nil_r|].
    apply memoised_quiet; [done|by intros ? [= <-]].
  - unfold bind.
    destruct (processEvent _ _ _ _ _ _ _ _) as [r1 w1] eqn:H1.
    pose proof H1 as (t1 & Ht1 & Hm1)%processEvent_memoised.
    apply processEvent_run in H1 as (_ & _ & _ & Hd1 & _).
    destruct r1 as [st1|e|]; try done.
    + intros (t2 & Ht2 & Hm2)%IH. exists (t1 ++ t2).
      split; [rewrite Ht2, Ht1; by rewrite app_assoc|]. by eapply memoised_seq.
    + intros [= <- <-]. exists t1. split; [done|].
      destruct Hm1 as [B _]. split; [done|]. by intros ? [=].
Qed.

(** X10. In a pass of [processCalendar] the blocker calendar is searched
    at most once for any id, however often the id (or an instance of the
    series it names) occurs among the events and whatever the service
    answers. *)
Theorem one_search_per_id_and_pass sourceCalId blockerCalId homeEmail
    workEmail addAttendees dryRun T events (w : World St) eventId :
  (searches eventId
     (issued w (processCalendar sourceCalId blockerCalId homeEmail workEmail
                  addAttendees dryRun T events w).2) <= 1)%nat.
Proof.
  unfold processCalendar. destruct dryRun.
  - change (searches eventId (issued w w) <= 1)%nat.
    rewrite (issued_app w w []) by (by rewrite app_nil_r). unfold searches. simpl. lia.
  - unfold bind.
    destruct (processEvents _ _ _ _ _ _ _ _) as [r1 w1] eqn:H1.
    apply processEvents_memoised in H1 as (t & Ht & [B _]).
    assert (Hle : (searches eventId t <= 1)%nat).
    { specialize (B eventId). simpl in B. by rewrite lookup_empty in B. }
    destruct r1; simpl; by rewrite (issued_app _ _ _ Ht).
Qed.

(** *** The fetchers and the sync state *)

Lemma windowPages_requests fuel calendarId options pageToken0 evts
    (w : World St) r w' :
  windowPages fuel calendarId options pageToken0 evts w = (r, w') ->
  userProps w' = userProps w
  /\ (exists t, trace w' = trace w ++ t
      /\ Forall (fun c => exists pt,
                   c = CList calendarId (withPageToken options pt)) t)
  /\ forall e, r = Throw e -> exn_name e = "Error".
Proof.
  revert pageToken0 evts w.
  induction fuel as [|fuel IH]; intros pageToken0 evts w; simpl.
  - intros [= <- <-]. split; [done|]. split; [|done].
    exists []. split; [by rewrite app_nil_r|constructor].
  - unfold bind, try_catch, Calendar_Events_list, host_call, throw. simpl.
    destruct (Events_list _ _ _) as [[e|events] s]; simpl.
    + intros [= <- <-]. split; [done|]. split; [|by intros ? [= <-]].
      eexists. split; [done|]. repeat constructor. by eexists.
    + destruct (JS.truthy (nextPageToken events)) as [next|].
      * intros (Hp & (t & Ht & Hreq) & Hthrow)%IH.
        split; [done|]. split; [|done]. simpl in Ht.
        exists ([CList calendarId (withPageToken options pageToken0)] ++ t).
        split; [rewrite Ht; by rewrite <- app_assoc|].
        constructor; [by eexists|done].
      * intros [= <- <-]. split; [done|]. split; [|done].
        eexists. split; [done|]. repeat constructor. by eexists.
Qed.


(** X11. A windowed fetch never touches the user properties; every request
    it makes is a page request of that calendar with the given window, no
    token and no search text; and whatever it throws is an [Error]. *)
Theorem windowed_fetch_leaves_sync_state fuel calendarId startDate endDate
    (w : World St) :
  let run := fetchEventsByTimeWindow fuel calendarId startDate endDate w in
  userProps run.2 = userProps w
  /\ Forall (window_request calendarId startDate endDate) (issued w run.2)
  /\ (forall e, run.1 = Throw e -> exn_name e = "Error").
Proof.
  intros run. subst run. unfold fetchEventsByTimeWindow.
  destruct (windowPages _ _ _ _ _ _) as [r w'] eqn:Hrun.
  apply windowPages_requests in Hrun as (Hp & (t & Ht & Hreq) & Hthrow).
  simpl. split; [done|]. split; [|done].
  by rewrite (issued_app _ _ _ Ht).
Qed.


(** The fetch of one calendar leaves the tokens of the other calendars,
    and every other user property, as they were. *)
Lemma fetchEventsByToken_isolated fuel calendarId fullSync (w : World St) r w' :
  fetchEventsByToken fuel calendarId fullSync w = (r, w') ->
  (forall other, other <> calendarId ->
     storedTokensOf (userProps w') !! other
     = storedTokensOf (userProps w) !! other)
  /\ (forall key, key <> "syncTokens" ->
        userProps w' !! key = userProps w !! key).
Proof.
  revert fullSync w. induction fuel as [|fuel IH]; intros fullSync w; simpl.
  - by intros [= <- <-].
  - unfold bind at 1. rewrite loadSyncTokens_run. unfold bind at 1.
    destruct (tokenOptions_run calendarId fullSync
                (storedTokensOf (userProps w)) w) as (options & s & -> & Hq).
    unfold bind at 1.
    destruct (tokenPages _ _ _ _ _ _) as [r1 w1] eqn:Hp.
    pose proof Hp as [_ Hr1]%tokenPages_run; [|done].
    apply tokenPages_requests in Hp as [Hprops _]. simpl in Hprops.
    destruct r1 as [[e|[evts events]]|e|]; try (by destruct (Hr1 e)).
    + destruct (JS.includes _ _).
      * unfold bind, setProperty. simpl.
        intros [Htok Hkey]%IH. simpl in *. split.
        -- intros other Hne. rewrite Htok by done.
           rewrite storedTokensOf_insert. by rewrite lookup_delete_ne.
        -- intros key Hne. rewrite Hkey by done.
           rewrite lookup_insert_ne by done. by rewrite Hprops.
      * intros [= <- <-]. by rewrite Hprops.
    + unfold storeNextToken.
      destruct (JS.truthy (nextSyncToken events)) as [token|].
      * unfold bind, setProperty, ret. intros [= <- <-]. simpl. split.
        -- intros other Hne. rewrite storedTokensOf_insert.
           by rewrite lookup_insert_ne.
        -- intros key Hne. rewrite lookup_insert_ne by done. by rewrite Hprops.
      * intros [= <- <-]. by rewrite Hprops.
    + intros [= <- <-]. by rewrite Hprops.
Qed.

(** X12. A token fetch of one calendar, through every retry, leaves the
    stored token of every other calendar and every other user property as
    they were. *)
Theorem other_tokens_are_kept fuel calendarId fullSync (w : World St) :
  let w' := (fetchEventsByToken fuel calendarId fullSync w).2 in
  (forall other, other <> calendarId ->
     storedTokensOf (userProps w') !! other
     = storedTokensOf (userProps w) !! other)
  /\ (forall key, key <> "syncTokens" ->
        userProps w' !! key = userProps w !! key).
Proof.
  intros w'. subst w'.
  destruct (fetchEventsByToken fuel calendarId fullSync w) as [r w'] eqn:Hrun.
  by apply fetchEventsByToken_isolated in Hrun.
Qed.

Lemma truthy_nonempty (o : option string) s :
  JS.truthy o = Some s -> o = Some s.
Proof.
  destruct o as [x|]; simpl; [|done]. by destruct (String.eqb x ""); intros [= <-].
Qed.

(** The token a fetch stores is the token the next incremental fetch of
    that calendar sends. *)
(** X13. When the pages of a fetch arrive and the last one carries a sync
    token, the fetch returns the events, stores that token for the
    calendar as its last call, and the next incremental fetch of the
    calendar sends exactly that token. *)
Theorem stored_token_is_sent_next fuel calendarId fullSync (w : World St)
    options s evts events w1 token :
  tokenOptions calendarId fullSync (storedTokensOf (userProps w)) w
    = (Ok options, with_host s w) ->
  tokenPages fuel calendarId options None [] (with_host s w)
    = (Ok (inr (evts, events)), w1) ->
  JS.truthy (nextSyncToken events) = Some token ->
  exists w',
    fetchEventsByToken (S fuel) calendarId fullSync w = (Ok evts, w')
    /\ storedTokensOf (userProps w') !! calendarId = Some token
    /\ issued w1 w'
       = [CSetProperty "syncTokens"
            (PTokens (<[calendarId := token]> (storedTokensOf (userProps w))))]
    /\ forall w2 : World St,
         userProps w2 = userProps w' ->
         tokenOptions calendarId false (storedTokensOf (userProps w2)) w2
         = (Ok (incrementalOptions token), w2).
Proof.
  intros Ho Hp Ht. eexists. split; [|split; [|split]].
  - simpl. unfold bind at 1. rewrite loadSyncTokens_run. unfold bind at 1.
    rewrite Ho. unfold bind at 1. rewrite Hp.
    unfold storeNextToken. rewrite Ht. reflexivity.
  - simpl. rewrite storedTokensOf_insert. apply lookup_insert_eq.
  - by apply issued_app.
  - intros w2 ->. simpl. rewrite storedTokensOf_insert.
    unfold tokenOptions. rewrite lookup_insert_eq.
    by rewrite (truthy_idem _ _ Ht).
Qed.


Lemma full_sync_sends_no_token_aux fuel calendarId (w : World St) :
  JS.truthy (storedTokensOf (userProps w) !! calendarId) = None ->
  Forall (full_sync_call (St:=St) calendarId)
    (issued w (fetchEventsByToken fuel calendarId false w).2).
Proof.
  intros Hmode.
  destruct (fetchEventsByToken fuel calendarId false w) as [r w'] eqn:Hrun.
  apply fetchEventsByToken_full in Hrun as (t & Ht & Hf); [|by right].
  simpl. by rewrite (issued_app _ _ _ Ht).
Qed.

(** X14. A fetch in full-sync mode, or with no usable token stored for the
    calendar, only makes full-synchronisation requests, through every
    retry: no token, no upper bound, 100 results per page, and the lower
    bound [getRelativeDate(-30, 0)]. *)
Theorem full_sync_sends_no_token fuel calendarId fullSync (w : World St) :
  fullSync = true
  \/ JS.truthy (storedTokensOf (userProps w) !! calendarId) = None ->
  Forall (full_sync_call (St:=St) calendarId)
    (issued w (fetchEventsByToken fuel calendarId fullSync w).2).
Proof.
  intros Hmode.
  destruct (fetchEventsByToken fuel calendarId fullSync w) as [r w'] eqn:Hrun.
  apply fetchEventsByToken_full in Hrun as (t & Ht & Hf); [|done].
  simpl. by rewrite (issued_app _ _ _ Ht).
Qed.

(** *** Resetting sync tokens *)

(** X15. [resetSyncToken] always returns. With a calendar id it removes
    the token of that calendar and keeps the others; with [null] or the
    empty string it clears the whole map. The next incremental fetch of a
    reset calendar only makes full-synchronisation requests. Other user
    properties are untouched. *)
Theorem reset_forces_full_sync (calendarId : option string) (w : World St) :
  let w' := (resetSyncToken calendarId w).2 in
  (resetSyncToken calendarId w).1 = Ok tt
  /\ match JS.truthy calendarId with
     | Some cal =>
         storedTokensOf (userProps w') !! cal = None
         /\ (forall other, other <> cal ->
               storedTokensOf (userProps w') !! other
               = storedTokensOf (userProps w) !! other)
         /\ forall fuel,
              Forall (full_sync_call (St:=St) cal)
                (issued w' (fetchEventsByToken fuel cal false w').2)
     | None =>
         storedTokensOf (userProps w') = ∅
         /\ forall fuel cal,
              Forall (full_sync_call (St:=St) cal)
                (issued w' (fetchEventsByToken fuel cal false w').2)
     end
  /\ (forall key, key <> "syncTokens" ->
        userProps w' !! key = userProps w !! key).
Proof.
  intros w'. subst w'. unfold resetSyncToken, bind.
  rewrite loadSyncTokens_run. unfold setProperty. simpl.
  split; [done|]. split; [|by intros; rewrite lookup_insert_ne].
  destruct (JS.truthy calendarId) as [cal|].
  - split; [|split].
    + rewrite storedTokensOf_insert. apply lookup_delete_eq.
    + intros other Hne. rewrite storedTokensOf_insert.
      by apply lookup_delete_ne.
    + intros fuel. apply full_sync_sends_no_token_aux.
      simpl. rewrite storedTokensOf_insert, lookup_delete_eq. done.
  - split; [apply storedTokensOf_insert|].
    intros fuel cal. apply full_sync_sends_no_token_aux.
    simpl. by rewrite storedTokensOf_insert, lookup_empty.
Qed.

(** *** Whole runs *)

Lemma processEvents_on_blocker sourceCalId blockerCalId homeEmail workEmail
    events st (w : World St) r w' :
  processEvents sourceCalId blockerCalId homeEmail workEmail false
    events st w = (r, w') ->
  exists t, ext w w' t
    /\ Forall (reconcile_call blockerCalId blockerCalId) t.
Proof.
  revert st w. induction events as [|event rest IH]; intros st w; simpl.
  - intros [= <- <-]. exists []. split; [apply ext_refl|constructor].
  - unfold bind.
    destruct (processEvent _ _ _ _ _ _ _ _) as [r1 w1] eqn:H1.
    apply processEvent_on_blocker in H1 as (t1 & Hext1 & Hon1).
    destruct r1 as [st1|e|].
    + intros (t2 & Hext2 & Hon2)%IH. exists (t1 ++ t2).
      split; [by eapply ext_trans|by apply Forall_app].
    + intros [= <- <-]. by exists t1.
    + intros [= <- <-]. by exists t1.
Qed.

(** The second half of both entry points once more: it leaves the user
    properties alone, and the pass over the home events only calls the
    blocker calendar. *)
Lemma reconcile_both_spares_home (props : Config) schedulerEvents homeEvents
    (w : World St) r w' :
  (tracker1 <- processCalendar (schedulerCal props) (blockerCal props)
                 (homeEmail props) (workEmail props) true false
                 ∅ schedulerEvents ;;
   processCalendar (homeCal props) (blockerCal props)
     (homeEmail props) (workEmail props) false false
     tracker1 homeEvents ;;;
   ret tt) w = (r, w') ->
  exists p1 p2, ext w w' (p1 ++ p2)
    /\ Forall (reconcile_call (blockerCal props) (schedulerCal props)) p1
    /\ Forall (reconcile_call (blockerCal props) (blockerCal props)) p2.
Proof.
  unfold bind.
  destruct (processCalendar _ _ _ _ true _ _ _ _) as [r1 w1] eqn:H1.
  apply processCalendar_run in H1 as (p1 & Hext1 & Hrc1 & _).
  destruct r1 as [tracker1|e|].
  - unfold processCalendar, bind.
    destruct (processEvents _ _ _ _ _ _ _ _) as [r2 w2] eqn:H2.
    apply processEvents_on_blocker in H2 as (p2 & Hext2 & Hon2).
    intros Hr. assert (w' = w2) as -> by (destruct r2; by injection Hr).
    exists p1, p2. split; [by eapply ext_trans|done].
  - intros [= <- <-]. exists p1, []. rewrite app_nil_r.
    split; [done|]. split; [done|constructor].
  - intros [= <- <-]. exists p1, []. rewrite app_nil_r.
    split; [done|]. split; [done|constructor].
Qed.

Lemma reconcile_call_spares_home (props : Config) c :
  reconcile_call (blockerCal props) (schedulerCal props) c
  \/ reconcile_call (blockerCal props) (blockerCal props) c ->
  spares_home props c.
Proof. destruct c; simpl; intuition. Qed.

Lemma fetch_call_spares_home (props : Config) calendarId c :
  fetch_call calendarId c -> spares_home props c.
Proof. by destruct c. Qed.

(** X16. In a run of either entry point every insert and delete goes to
    the blocker calendar and every update to the blocker or the scheduler
    calendar: the home calendar is only read. *)
Theorem home_calendar_is_never_written fuel (props : Config) (w : World St) :
  Forall (spares_home props)
    (issued w (reactiveEntryPoint fuel props w).2)
  /\ Forall (spares_home props)
       (issued w (proactiveEntryPoint fuel props w).2).
Proof.
  assert (Htail : forall f1 f2 schedulerEvents homeEvents (w2 : World St),
    trace w2 = (trace w ++ f1) ++ f2 ->
    Forall (spares_home props) (f1 ++ f2) ->
    Forall (spares_home props)
      (issued w
         ((tracker1 <- processCalendar (schedulerCal props) (blockerCal props)
                         (homeEmail props) (workEmail props) true false
                         ∅ schedulerEvents ;;
           processCalendar (homeCal props) (blockerCal props)
             (homeEmail props) (workEmail props) false false
             tracker1 homeEvents ;;;
           ret tt) w2).2)).
  { intros f1 f2 schedulerEvents homeEvents w2 Ht Hf.
    match goal with |- context [ (?m w2) ] => destruct (m w2) as [r w'] eqn:Hrun end.
    apply reconcile_both_spares_home in Hrun as (p1 & p2 & [_ Hp] & Hp1 & Hp2).
    simpl.
    rewrite (issued_app w w' ((f1 ++ f2) ++ p1 ++ p2))
      by (rewrite Hp, Ht; by rewrite <- !app_assoc).
    apply Forall_app; split; [done|]. apply Forall_app; split.
    - eapply Forall_impl; [exact Hp1|]. intros c Hc.
      apply reconcile_call_spares_home. by left.
    - eapply Forall_impl; [exact Hp2|]. intros c Hc.
      apply reconcile_call_spares_home. by right. }
  assert (Hfetch : forall calendarId t,
    Forall (fetch_call calendarId) t -> Forall (spares_home props) t).
  { intros calendarId t Hf. eapply Forall_impl; [exact Hf|].
    intros c. apply fetch_call_spares_home. }
  split.
  - unfold reactiveEntryPoint. unfold bind at 1.
    destruct (fetchEventsByToken fuel (schedulerCal props) false w)
      as [r1 w1] eqn:H1.
    apply fetchEventsByToken_run in H1 as (f1 & Ht1 & Hf1%Hfetch).
    destruct r1 as [schedulerEvents|e|];
      try (simpl; by rewrite (issued_app _ _ _ Ht1)).
    unfold bind at 1.
    destruct (fetchEventsByToken fuel (homeCal props) false w1)
      as [r2 w2] eqn:H2.
    apply fetchEventsByToken_run in H2 as (f2 & Ht2 & Hf2%Hfetch).
    assert (Ht12 : trace w2 = (trace w ++ f1) ++ f2) by (by rewrite Ht2, Ht1).
    destruct r2 as [homeEvents|e|];
      try (simpl; rewrite (issued_app w w2 (f1 ++ f2))
             by (by rewrite Ht12, app_assoc); by apply Forall_app).
    apply (Htail f1 f2); [done|by apply Forall_app].
  - unfold proactiveEntryPoint. unfold bind at 1, new_Date.
    destruct (Date_now (host w)) as [today s].
    set (w0 := with_host s w).
    unfold bind at 1.
    destruct (fetchEventsByTimeWindow fuel (schedulerCal props) _ _ w0)
      as [r1 w1] eqn:H1.
    apply fetchEventsByTimeWindow_run in H1 as (f1 & Ht1 & Hf1%Hfetch).
    change (trace w0) with (trace w) in Ht1.
    destruct r1 as [schedulerEvents|e|];
      try (simpl; by rewrite (issued_app _ _ _ Ht1)).
    unfold bind at 1.
    destruct (fetchEventsByTimeWindow fuel (homeCal props) _ _ w1)
      as [r2 w2] eqn:H2.
    apply fetchEventsByTimeWindow_run in H2 as (f2 & Ht2 & Hf2%Hfetch).
    assert (Ht12 : trace w2 = (trace w ++ f1) ++ f2) by (by rewrite Ht2, Ht1).
    destruct r2 as [homeEvents|e|];
      try (simpl; rewrite (issued_app w w2 (f1 ++ f2))
             by (by rewrite Ht12, app_assoc); by apply Forall_app).
    apply (Htail f1 f2); [done|by apply Forall_app].
Qed.

Lemma window_request_in_window calendarId today c :
  window_request calendarId today (addLocalDays today 90) c ->
  in_proactive_window (St:=St) today c.
Proof. by intros [pt ->]. Qed.

Lemma reconcile_call_in_window blockerCalId sourceCalId today c :
  reconcile_call blockerCalId sourceCalId c ->
  in_proactive_window (St:=St) today c.
Proof.
  destruct c; simpl; try done. intros [_ [x Hx]] Hq. congruence.
Qed.

Lemma proactiveEntryPoint_window fuel (props : Config) (w : World St)
    today s r w' :
  Date_now (host w) = (today, s) ->
  proactiveEntryPoint fuel props w = (r, w') ->
  userProps w' = userProps w
  /\ Forall (in_proactive_window (St:=St) today) (issued w w').
Proof.
  intros Hnow.
  unfold proactiveEntryPoint. unfold bind at 1, new_Date. rewrite Hnow.
  set (w0 := with_host s w).
  assert (Hwin : forall calendarId t,
    Forall (fun c => exists pt, c = CList calendarId
              (withPageToken
                 (mkListOptions None None (Some today)
                    (Some (addLocalDays today 90)) None None) pt)) t ->
    Forall (in_proactive_window (St:=St) today) t).
  { intros calendarId t Hf. eapply Forall_impl; [exact Hf|].
    intros c Hc. by apply (window_request_in_window calendarId). }
  unfold bind at 1. unfold fetchEventsByTimeWindow at 1.
  destruct (windowPages fuel (schedulerCal props) _ _ _ w0) as [r1 w1] eqn:H1.
  apply windowPages_requests in H1 as (Hp1 & (f1 & Ht1 & Hf1%Hwin) & _).
  change (trace w0) with (trace w) in Ht1.
  change (userProps w0) with (userProps w) in Hp1.
  destruct r1 as [schedulerEvents|e|];
    try (intros [= <- <-]; split; [done|by rewrite (issued_app _ _ _ Ht1)]).
  unfold bind at 1. unfold fetchEventsByTimeWindow at 1.
  destruct (windowPages fuel (homeCal props) _ _ _ w1) as [r2 w2] eqn:H2.
  apply windowPages_requests in H2 as (Hp2 & (f2 & Ht2 & Hf2%Hwin) & _).
  assert (Ht12 : trace w2 = trace w ++ f1 ++ f2)
    by (rewrite Ht2, Ht1; by rewrite app_assoc).
  destruct r2 as [homeEvents|e|];
    try (intros [= <- <-]; split; [congruence|];
         rewrite (issued_app _ _ _ Ht12); by apply Forall_app).
  intros (p1 & p2 & [Hp Ht] & Hrc1 & Hrc2)%reconcile_both_spares_home.
  split; [congruence|].
  rewrite (issued_app w w' (f1 ++ f2 ++ p1 ++ p2))
    by (rewrite Ht, Ht12; by rewrite <- !app_assoc).
  repeat (apply Forall_app; split); try done.
  - eapply Forall_impl; [exact Hrc1|]. intros c. apply reconcile_call_in_window.
  - eapply Forall_impl; [exact Hrc2|]. intros c. apply reconcile_call_in_window.
Qed.

(** X17. A proactive run never changes the user properties, and each of
    its page requests asks, without token, for the window from the clock
    reading of its start to that reading moved 90 days ahead on the local
    calendar ([setDate(getDate() + 90)]): the same local time of day 90
    calendar days later, when no clock change skips that local time. *)
Theorem proactive_run_leaves_sync_state fuel (props : Config) (w : World St) :
  userProps (proactiveEntryPoint fuel props w).2 = userProps w
  /\ Forall (in_proactive_window (St:=St) (Date_now (host w)).1)
       (issued w (proactiveEntryPoint fuel props w).2)
  /\ (forall today,
        day_has_no_gap (St:=St)
          ((LocalTime today + 90 * ms_per_day) / ms_per_day) ->
        LocalTime (addLocalDays today 90)
        = LocalTime today + 90 * ms_per_day).
Proof.
  destruct (Date_now (host w)) as [today s] eqn:Hnow.
  destruct (proactiveEntryPoint fuel props w) as [r w'] eqn:Hrun.
  destruct (proactiveEntryPoint_window _ _ _ _ _ _ _ Hnow Hrun) as [Hp Hw].
  split; [done|]. split; [done|].
  intros today0 Hgap. by apply Hgap.
Qed.

(** X18. When the fetch of the scheduler calendar has returned and the
    fetch of the home calendar throws, the reactive run ends with that
    exception: nothing was written or searched, the fetched scheduler
    events are not reconciled, although the token the scheduler fetch
    stored stays stored. *)
Theorem failed_home_fetch_aborts_the_run fuel (props : Config) (w : World St)
    schedulerEvents w1 e w2 :
  fetchEventsByToken fuel (schedulerCal props) false w
    = (Ok schedulerEvents, w1) ->
  fetchEventsByToken fuel (homeCal props) false w1 = (Throw e, w2) ->
  reactiveEntryPoint fuel props w = (Throw e, w2)
  /\ writes (issued w w2) = []
  /\ (forall eventId, searches eventId (issued w w2) = 0%nat)
  /\ (schedulerCal props <> homeCal props ->
      storedTokensOf (userProps w2) !! schedulerCal props
      = storedTokensOf (userProps w1) !! schedulerCal props).
Proof.
  intros H1 H2. split; [|split; [|split]].
  - unfold reactiveEntryPoint, bind. by rewrite H1, H2.
  - apply fetchEventsByToken_run in H1 as (f1 & Ht1 & Hf1).
    apply fetchEventsByToken_run in H2 as (f2 & Ht2 & Hf2).
    rewrite (issued_app w w2 (f1 ++ f2))
      by (rewrite Ht2, Ht1; by rewrite app_assoc).
    rewrite writes_app.
    destruct (fetch_call_quiet _ _ Hf1) as [-> _].
    by destruct (fetch_call_quiet _ _ Hf2) as [-> _].
  - intros eventId.
    apply fetchEventsByToken_run in H1 as (f1 & Ht1 & Hf1).
    apply fetchEventsByToken_run in H2 as (f2 & Ht2 & Hf2).
    rewrite (issued_app w w2 (f1 ++ f2))
      by (rewrite Ht2, Ht1; by rewrite app_assoc).
    assert (Hno : forall calendarId t,
      Forall (fetch_call calendarId) t -> searches eventId t = 0%nat).
    { intros calendarId t. induction 1 as [|c t Hc _ IH]; [done|].
      change (c :: t) with ([c] ++ t). rewrite searches_app, IH.
      destruct c as [cal options| | | |]; try done.
      destruct Hc as [_ Hq]. unfold searches. simpl. by rewrite Hq. }
    by rewrite searches_app, (Hno _ _ Hf1), (Hno _ _ Hf2).
  - intros Hne. apply fetchEventsByToken_isolated in H2 as [Htok _].
    by apply Htok.
Qed.

End Further.

(* ===================================================================== *)
(** ** Further runs on the simulated service *)
(* ===================================================================== *)

(** The search for [eva] returns a lookalike first; the lookup skips it
    and finds the block of the meeting. *)
Lemma lookup_requires_exact_description_witness :
  exists found,
    checkForBlockOnCalendar "blocker@example.com" "eva" ∅
      (Sim.blockerHolds [Sim.lookalikeBlock; Sim.meetingBlock])
    = (Ok (found, <["eva" := found]> ∅),
       Sim.searched "eva"
         (Sim.blockerHolds [Sim.lookalikeBlock; Sim.meetingBlock]))
    /\ found = Some Sim.meetingBlock
    /\ forall b, found = Some b -> description b = Some "eva".
Proof.
  destruct (lookup_requires_exact_description "blocker@example.com" "eva" ∅
              (Sim.blockerHolds [Sim.lookalikeBlock; Sim.meetingBlock])
              (mkListResult [Sim.lookalikeBlock; Sim.meetingBlock] None None)
              (Sim.calm [] [Sim.lookalikeBlock; Sim.meetingBlock]))
    as (found & Hrun & Hsome & _).
  - reflexivity.
  - reflexivity.
  - exists found. split; [exact Hrun|]. split.
    + assert (Hc : checkForBlockOnCalendar "blocker@example.com" "eva" ∅
                     (Sim.blockerHolds [Sim.lookalikeBlock; Sim.meetingBlock])
                   = (Ok (Some Sim.meetingBlock,
                          <["eva" := Some Sim.meetingBlock]> ∅),
                      Sim.searched "eva"
                        (Sim.blockerHolds
                           [Sim.lookalikeBlock; Sim.meetingBlock])))
        by (vm_compute; reflexivity).
      congruence.
    + intros b Hb. exact (proj2 (Hsome b Hb)).
Defined.

(** After that lookup a second one is answered from the cache, whatever
    the service has become. *)
Lemma lookup_is_memoised_witness :
  checkForBlockOnCalendar "blocker@example.com" "eva"
    {["eva" := Some Sim.meetingBlock]} (Sim.blockerHolds [])
  = (Ok (Some Sim.meetingBlock, {["eva" := Some Sim.meetingBlock]}),
     Sim.blockerHolds []).
Proof.
  apply (lookup_is_memoised "blocker@example.com" "eva" ∅
           (Sim.blockerHolds [Sim.lookalikeBlock; Sim.meetingBlock])
           (Some Sim.meetingBlock) {["eva" := Some Sim.meetingBlock]}
           (Sim.searched "eva"
              (Sim.blockerHolds [Sim.lookalikeBlock; Sim.meetingBlock]))).
  vm_compute. reflexivity.
Defined.

(** The decision table at a concrete input: the meeting has no block and
    is not tracked, so its block is created. *)
Lemma decision_table_witness :
  exists st' w',
    reconcileEvent "blocker@example.com" "me@work.example" Sim.meeting
      Sim.emptyState (Sim.blockerHolds []) = (Ok st', w')
    /\ writes (issued (Sim.blockerHolds []) w')
       = [CInsert "blocker@example.com"
            (newBlock "me@work.example" Sim.meeting)].
Proof.
  destruct (decision_table "blocker@example.com" "me@work.example" Sim.meeting
              Sim.emptyState (Sim.blockerHolds []) None {["eva" := None]}
              (Sim.searched "eva" (Sim.blockerHolds [])))
    as (st' & w' & Hrun & _ & Hw & _).
  - vm_compute. reflexivity.
  - exists st', w'. split; [exact Hrun|exact Hw].
Defined.

(** The meeting was moved: its block is updated once, and a second
    delivery in the same pass changes nothing. *)
Lemma changed_event_updates_once_witness :
  (exists s,
     reconcileEvent "blocker@example.com" "me@work.example" Sim.meetingMoved
       Sim.emptyState (Sim.blockerHolds [Sim.meetingBlock])
     = (Ok (mkLoopState
              {["eva" := Some (overwriteBlock Sim.meetingBlock Sim.meetingMoved)]}
              ∅),
        mkWorld s ∅
          [CList "blocker@example.com" (searchOptions "eva");
           CUpdate "blocker@example.com" "blk7"
             (overwriteBlock Sim.meetingBlock Sim.meetingMoved)]))
  /\ reconcileEvent "blocker@example.com" "me@work.example" Sim.meetingMoved
       (mkLoopState
          {["eva" := Some (overwriteBlock Sim.meetingBlock Sim.meetingMoved)]}
          ∅)
       (Sim.blockerHolds [])
     = (Ok (mkLoopState
              {["eva" := Some (overwriteBlock Sim.meetingBlock Sim.meetingMoved)]}
              ∅),
        Sim.blockerHolds []).
Proof.
  destruct (changed_event_updates_once "blocker@example.com" "me@work.example"
              Sim.meetingMoved Sim.emptyState
              (Sim.blockerHolds [Sim.meetingBlock]) Sim.meetingBlock
              {["eva" := Some Sim.meetingBlock]}
              (Sim.searched "eva" (Sim.blockerHolds [Sim.meetingBlock])))
    as ([s Hrun] & _ & Hagain).
  - vm_compute. reflexivity.
  - reflexivity.
  - reflexivity.
  - split.
    + exists s. rewrite Hrun. reflexivity.
    + exact (Hagain (Sim.blockerHolds [])).
Defined.

(** The first fetch of the scheduler calendar stores [token-1]; the next
    incremental fetch sends it. *)
Lemma stored_token_is_sent_next_witness :
  exists w',
    fetchEventsByToken 2 "scheduler@example.com" false Sim.schedulerOnly
    = (Ok [Sim.meeting], w')
    /\ storedTokensOf (userProps w') !! "scheduler@example.com"
       = Some "token-1"
    /\ tokenOptions "scheduler@example.com" false
         (storedTokensOf (userProps w')) w'
       = (Ok (incrementalOptions "token-1"), w').
Proof.
  destruct (stored_token_is_sent_next 1 "scheduler@example.com" false
              Sim.schedulerOnly
              (fullSyncOptions (Sim.march10 - 30 * ms_per_day))
              (host Sim.schedulerOnly) [Sim.meeting]
              (mkListResult [Sim.meeting] None (Some "token-1"))
              (record_call
                 (CList "scheduler@example.com"
                    (fullSyncOptions (Sim.march10 - 30 * ms_per_day)))
                 Sim.schedulerOnly)
              "token-1")
    as (w' & Hrun & Htok & _ & Hnext).
  - vm_compute. reflexivity.
  - vm_compute. reflexivity.
  - reflexivity.
  - exists w'. split; [exact Hrun|]. split; [exact Htok|].
    apply Hnext. reflexivity.
Defined.

(** With no token stored, an incremental fetch is a full synchronisation. *)
Lemma full_sync_sends_no_token_witness :
  Forall (full_sync_call (St:=Sim.State) "scheduler@example.com")
    (issued Sim.schedulerOnly
       (fetchEventsByToken 2 "scheduler@example.com" false
          Sim.schedulerOnly).2).
Proof.
  apply (full_sync_sends_no_token 2 "scheduler@example.com" false
           Sim.schedulerOnly).
  right. reflexivity.
Defined.

(** The feed of the home calendar is out of order: the run ends with the
    error, the meeting fetched from the scheduler calendar is not
    reconciled, and the new token of the scheduler calendar is stored. *)
Lemma failed_home_fetch_aborts_the_run_witness :
  exists w1 w2,
    fetchEventsByToken 2 "scheduler@example.com" false Outage.homeDown
    = (Ok [Sim.meeting], w1)
    /\ reactiveEntryPoint 2 Sim.props Outage.homeDown
       = (Throw (mkExn "Error" (message Outage.backendError)), w2)
    /\ writes (issued Outage.homeDown w2) = []
    /\ storedTokensOf (userProps w2) !! "scheduler@example.com"
       = Some "token-1".
Proof.
  eexists _, _.
  assert (H1 : fetchEventsByToken 2 (schedulerCal Sim.props) false
                 Outage.homeDown
               = (Ok [Sim.meeting],
                  (fetchEventsByToken 2 (schedulerCal Sim.props) false
                     Outage.homeDown).2))
    by (vm_compute; reflexivity).
  assert (H2 : fetchEventsByToken 2 (homeCal Sim.props) false
                 (fetchEventsByToken 2 (schedulerCal Sim.props) false
                    Outage.homeDown).2
               = (Throw (mkExn "Error" (message Outage.backendError)),
                  (fetchEventsByToken 2 (homeCal Sim.props) false
                     (fetchEventsByToken 2 (schedulerCal Sim.props) false
                        Outage.homeDown).2).2))
    by (vm_compute; reflexivity).
  destruct (failed_home_fetch_aborts_the_run 2 Sim.props Outage.homeDown
              _ _ _ _ H1 H2) as (Hrun & Hw & _ & _).
  split; [exact H1|]. split; [exact Hrun|]. split; [exact Hw|].
  vm_compute. reflexivity.
Defined.

(** Resetting the token of the scheduler calendar keeps the token of the
    home calendar; resetting with the empty string clears both. *)
Example reset_one_and_all :
  storedTokensOf (userProps
    (resetSyncToken (Some "scheduler@example.com")
       (Sim.world (Sim.calm [] [])
          (Some (PTokens {["scheduler@example.com" := "a";
                           "home@example.com" := "b"]})))).2)
  = {["home@example.com" := "b"]}
  /\ storedTokensOf (userProps
       (resetSyncToken (Some "")
          (Sim.world (Sim.calm [] [])
             (Some (PTokens {["scheduler@example.com" := "a";
                              "home@example.com" := "b"]})))).2)
     = ∅.
Proof. split; vm_compute; reflexivity. Qed.

(** *** Across a clock change *)

(** In New York, a proactive run on 1 March 2025 at 12:00 UTC (07:00 local
    time) asks for the window that ends on 30 May at 11:00 UTC, which is
    07:00 local time with daylight saving in force: 90 calendar days, one
    hour less than 90 times 24 hours. *)
Example proactive_window_across_clock_change :
  let today := Eastern.instant "2025-03-01T12:00:00Z" in
  addLocalDays (St:=Eastern.State) today 90
  = Eastern.instant "2025-05-30T11:00:00Z"
  /\ addLocalDays (St:=Eastern.State) today 90
     = today + 90 * ms_per_day - ms_per_hour
  /\ issued (Eastern.at_ "2025-03-01T12:00:00Z")
       (proactiveEntryPoint 2 Sim.props
          (Eastern.at_ "2025-03-01T12:00:00Z")).2
     = [CList "scheduler@example.com"
          (windowOptions today (Eastern.instant "2025-05-30T11:00:00Z"));
        CList "home@example.com"
          (windowOptions today (Eastern.instant "2025-05-30T11:00:00Z"))].
Proof. repeat split; vm_compute; reflexivity. Qed.

(** In New York, a full synchronisation on 1 April 2025 at 00:30 local
    time (04:30 UTC) starts from 2 March at 00:00 local time, which is
    05:00 UTC, standard time being in force then: 30 calendar days back,
    half an hour less than 30 times 24 hours before the clock reading. *)
Example full_sync_bound_across_clock_change :
  let now := Eastern.instant "2025-04-01T04:30:00Z" in
  relativeDate (St:=Eastern.State) now (-30) 0
  = Eastern.instant "2025-03-02T05:00:00Z"
  /\ relativeDate (St:=Eastern.State) now (-30) 0
     = now - 30 * ms_per_day + 30 * ms_per_minute
  /\ issued (Eastern.at_ "2025-04-01T04:30:00Z")
       (fetchEventsByToken 2 "scheduler@example.com" false
          (Eastern.at_ "2025-04-01T04:30:00Z")).2 !! 0%nat
     = Some (CList "scheduler@example.com"
               (fullSyncOptions (Eastern.instant "2025-03-02T05:00:00Z"))).
Proof. repeat split; vm_compute; reflexivity. Qed.
